(** * Separate-chaining hash sets: Sequential, Coarse-Grained, Striped, Refinable

    A shallow embedding of the five class templates of the repository
    (the two drafts of [HashSetRefinable] are kept apart) as state-passing
    functions, for an externally serialized caller: one operation runs from
    its first statement to its return before the next one starts.

    - [size_t] values are [N] with the 64-bit wrap-around written out.
    - A [std::vector] is a [list]; [operator[]] out of range is undefined
      behaviour and is the [None] of an [option].
    - A [std::mutex] is [Free] or [Held]; acquiring a [Held] mutex blocks,
      and in a serialized run nobody is left to release it, so the call does
      not return: [None].
    - An operation returns [None] exactly when the C++ call has undefined
      behaviour (modulo by zero, bad index) or never returns (blocked on a
      mutex, spinning in a wait gate, restarting its retry loop forever). *)

From stdpp Require Import base numbers option list relations.

Local Open Scope N_scope.

(** ** [size_t] arithmetic *)

Definition size_t_modulus : N := 2 ^ 64.

Definition wrap (n : N) : N := n mod size_t_modulus.

(** [++x] / [fetch_add(1)] and [--x] / [fetch_sub(1)] on a [size_t]. *)
Definition size_t_inc (n : N) : N := wrap (n + 1).
Definition size_t_dec (n : N) : N := wrap (n + (size_t_modulus - 1)).
(** [x * 2] on a [size_t]. *)
Definition size_t_double (n : N) : N := wrap (n * 2).

(** ** Load factor tests

    [static_cast<double>(size) / static_cast<double>(cap)] compared with
    [4.0] and with [1.0].  Below 2^53 both conversions are exact and the
    rounded quotient lies on the same side of the threshold as the exact
    one, so the test is an integer comparison; the embedding keeps the
    exact comparison for larger values too.  With [cap = 0] IEEE division
    yields an infinity (greater than [4.0], not less than [1.0]) or, for
    [0/0], a NaN (every comparison false). *)

Definition lf_gt (size cap : N) : bool :=
  if cap =? 0 then negb (size =? 0) else 4 * cap <? size.

Definition lf_lt (size cap : N) : bool :=
  if cap =? 0 then false else size <? cap.

(** ** Mutexes *)

Inductive mutex : Set := Free | Held.

(** [m.lock()]: returns once the mutex is acquired. *)
Definition lock (m : mutex) : option mutex :=
  match m with Free => Some Held | Held => None end.

(** [m.unlock()]. *)
Definition unlock (m : mutex) : mutex := Free.

(** [locks_[i].lock()]. *)
Definition lock_at (i : nat) (ls : list mutex) : option (list mutex) :=
  m ← ls !! i; m' ← lock m; Some (<[i := m']> ls).

(** Release of [locks_[i]] by the guard that holds it. *)
Definition unlock_at (i : nat) (ls : list mutex) : list mutex :=
  alter unlock i ls.

(** [for (auto& lock : locks_) lock.lock();] *)
Fixpoint lock_all (ls : list mutex) : option (list mutex) :=
  match ls with
  | [] => Some []
  | m :: rest => m' ← lock m; rest' ← lock_all rest; Some (m' :: rest')
  end.

(** [for (auto& lock : locks_) lock.unlock();] *)
Definition unlock_all (ls : list mutex) : list mutex := unlock <$> ls.

(** No mutex of the array is held. *)
Definition all_free (ls : list mutex) : Prop :=
  ∀ i m, ls !! i = Some m → m = Free.

(** ** Bucket chains *)

Section Chain.
Context {T : Type} `{EqDecision T}.
Variable hasher : T → N.

(** [std::find(b.begin(), b.end(), elem)]: the position of the first
    element equal to [elem]; [None] stands for [b.end()]. *)
Fixpoint find (b : list T) (elem : T) : option nat :=
  match b with
  | [] => None
  | x :: rest => if decide (x = elem) then Some 0%nat else S <$> find rest elem
  end.

(** [it != b.end()]. *)
Definition not_end (it : option nat) : bool :=
  match it with Some _ => true | None => false end.

(** [b.erase(it)] for a valid iterator. *)
Definition erase (b : list T) (it : nat) : list T := delete it b.

(** [b.push_back(elem)]. *)
Definition push_back (b : list T) (elem : T) : list T := b ++ [elem].

(** [hasher_(x) % n]. *)
Definition hash_mod (x : T) (n : N) : option N :=
  if n =? 0 then None else Some (hasher x mod n).

(** Body of the inner rehash loop:
    [size_t i = hasher_(v) % new_cap; new_buckets[i].push_back(v);] *)
Definition rehash_one (new_cap : N) (new_buckets : list (list T)) (v : T)
    : option (list (list T)) :=
  i ← hash_mod v new_cap;
  b ← new_buckets !! N.to_nat i;
  Some (<[N.to_nat i := push_back b v]> new_buckets).

(** [for (auto& v : bucket) { ... }] *)
Fixpoint rehash_bucket (new_cap : N) (bucket : list T)
    (new_buckets : list (list T)) : option (list (list T)) :=
  match bucket with
  | [] => Some new_buckets
  | v :: rest =>
      nb ← rehash_one new_cap new_buckets v; rehash_bucket new_cap rest nb
  end.

(** [for (auto& bucket : buckets_) for (auto& v : bucket) { ... }] *)
Fixpoint rehash_buckets (new_cap : N) (buckets : list (list T))
    (new_buckets : list (list T)) : option (list (list T)) :=
  match buckets with
  | [] => Some new_buckets
  | bucket :: rest =>
      nb ← rehash_bucket new_cap bucket new_buckets;
      rehash_buckets new_cap rest nb
  end.

(** [std::vector<std::vector<T>> new_buckets(n)]. *)
Definition fresh_buckets (n : N) : list (list T) := replicate (N.to_nat n) [].

(** Invariant I2: every element sits in the bucket its hash selects. *)
Definition well_placed (buckets : list (list T)) : Prop :=
  ∀ i b v, buckets !! i = Some b → v ∈ b →
    N.to_nat (hasher v mod N.of_nat (length buckets)) = i.

End Chain.

(** ** HashSetSequential
    ([skeleton/src/hash_set_sequential.h]; the second copy of the header in
    the repository has the same code) *)

Module Sequential.
Section Sequential.
Context {T : Type} `{EqDecision T}.
Variable hasher : T → N.

Record state : Type := State {
  buckets_ : list (list T);
  size_ : N;
}.

Definition kMinBuckets : N := 4.

Definition NormalizeCapacity (cap : N) : N :=
  if cap =? 0 then kMinBuckets else cap.

(** The constructor. *)
Definition make (initial_capacity : N) : state :=
  {| buckets_ :=
       fresh_buckets (N.max (NormalizeCapacity initial_capacity) kMinBuckets);
     size_ := 0 |}.

(** [buckets_.size()]. *)
Definition capacity (st : state) : N := N.of_nat (length (buckets_ st)).

Definition Index (st : state) (x : T) : option N :=
  hash_mod hasher x (capacity st).

Definition Resize (new_cap : N) (st : state) : option state :=
  new_buckets ← rehash_buckets hasher new_cap (buckets_ st)
                  (fresh_buckets new_cap);
  Some {| buckets_ := new_buckets; size_ := size_ st |}.

Definition Add (elem : T) (st : state) : option (bool * state) :=
  i ← Index st elem;
  b ← buckets_ st !! N.to_nat i;
  match find b elem with
  | Some _ => Some (false, st)
  | None =>
      let st1 := {| buckets_ := <[N.to_nat i := push_back b elem]> (buckets_ st);
                    size_ := size_t_inc (size_ st) |} in
      if lf_gt (size_ st1) (capacity st1)
      then st2 ← Resize (size_t_double (capacity st1)) st1; Some (true, st2)
      else Some (true, st1)
  end.

Definition Remove (elem : T) (st : state) : option (bool * state) :=
  i ← Index st elem;
  b ← buckets_ st !! N.to_nat i;
  match find b elem with
  | None => Some (false, st)
  | Some it =>
      Some (true, {| buckets_ := <[N.to_nat i := erase b it]> (buckets_ st);
                     size_ := size_t_dec (size_ st) |})
  end.

Definition Contains (elem : T) (st : state) : option (bool * state) :=
  i ← Index st elem;
  b ← buckets_ st !! N.to_nat i;
  Some (not_end (find b elem), st).

Definition Size (st : state) : option (N * state) := Some (size_ st, st).

(** The calls of a client, and a run of them in order. *)
Inductive op : Type :=
| OpAdd (v : T)
| OpRemove (v : T)
| OpContains (v : T)
| OpSize.

Definition exec (o : op) (st : state) : option state :=
  match o with
  | OpAdd v => snd <$> Add v st
  | OpRemove v => snd <$> Remove v st
  | OpContains v => snd <$> Contains v st
  | OpSize => snd <$> Size st
  end.

Fixpoint run (ops : list op) (st : state) : option state :=
  match ops with
  | [] => Some st
  | o :: rest => st' ← exec o st; run rest st'
  end.

(** One completed call. *)
Inductive step : state → state → Prop :=
| step_Add v r st st' :
    Add v st = Some (r, st') → step st st'
| step_Remove v r st st' :
    Remove v st = Some (r, st') → step st st'
| step_Contains v r st st' :
    Contains v st = Some (r, st') → step st st'
| step_Size r st st' :
    Size st = Some (r, st') → step st st'.

(** States a caller can reach: construction, then completed calls. *)
Definition reachable (st : state) : Prop :=
  ∃ c, rtc step (make c) st.

(** What holds between calls: I1 and I2. *)
Definition invariant (st : state) : Prop :=
  kMinBuckets ≤ capacity st ∧ well_placed hasher (buckets_ st).

End Sequential.

Arguments state : clear implicits.
Arguments op : clear implicits.

End Sequential.

(** ** HashSetCoarseGrained *)

Module Coarse.
Section Coarse.
Context {T : Type} `{EqDecision T}.
Variable hasher : T → N.

Record state : Type := State {
  mutex_ : mutex;
  buckets_ : list (list T);
  size_ : N;
}.

Definition kMinBuckets : N := 4.

Definition NormalizeCapacity (cap : N) : N :=
  if cap =? 0 then kMinBuckets else cap.

Definition make (initial_capacity : N) : state :=
  {| mutex_ := Free;
     buckets_ :=
       fresh_buckets (N.max (NormalizeCapacity initial_capacity) kMinBuckets);
     size_ := 0 |}.

Definition capacity (st : state) : N := N.of_nat (length (buckets_ st)).

Definition Index (st : state) (elem : T) : option N :=
  hash_mod hasher elem (capacity st).

(** [std::scoped_lock lock(mutex_);] *)
Definition acquire (st : state) : option state :=
  m ← lock (mutex_ st);
  Some {| mutex_ := m; buckets_ := buckets_ st; size_ := size_ st |}.

(** Destructor of the [scoped_lock] at the end of the operation. *)
Definition release (st : state) : state :=
  {| mutex_ := unlock (mutex_ st); buckets_ := buckets_ st; size_ := size_ st |}.

(** Called with [mutex_] held. *)
Definition Resize (new_capacity : N) (st : state) : option state :=
  new_buckets ← rehash_buckets hasher new_capacity (buckets_ st)
                  (fresh_buckets new_capacity);
  Some {| mutex_ := mutex_ st; buckets_ := new_buckets; size_ := size_ st |}.

Definition Add (elem : T) (st : state) : option (bool * state) :=
  st0 ← acquire st;
  i ← Index st0 elem;
  b ← buckets_ st0 !! N.to_nat i;
  match find b elem with
  | Some _ => Some (false, release st0)
  | None =>
      let st1 := {| mutex_ := mutex_ st0;
                    buckets_ := <[N.to_nat i := push_back b elem]> (buckets_ st0);
                    size_ := size_t_inc (size_ st0) |} in
      if lf_gt (size_ st1) (capacity st1)
      then st2 ← Resize (size_t_double (capacity st1)) st1;
           Some (true, release st2)
      else Some (true, release st1)
  end.

Definition Remove (elem : T) (st : state) : option (bool * state) :=
  st0 ← acquire st;
  i ← Index st0 elem;
  b ← buckets_ st0 !! N.to_nat i;
  match find b elem with
  | None => Some (false, release st0)
  | Some it =>
      let st1 := {| mutex_ := mutex_ st0;
                    buckets_ := <[N.to_nat i := erase b it]> (buckets_ st0);
                    size_ := size_t_dec (size_ st0) |} in
      if lf_lt (size_ st1) (capacity st1)
      then st2 ← Resize (capacity st1 / 2) st1; Some (true, release st2)
      else Some (true, release st1)
  end.

Definition Contains (elem : T) (st : state) : option (bool * state) :=
  st0 ← acquire st;
  i ← Index st0 elem;
  b ← buckets_ st0 !! N.to_nat i;
  Some (not_end (find b elem), release st0).

Definition Size (st : state) : option (N * state) :=
  st0 ← acquire st;
  Some (size_ st0, release st0).

(** The calls of a client, and a run of them in order. *)
Inductive op : Type :=
| OpAdd (v : T)
| OpRemove (v : T)
| OpContains (v : T)
| OpSize.

Definition exec (o : op) (st : state) : option state :=
  match o with
  | OpAdd v => snd <$> Add v st
  | OpRemove v => snd <$> Remove v st
  | OpContains v => snd <$> Contains v st
  | OpSize => snd <$> Size st
  end.

Fixpoint run (ops : list op) (st : state) : option state :=
  match ops with
  | [] => Some st
  | o :: rest => st' ← exec o st; run rest st'
  end.

(** One completed call. *)
Inductive step : state → state → Prop :=
| step_Add v r st st' :
    Add v st = Some (r, st') → step st st'
| step_Remove v r st st' :
    Remove v st = Some (r, st') → step st st'
| step_Contains v r st st' :
    Contains v st = Some (r, st') → step st st'
| step_Size r st st' :
    Size st = Some (r, st') → step st st'.

(** States a caller can reach: construction, then completed calls. *)
Definition reachable (st : state) : Prop :=
  ∃ c, rtc step (make c) st.

(** What holds between calls: the mutex is free, and I2. *)
Definition invariant (st : state) : Prop :=
  mutex_ st = Free ∧ well_placed hasher (buckets_ st).

End Coarse.

Arguments state : clear implicits.
Arguments op : clear implicits.

End Coarse.

(** ** HashSetStriped *)

Module Striped.
Section Striped.
Context {T : Type} `{EqDecision T}.
Variable hasher : T → N.

Record state : Type := State {
  buckets_ : list (list T);
  size_ : N;
  locks_ : list mutex;
  resize_mutex_ : mutex;
}.

Definition kMinBuckets : N := 4.

Definition NormalizeCapacity (cap : N) : N :=
  if cap =? 0 then kMinBuckets else cap.

Definition make (initial_capacity stripes : N) : state :=
  {| buckets_ :=
       fresh_buckets (N.max (NormalizeCapacity initial_capacity) kMinBuckets);
     size_ := 0;
     locks_ := replicate (N.to_nat (if stripes =? 0 then 64 else stripes)) Free;
     resize_mutex_ := Free |}.

Definition capacity (st : state) : N := N.of_nat (length (buckets_ st)).

Definition Index (st : state) (elem : T) : option N :=
  hash_mod hasher elem (capacity st).

(** [b % locks_.size()]. *)
Definition StripeOfBucket (st : state) (b : N) : option N :=
  let n := N.of_nat (length (locks_ st)) in
  if n =? 0 then None else Some (b mod n).

Definition with_locks (ls : list mutex) (st : state) : state :=
  {| buckets_ := buckets_ st; size_ := size_ st; locks_ := ls;
     resize_mutex_ := resize_mutex_ st |}.

Definition Resize (new_capacity : N) (st : state) : option state :=
  rm ← lock (resize_mutex_ st);
  let new_capacity := N.max kMinBuckets (NormalizeCapacity new_capacity) in
  if new_capacity =? capacity st
  then Some {| buckets_ := buckets_ st; size_ := size_ st; locks_ := locks_ st;
               resize_mutex_ := unlock rm |}
  else
    held ← lock_all (locks_ st);
    new_buckets ← rehash_buckets hasher new_capacity (buckets_ st)
                    (fresh_buckets new_capacity);
    Some {| buckets_ := new_buckets; size_ := size_ st;
            locks_ := unlock_all held; resize_mutex_ := unlock rm |}.

(** One pass through the retry loop of Add, Remove and Contains up to the
    bucket access: the stripe is locked and the capacity observed before
    the lock is compared with the capacity observed under it.  When they
    differ the loop restarts; a serialized caller sees the same state
    again, so that branch never leaves the loop. *)
Definition enter (elem : T) (st : state)
    : option (N * N * list T * state) :=
  let cap := capacity st in
  i ← Index st elem;
  stripe ← StripeOfBucket st i;
  held ← lock_at (N.to_nat stripe) (locks_ st);
  let st0 := with_locks held st in
  if negb (cap =? capacity st0) then None
  else b ← buckets_ st0 !! N.to_nat i; Some (i, stripe, b, st0).

(** The [unique_lock] goes out of scope. *)
Definition leave (stripe : N) (st : state) : state :=
  with_locks (unlock_at (N.to_nat stripe) (locks_ st)) st.

Definition Add (elem : T) (st : state) : option (bool * state) :=
  '(i, stripe, b, st0) ← enter elem st;
  match find b elem with
  | Some _ => Some (false, leave stripe st0)
  | None =>
      let st1 := leave stripe
                   {| buckets_ := <[N.to_nat i := push_back b elem]> (buckets_ st0);
                      size_ := size_t_inc (size_ st0);
                      locks_ := locks_ st0;
                      resize_mutex_ := resize_mutex_ st0 |} in
      if lf_gt (size_ st1) (capacity st1)
      then st2 ← Resize (size_t_double (capacity st1)) st1; Some (true, st2)
      else Some (true, st1)
  end.

Definition Remove (elem : T) (st : state) : option (bool * state) :=
  '(i, stripe, b, st0) ← enter elem st;
  match find b elem with
  | None => Some (false, leave stripe st0)
  | Some it =>
      let st1 := leave stripe
                   {| buckets_ := <[N.to_nat i := erase b it]> (buckets_ st0);
                      size_ := size_t_dec (size_ st0);
                      locks_ := locks_ st0;
                      resize_mutex_ := resize_mutex_ st0 |} in
      if lf_lt (size_ st1) (capacity st1) && (kMinBuckets <? capacity st1)
      then st2 ← Resize (capacity st1 / 2) st1; Some (true, st2)
      else Some (true, st1)
  end.

Definition Contains (elem : T) (st : state) : option (bool * state) :=
  '(i, stripe, b, st0) ← enter elem st;
  Some (not_end (find b elem), leave stripe st0).

Definition Size (st : state) : option (N * state) := Some (size_ st, st).

(** The calls of a client, and a run of them in order. *)
Inductive op : Type :=
| OpAdd (v : T)
| OpRemove (v : T)
| OpContains (v : T)
| OpSize.

Definition exec (o : op) (st : state) : option state :=
  match o with
  | OpAdd v => snd <$> Add v st
  | OpRemove v => snd <$> Remove v st
  | OpContains v => snd <$> Contains v st
  | OpSize => snd <$> Size st
  end.

Fixpoint run (ops : list op) (st : state) : option state :=
  match ops with
  | [] => Some st
  | o :: rest => st' ← exec o st; run rest st'
  end.

(** One completed call. *)
Inductive step : state → state → Prop :=
| step_Add v r st st' :
    Add v st = Some (r, st') → step st st'
| step_Remove v r st st' :
    Remove v st = Some (r, st') → step st st'
| step_Contains v r st st' :
    Contains v st = Some (r, st') → step st st'
| step_Size r st st' :
    Size st = Some (r, st') → step st st'
| step_Resize n st st' :
    Resize n st = Some st' → step st st'.

(** States a caller can reach: construction, then completed calls. *)
Definition reachable (st : state) : Prop :=
  ∃ c s, rtc step (make c s) st.

(** What holds between calls: no mutex is held, there is a stripe, I1
    and I2. *)
Definition invariant (st : state) : Prop :=
  all_free (locks_ st) ∧ resize_mutex_ st = Free ∧ locks_ st ≠ [] ∧
  kMinBuckets ≤ capacity st ∧ well_placed hasher (buckets_ st).

End Striped.

Arguments state : clear implicits.
Arguments op : clear implicits.

End Striped.

(** ** HashSetRefinable, the draft that migrates one bucket at a time
    (the file of the repository that also holds HashSetStriped)

    [me] is [std::hash<std::thread::id>{}(std::this_thread::get_id())] of
    the calling thread. *)

Module Refinable.
Section Refinable.
Context {T : Type} `{EqDecision T}.
Variable hasher : T → N.

Record state : Type := State {
  buckets_ : list (list T);
  size_ : N;
  locks_ : list mutex;
  resize_mutex_ : mutex;
  version_ : N;
  resizing_ : bool;
  owner_tid_hash_ : N;
}.

Definition kMinBuckets : N := 4.

Definition NormalizeCapacity (cap : N) : N :=
  if cap =? 0 then kMinBuckets else cap.

Definition make (initial_capacity : N) : state :=
  let buckets : list (list T) :=
    fresh_buckets (N.max (NormalizeCapacity initial_capacity) kMinBuckets) in
  {| buckets_ := buckets;
     size_ := 0;
     locks_ := replicate (length buckets) Free;
     resize_mutex_ := Free;
     version_ := 0;
     resizing_ := false;
     owner_tid_hash_ := 0 |}.

Definition capacity (st : state) : N := N.of_nat (length (buckets_ st)).

Definition IsResizingByOther (me : N) (st : state) : bool :=
  if negb (resizing_ st) then false else negb (owner_tid_hash_ st =? me).

(** [while (IsResizingByOther()) { spin or yield }]: returns once no other
    thread is resizing; the state does not change while a serialized caller
    spins. *)
Definition WaitIfResizingByOther (me : N) (st : state) : option unit :=
  if IsResizingByOther me st then None else Some ().

Definition with_locks (ls : list mutex) (st : state) : state :=
  {| buckets_ := buckets_ st; size_ := size_ st; locks_ := ls;
     resize_mutex_ := resize_mutex_ st; version_ := version_ st;
     resizing_ := resizing_ st; owner_tid_hash_ := owner_tid_hash_ st |}.

(** The loop of Resize over [i = 0 .. locks_.size() - 1]: under [locks_[i]]
    every element of [buckets_[i]] moves to its new bucket and the old
    bucket is cleared. *)
Fixpoint migrate (new_capacity : N) (count i : nat)
    (old_buckets : list (list T)) (old_locks : list mutex)
    (new_buckets : list (list T))
    : option (list (list T) * list mutex * list (list T)) :=
  match count with
  | O => Some (old_buckets, old_locks, new_buckets)
  | S count' =>
      held ← lock_at i old_locks;
      old_bucket ← old_buckets !! i;
      nb ← rehash_bucket hasher new_capacity old_bucket new_buckets;
      migrate new_capacity count' (S i) (<[i := []]> old_buckets)
        (unlock_at i held) nb
  end.

Definition Resize (me : N) (new_capacity : N) (st : state) : option state :=
  rm ← lock (resize_mutex_ st);
  let new_capacity := N.max kMinBuckets (NormalizeCapacity new_capacity) in
  if new_capacity =? capacity st
  then Some {| buckets_ := buckets_ st; size_ := size_ st;
               locks_ := locks_ st; resize_mutex_ := unlock rm;
               version_ := version_ st; resizing_ := resizing_ st;
               owner_tid_hash_ := owner_tid_hash_ st |}
  else
    (* owner_tid_hash_ = me; resizing_ = true *)
    let new_locks := replicate (N.to_nat new_capacity) Free in
    '(_, _, new_buckets) ←
       migrate new_capacity (length (locks_ st)) 0 (buckets_ st) (locks_ st)
         (fresh_buckets new_capacity);
    (* both arrays are swapped in, the old ones die with the locals *)
    Some {| buckets_ := new_buckets; size_ := size_ st;
            locks_ := new_locks; resize_mutex_ := unlock rm;
            version_ := size_t_inc (version_ st);
            resizing_ := false; owner_tid_hash_ := 0 |}.

(** One pass through the retry loop up to the bucket access.  The result
    carries [cap], the capacity the operation works under.  The two
    [continue] branches restart the loop; a serialized caller sees the same
    state again and never leaves it. *)
Definition enter (me : N) (elem : T) (st : state)
    : option (N * N * list T * state) :=
  _ ← WaitIfResizingByOther me st;
  let ver_before := version_ st in
  let cap := capacity st in
  i ← hash_mod hasher elem cap;
  held ← lock_at (N.to_nat i) (locks_ st);
  let st0 := with_locks held st in
  if negb (ver_before =? version_ st0) || IsResizingByOther me st0 then None
  else b ← buckets_ st0 !! N.to_nat i; Some (cap, i, b, st0).

Definition leave (i : N) (st : state) : state :=
  with_locks (unlock_at (N.to_nat i) (locks_ st)) st.

(** The part of Add after the loop, with the capacity the insertion was
    made under. *)
Definition Add_grow (me : N) (used_cap : N) (st : state) : option state :=
  if negb (IsResizingByOther me st) && lf_gt (size_ st) used_cap
  then Resize me (size_t_double used_cap) st
  else Some st.

Definition Add (me : N) (elem : T) (st : state) : option (bool * state) :=
  '(cap, i, b, st0) ← enter me elem st;
  match find b elem with
  | Some _ => Some (false, leave i st0)
  | None =>
      let st1 := leave i
                   {| buckets_ := <[N.to_nat i := push_back b elem]> (buckets_ st0);
                      size_ := size_t_inc (size_ st0);
                      locks_ := locks_ st0;
                      resize_mutex_ := resize_mutex_ st0;
                      version_ := version_ st0;
                      resizing_ := resizing_ st0;
                      owner_tid_hash_ := owner_tid_hash_ st0 |} in
      st2 ← Add_grow me cap st1; Some (true, st2)
  end.

(** The part of Remove after the loop. *)
Definition Remove_shrink (me : N) (used_cap : N) (st : state) : option state :=
  if negb (IsResizingByOther me st) && lf_lt (size_ st) used_cap
  then Resize me (N.max kMinBuckets (used_cap / 2)) st
  else Some st.

Definition Remove (me : N) (elem : T) (st : state) : option (bool * state) :=
  '(cap, i, b, st0) ← enter me elem st;
  match find b elem with
  | None => Some (false, leave i st0)
  | Some it =>
      let st1 := leave i
                   {| buckets_ := <[N.to_nat i := erase b it]> (buckets_ st0);
                      size_ := size_t_dec (size_ st0);
                      locks_ := locks_ st0;
                      resize_mutex_ := resize_mutex_ st0;
                      version_ := version_ st0;
                      resizing_ := resizing_ st0;
                      owner_tid_hash_ := owner_tid_hash_ st0 |} in
      st2 ← Remove_shrink me cap st1; Some (true, st2)
  end.

Definition Contains (me : N) (elem : T) (st : state) : option (bool * state) :=
  '(_, i, b, st0) ← enter me elem st;
  Some (not_end (find b elem), leave i st0).

Definition Size (st : state) : option (N * state) := Some (size_ st, st).

(** The calls of a client, and a run of them in order. *)
Inductive op : Type :=
| OpAdd (me : N) (v : T)
| OpRemove (me : N) (v : T)
| OpContains (me : N) (v : T)
| OpSize.

Definition exec (o : op) (st : state) : option state :=
  match o with
  | OpAdd me v => snd <$> Add me v st
  | OpRemove me v => snd <$> Remove me v st
  | OpContains me v => snd <$> Contains me v st
  | OpSize => snd <$> Size st
  end.

Fixpoint run (ops : list op) (st : state) : option state :=
  match ops with
  | [] => Some st
  | o :: rest => st' ← exec o st; run rest st'
  end.

(** One completed call. *)
Inductive step : state → state → Prop :=
| step_Add me v r st st' :
    Add me v st = Some (r, st') → step st st'
| step_Remove me v r st st' :
    Remove me v st = Some (r, st') → step st st'
| step_Contains me v r st st' :
    Contains me v st = Some (r, st') → step st st'
| step_Size r st st' :
    Size st = Some (r, st') → step st st'
| step_Resize me n st st' :
    Resize me n st = Some st' → step st st'.

(** States a caller can reach: construction, then completed calls. *)
Definition reachable (st : state) : Prop :=
  ∃ c, rtc step (make c) st.

(** What holds between calls: no mutex is held, no resize is in progress,
    one lock per bucket (I5), I1 and I2. *)
Definition invariant (st : state) : Prop :=
  all_free (locks_ st) ∧ resize_mutex_ st = Free ∧ resizing_ st = false ∧
  length (locks_ st) = length (buckets_ st) ∧
  kMinBuckets ≤ capacity st ∧ well_placed hasher (buckets_ st).

End Refinable.

Arguments state : clear implicits.
Arguments op : clear implicits.

End Refinable.

(** ** HashSetRefinable, the draft that holds every old lock across the
    migration ([skeleton/src/hash_set_refinable.h]) *)

Module RefinableSkeleton.
Section RefinableSkeleton.
Context {T : Type} `{EqDecision T}.
Variable hasher : T → N.

Record state : Type := State {
  buckets_ : list (list T);
  size_ : N;
  locks_ : list mutex;
  resize_mutex_ : mutex;
  version_ : N;
  resizing_ : bool;
  owner_tid_hash_ : N;
  old_lock_arrays_ : list (list mutex);
}.

Definition kMinBuckets : N := 4.

Definition NormalizeCapacity (cap : N) : N :=
  if cap =? 0 then kMinBuckets else cap.

Definition make (initial_capacity : N) : state :=
  let buckets : list (list T) :=
    fresh_buckets (N.max (NormalizeCapacity initial_capacity) kMinBuckets) in
  {| buckets_ := buckets;
     size_ := 0;
     locks_ := replicate (length buckets) Free;
     resize_mutex_ := Free;
     version_ := 0;
     resizing_ := false;
     owner_tid_hash_ := 0;
     old_lock_arrays_ := [] |}.

Definition capacity (st : state) : N := N.of_nat (length (buckets_ st)).

Definition Index (st : state) (elem : T) : option N :=
  hash_mod hasher elem (capacity st).

(** [while (resizing_.load()) { spin or yield }]. *)
Definition WaitIfResizingByOther (st : state) : option unit :=
  if resizing_ st then None else Some ().

Definition with_locks (ls : list mutex) (st : state) : state :=
  {| buckets_ := buckets_ st; size_ := size_ st; locks_ := ls;
     resize_mutex_ := resize_mutex_ st; version_ := version_ st;
     resizing_ := resizing_ st; owner_tid_hash_ := owner_tid_hash_ st;
     old_lock_arrays_ := old_lock_arrays_ st |}.

Definition Resize (me : N) (new_capacity : N) (st : state) : option state :=
  rm ← lock (resize_mutex_ st);
  let new_capacity := N.max kMinBuckets (NormalizeCapacity new_capacity) in
  if new_capacity =? capacity st
  then Some {| buckets_ := buckets_ st; size_ := size_ st;
               locks_ := locks_ st; resize_mutex_ := unlock rm;
               version_ := version_ st; resizing_ := resizing_ st;
               owner_tid_hash_ := owner_tid_hash_ st;
               old_lock_arrays_ := old_lock_arrays_ st |}
  else
    (* owner_tid_hash_ = me; resizing_ = true *)
    let new_locks := replicate (N.to_nat new_capacity) Free in
    (* all_locks: every lock of the old array, in index order *)
    held ← lock_all (locks_ st);
    (* every old bucket is moved, then cleared *)
    new_buckets ← rehash_buckets hasher new_capacity (buckets_ st)
                    (fresh_buckets new_capacity);
    (* after the two swaps the local new_locks is the old array; its locks
       are released and it is kept in old_lock_arrays_ *)
    let old_locks := unlock_all held in
    Some {| buckets_ := new_buckets; size_ := size_ st;
            locks_ := new_locks; resize_mutex_ := unlock rm;
            version_ := size_t_inc (version_ st);
            resizing_ := false; owner_tid_hash_ := 0;
            old_lock_arrays_ := old_lock_arrays_ st ++ [old_locks] |}.

(** One pass through the retry loop up to the bucket access; the
    [continue] branch restarts the loop on the same state. *)
Definition enter (elem : T) (st : state)
    : option (N * N * list T * state) :=
  _ ← WaitIfResizingByOther st;
  let ver_before := version_ st in
  let cap := capacity st in
  i ← Index st elem;
  held ← lock_at (N.to_nat i) (locks_ st);
  let st0 := with_locks held st in
  if negb (version_ st0 =? ver_before) then None
  else b ← buckets_ st0 !! N.to_nat i; Some (cap, i, b, st0).

Definition leave (i : N) (st : state) : state :=
  with_locks (unlock_at (N.to_nat i) (locks_ st)) st.

(** The part of Add after the loop. *)
Definition Add_grow (me : N) (used_cap : N) (st : state) : option state :=
  if negb (resizing_ st) && lf_gt (size_ st) used_cap
  then Resize me (size_t_double used_cap) st
  else Some st.

Definition Add (me : N) (elem : T) (st : state) : option (bool * state) :=
  '(cap, i, b, st0) ← enter elem st;
  match find b elem with
  | Some _ => Some (false, leave i st0)
  | None =>
      let st1 := leave i
                   {| buckets_ := <[N.to_nat i := push_back b elem]> (buckets_ st0);
                      size_ := size_t_inc (size_ st0);
                      locks_ := locks_ st0;
                      resize_mutex_ := resize_mutex_ st0;
                      version_ := version_ st0;
                      resizing_ := resizing_ st0;
                      owner_tid_hash_ := owner_tid_hash_ st0;
                      old_lock_arrays_ := old_lock_arrays_ st0 |} in
      st2 ← Add_grow me cap st1; Some (true, st2)
  end.

(** Nothing follows the loop of Remove but [return true]. *)
Definition Remove (elem : T) (st : state) : option (bool * state) :=
  '(_, i, b, st0) ← enter elem st;
  match find b elem with
  | None => Some (false, leave i st0)
  | Some it =>
      Some (true,
            leave i
              {| buckets_ := <[N.to_nat i := erase b it]> (buckets_ st0);
                 size_ := size_t_dec (size_ st0);
                 locks_ := locks_ st0;
                 resize_mutex_ := resize_mutex_ st0;
                 version_ := version_ st0;
                 resizing_ := resizing_ st0;
                 owner_tid_hash_ := owner_tid_hash_ st0;
                 old_lock_arrays_ := old_lock_arrays_ st0 |})
  end.

Definition Contains (elem : T) (st : state) : option (bool * state) :=
  '(_, i, b, st0) ← enter elem st;
  Some (not_end (find b elem), leave i st0).

Definition Size (st : state) : option (N * state) := Some (size_ st, st).

(** The calls of a client, and a run of them in order. *)
Inductive op : Type :=
| OpAdd (me : N) (v : T)
| OpRemove (v : T)
| OpContains (v : T)
| OpSize.

Definition exec (o : op) (st : state) : option state :=
  match o with
  | OpAdd me v => snd <$> Add me v st
  | OpRemove v => snd <$> Remove v st
  | OpContains v => snd <$> Contains v st
  | OpSize => snd <$> Size st
  end.

Fixpoint run (ops : list op) (st : state) : option state :=
  match ops with
  | [] => Some st
  | o :: rest => st' ← exec o st; run rest st'
  end.

(** One completed call. *)
Inductive step : state → state → Prop :=
| step_Add me v r st st' :
    Add me v st = Some (r, st') → step st st'
| step_Remove v r st st' :
    Remove v st = Some (r, st') → step st st'
| step_Contains v r st st' :
    Contains v st = Some (r, st') → step st st'
| step_Size r st st' :
    Size st = Some (r, st') → step st st'
| step_Resize me n st st' :
    Resize me n st = Some st' → step st st'.

(** States a caller can reach: construction, then completed calls. *)
Definition reachable (st : state) : Prop :=
  ∃ c, rtc step (make c) st.

(** What holds between calls: no mutex is held, no resize is in progress,
    one lock per bucket (I5), I1 and I2. *)
Definition invariant (st : state) : Prop :=
  all_free (locks_ st) ∧ resize_mutex_ st = Free ∧ resizing_ st = false ∧
  length (locks_ st) = length (buckets_ st) ∧
  kMinBuckets ≤ capacity st ∧ well_placed hasher (buckets_ st).

End RefinableSkeleton.

Arguments state : clear implicits.
Arguments op : clear implicits.

End RefinableSkeleton.

(** ** Scenarios on integers *)

Module Scenario.

(** A hash for integer elements: the identity, as the usual standard
    libraries hash integers. *)
Definition hasher (x : N) : N := x.

(** An identifier for the calling thread. *)
Definition me : N := 7.

(** Coarse-grained set: add and remove one element, three times. *)
Definition shrink_to_nothing : list (Coarse.op N) :=
  [Coarse.OpAdd 1; Coarse.OpRemove 1; Coarse.OpAdd 1; Coarse.OpRemove 1;
   Coarse.OpAdd 1; Coarse.OpRemove 1].

(** Striped set with capacity 4 and 8 stripes: the seventeenth insertion
    doubles the bucket array. *)
Definition seventeen_adds : list (Striped.op N) :=
  Striped.OpAdd <$> [1; 2; 3; 4; 5; 6; 7; 8; 9; 10; 11; 12; 13; 14; 15; 16; 17].

(** The sets after Add(1); Add(6) on a set of capacity 4. *)
Definition seq_two : Sequential.state N :=
  {| Sequential.buckets_ := [[]; [1]; [6]; []]; Sequential.size_ := 2 |}.

Definition coarse_two : Coarse.state N :=
  {| Coarse.mutex_ := Free;
     Coarse.buckets_ := [[]; [1]; [6]; []];
     Coarse.size_ := 2 |}.

Definition ref_two : Refinable.state N :=
  {| Refinable.buckets_ := [[]; [1]; [6]; []];
     Refinable.size_ := 2;
     Refinable.locks_ := [Free; Free; Free; Free];
     Refinable.resize_mutex_ := Free;
     Refinable.version_ := 0;
     Refinable.resizing_ := false;
     Refinable.owner_tid_hash_ := 0 |}.

Definition skel_two : RefinableSkeleton.state N :=
  {| RefinableSkeleton.buckets_ := [[]; [1]; [6]; []];
     RefinableSkeleton.size_ := 2;
     RefinableSkeleton.locks_ := [Free; Free; Free; Free];
     RefinableSkeleton.resize_mutex_ := Free;
     RefinableSkeleton.version_ := 0;
     RefinableSkeleton.resizing_ := false;
     RefinableSkeleton.owner_tid_hash_ := 0;
     RefinableSkeleton.old_lock_arrays_ := [] |}.

(** The striped set after [seventeen_adds]. *)
Definition striped_grown : Striped.state N :=
  {| Striped.buckets_ :=
       [[8; 16]; [1; 9; 17]; [2; 10]; [3; 11]; [4; 12]; [5; 13]; [6; 14];
        [7; 15]];
     Striped.size_ := 17;
     Striped.locks_ := [Free; Free; Free; Free; Free; Free; Free; Free];
     Striped.resize_mutex_ := Free |}.

(** A sequential set of four buckets holding five elements. *)
Definition seq_five : Sequential.state N :=
  {| Sequential.buckets_ := [[4; 8]; [1; 5]; [6]; []];
     Sequential.size_ := 5 |}.

(** Coarse-grained set of capacity 4 after Add(1), and after the
    Remove(1) that follows. *)
Definition coarse_one : Coarse.state N :=
  {| Coarse.mutex_ := Free;
     Coarse.buckets_ := [[]; [1]; []; []];
     Coarse.size_ := 1 |}.

Definition coarse_shrunk : Coarse.state N :=
  {| Coarse.mutex_ := Free; Coarse.buckets_ := [[]; []]; Coarse.size_ := 0 |}.

(** The coarse-grained set after [shrink_to_nothing]. *)
Definition coarse_nothing : Coarse.state N :=
  {| Coarse.mutex_ := Free; Coarse.buckets_ := []; Coarse.size_ := 0 |}.

(** Refinable sets of capacity 8 after Add(1). *)
Definition ref_eight_one : Refinable.state N :=
  {| Refinable.buckets_ := [[]; [1]; []; []; []; []; []; []];
     Refinable.size_ := 1;
     Refinable.locks_ := [Free; Free; Free; Free; Free; Free; Free; Free];
     Refinable.resize_mutex_ := Free;
     Refinable.version_ := 0;
     Refinable.resizing_ := false;
     Refinable.owner_tid_hash_ := 0 |}.

Definition skel_eight_one : RefinableSkeleton.state N :=
  {| RefinableSkeleton.buckets_ := [[]; [1]; []; []; []; []; []; []];
     RefinableSkeleton.size_ := 1;
     RefinableSkeleton.locks_ :=
       [Free; Free; Free; Free; Free; Free; Free; Free];
     RefinableSkeleton.resize_mutex_ := Free;
     RefinableSkeleton.version_ := 0;
     RefinableSkeleton.resizing_ := false;
     RefinableSkeleton.owner_tid_hash_ := 0;
     RefinableSkeleton.old_lock_arrays_ := [] |}.

(** The draft that keeps retired lock arrays, constructed with capacity 4,
    after Add(1), ..., Add(17): the seventeenth insertion has doubled the
    table and retired the four old locks. *)
Definition seventeen_skel_adds : list (RefinableSkeleton.op N) :=
  RefinableSkeleton.OpAdd me
    <$> [1; 2; 3; 4; 5; 6; 7; 8; 9; 10; 11; 12; 13; 14; 15; 16; 17].

Definition skel_grown : RefinableSkeleton.state N :=
  {| RefinableSkeleton.buckets_ :=
       [[8; 16]; [1; 9; 17]; [2; 10]; [3; 11]; [4; 12]; [5; 13]; [6; 14];
        [7; 15]];
     RefinableSkeleton.size_ := 17;
     RefinableSkeleton.locks_ :=
       [Free; Free; Free; Free; Free; Free; Free; Free];
     RefinableSkeleton.resize_mutex_ := Free;
     RefinableSkeleton.version_ := 1;
     RefinableSkeleton.resizing_ := false;
     RefinableSkeleton.owner_tid_hash_ := 0;
     RefinableSkeleton.old_lock_arrays_ := [[Free; Free; Free; Free]] |}.

(** The one-bucket-at-a-time draft after the Remove(1) that follows. *)
Definition ref_eight_shrunk : Refinable.state N :=
  {| Refinable.buckets_ := [[]; []; []; []];
     Refinable.size_ := 0;
     Refinable.locks_ := [Free; Free; Free; Free];
     Refinable.resize_mutex_ := Free;
     Refinable.version_ := 1;
     Refinable.resizing_ := false;
     Refinable.owner_tid_hash_ := 0 |}.

End Scenario.

(** ** Counting the elements *)

(** I3 and I4 for a bucket array and its size counter: no element is
    stored twice, and the counter is the number of stored elements as a
    [size_t]. *)
Definition counted {T : Type} (buckets : list (list T)) (size : N) : Prop :=
  NoDup (concat buckets) ∧ size = wrap (N.of_nat (length (concat buckets))).

(** ** What a client observes *)

(** The value a call returns. *)
Inductive result : Set :=
| ReturnedBool (b : bool)
| ReturnedSize (n : N).

(** The results of a sequence of calls made one after the other;
    [perform] runs one call. *)
Fixpoint trace {C S : Type} (perform : C → S → option (result * S))
    (calls : list C) (st : S) : option (list result) :=
  match calls with
  | [] => Some []
  | c :: rest =>
      '(r, st') ← perform c st;
      rs ← trace perform rest st';
      Some (r :: rs)
  end.

Section Observation.
Context {T : Type} `{EqDecision T}.
Variable hasher : T → N.

(** A call of one of the four operations of the common interface. *)
Inductive call : Type :=
| CallAdd (v : T)
| CallRemove (v : T)
| CallContains (v : T)
| CallSize.

Definition bool_result {S : Type} (r : option (bool * S))
    : option (result * S) :=
  '(b, st) ← r; Some (ReturnedBool b, st).

Definition size_result {S : Type} (r : option (N * S))
    : option (result * S) :=
  '(n, st) ← r; Some (ReturnedSize n, st).

Definition seq_perform (c : call) (st : Sequential.state T)
    : option (result * Sequential.state T) :=
  match c with
  | CallAdd v => bool_result (Sequential.Add hasher v st)
  | CallRemove v => bool_result (Sequential.Remove hasher v st)
  | CallContains v => bool_result (Sequential.Contains hasher v st)
  | CallSize => size_result (Sequential.Size st)
  end.

Definition coarse_perform (c : call) (st : Coarse.state T)
    : option (result * Coarse.state T) :=
  match c with
  | CallAdd v => bool_result (Coarse.Add hasher v st)
  | CallRemove v => bool_result (Coarse.Remove hasher v st)
  | CallContains v => bool_result (Coarse.Contains hasher v st)
  | CallSize => size_result (Coarse.Size st)
  end.

Definition striped_perform (c : call) (st : Striped.state T)
    : option (result * Striped.state T) :=
  match c with
  | CallAdd v => bool_result (Striped.Add hasher v st)
  | CallRemove v => bool_result (Striped.Remove hasher v st)
  | CallContains v => bool_result (Striped.Contains hasher v st)
  | CallSize => size_result (Striped.Size st)
  end.

(** For the Refinable drafts every call comes with the identifier of the
    thread that makes it. *)
Definition ref_perform (c : N * call) (st : Refinable.state T)
    : option (result * Refinable.state T) :=
  match c with
  | (me, CallAdd v) => bool_result (Refinable.Add hasher me v st)
  | (me, CallRemove v) => bool_result (Refinable.Remove hasher me v st)
  | (me, CallContains v) => bool_result (Refinable.Contains hasher me v st)
  | (_, CallSize) => size_result (Refinable.Size st)
  end.

Definition skel_perform (c : N * call) (st : RefinableSkeleton.state T)
    : option (result * RefinableSkeleton.state T) :=
  match c with
  | (me, CallAdd v) => bool_result (RefinableSkeleton.Add hasher me v st)
  | (_, CallRemove v) => bool_result (RefinableSkeleton.Remove hasher v st)
  | (_, CallContains v) => bool_result (RefinableSkeleton.Contains hasher v st)
  | (_, CallSize) => size_result (RefinableSkeleton.Size st)
  end.

(** The contract of the common interface, on the stored elements and the
    size counter before and after a call: Add returns true iff the element
    was not stored and stores it, Remove returns true iff the element was
    stored and takes it out, Contains reports membership, Size reports the
    counter; the counter follows the successful Adds and Removes. *)
Definition contract (c : call) (elems : list T) (size : N) (r : result)
    (elems' : list T) (size' : N) : Prop :=
  match c with
  | CallAdd v =>
      r = ReturnedBool (bool_decide (v ∉ elems)) ∧
      (∀ w, w ∈ elems' ↔ w ∈ elems ∨ w = v) ∧
      size' = (if decide (v ∈ elems) then size else size_t_inc size)
  | CallRemove v =>
      r = ReturnedBool (bool_decide (v ∈ elems)) ∧
      (∀ w, w ∈ elems' ↔ w ∈ elems ∧ w ≠ v) ∧
      size' = (if decide (v ∈ elems) then size_t_dec size else size)
  | CallContains v =>
      r = ReturnedBool (bool_decide (v ∈ elems)) ∧
      (∀ w, w ∈ elems' ↔ w ∈ elems) ∧ size' = size
  | CallSize =>
      r = ReturnedSize size ∧ (∀ w, w ∈ elems' ↔ w ∈ elems) ∧ size' = size
  end.

(** An implementation [perform] of the calls [C] meets the contract on the
    states that satisfy [good]: every call returns, keeps the state good
    and acts on the stored elements and the counter as the contract says. *)
Definition meets_contract {C S : Type}
    (perform : C → S → option (result * S)) (which : C → call)
    (good : S → Prop) (elems : S → list T) (size : S → N) : Prop :=
  ∀ c st, good st →
    ∃ r st', perform c st = Some (r, st') ∧ good st' ∧
             contract (which c) (elems st) (size st) r (elems st') (size st').

End Observation.

Arguments call : clear implicits.

(** * Properties *)

(** ** [size_t] and load-factor facts *)

Lemma lf_gt_spec size cap : cap ≠ 0 → lf_gt size cap = true ↔ 4 * cap < size.
Proof.
  intros Hc. unfold lf_gt. destruct (N.eqb_spec cap 0); [done|].
  apply N.ltb_lt.
Qed.

Lemma lf_lt_spec size cap : lf_lt size cap = true ↔ cap ≠ 0 ∧ size < cap.
Proof.
  unfold lf_lt. destruct (N.eqb_spec cap 0) as [->|Hc].
  - split; [done|]. by intros [[] _].
  - rewrite N.ltb_lt. split; [done|]. by intros [_ ?].
Qed.

Lemma wrap_lt n : wrap n < size_t_modulus.
Proof. unfold wrap. apply N.mod_lt. done. Qed.

Lemma wrap_small n : n < size_t_modulus → wrap n = n.
Proof. unfold wrap. apply N.mod_small. Qed.

(** A table that the growth test sends to Resize is far from the largest
    [size_t]: doubling its capacity does not wrap around. *)
Lemma double_no_wrap size cap :
  cap ≠ 0 → lf_gt (wrap size) cap = true → size_t_double cap = cap * 2.
Proof.
  intros Hc Hlf%lf_gt_spec; [|done].
  pose proof (wrap_lt size). unfold size_t_double.
  apply wrap_small. unfold size_t_modulus in *. lia.
Qed.

(** ** Mutex facts *)

Lemma all_free_replicate n : all_free (replicate n Free).
Proof. intros i m [-> _]%lookup_replicate. done. Qed.

Lemma lock_unlock_at i ls held :
  lock_at i ls = Some held → unlock_at i held = ls.
Proof.
  unfold lock_at, unlock_at. intros Hl.
  destruct (ls !! i) as [m|] eqn:Hi; simplify_eq/=.
  destruct m; simplify_eq/=.
  unfold unlock. rewrite <- list_insert_alter.
  rewrite list_insert_insert_eq. by apply list_insert_id.
Qed.

Lemma lock_at_free i ls :
  all_free ls → (i < length ls)%nat → lock_at i ls = Some (<[i := Held]> ls).
Proof.
  intros Hf Hi. unfold lock_at.
  destruct (lookup_lt_is_Some_2 ls i Hi) as [m Hm].
  rewrite Hm. simpl. by rewrite (Hf _ _ Hm).
Qed.

Lemma lock_all_Some ls held :
  lock_all ls = Some held → unlock_all held = ls.
Proof.
  revert held. induction ls as [|m ls IH]; intros held Hl; simplify_eq/=; [done|].
  destruct m; simplify_eq/=.
  destruct (lock_all ls) as [rest|] eqn:Hr; simplify_eq/=.
  unfold unlock_all in *. simpl. f_equal. by apply IH.
Qed.

Lemma lock_all_free ls : all_free ls → is_Some (lock_all ls).
Proof.
  induction ls as [|m ls IH]; intros Hf; simpl; [by eexists|].
  rewrite (Hf 0%nat m eq_refl). simpl.
  destruct IH as [rest ->]; [|by eexists].
  intros i m' Hi. by apply (Hf (S i)).
Qed.

(** ** Bucket chain facts *)

Section ChainFacts.
Context {T : Type} `{EqDecision T}.
Variable hasher : T → N.
Implicit Types (b : list T) (bs nb : list (list T)) (v elem : T).

Lemma find_Some b elem it : find b elem = Some it → b !! it = Some elem.
Proof.
  revert it. induction b as [|x b IH]; intros it; simpl; [done|].
  case_decide; [naive_solver|].
  destruct (find b elem) as [j|]; intros; simplify_eq/=. by apply IH.
Qed.

Lemma find_None b elem : find b elem = None ↔ elem ∉ b.
Proof.
  induction b as [|x b IH]; simpl.
  - split; [intros _; apply not_elem_of_nil | done].
  - case_decide as Hx.
    + subst. split; [done|]. intros []. left.
    + rewrite not_elem_of_cons, <- IH.
      destruct (find b elem); simpl; split; try done.
      by intros [_ ?].
Qed.

Lemma find_elem_of b elem : elem ∈ b → ∃ it, find b elem = Some it.
Proof.
  intros Hin. destruct (find b elem) as [it|] eqn:Hf; [by eexists|].
  by apply find_None in Hf.
Qed.

Lemma elem_of_erase b it v : v ∈ erase b it → v ∈ b.
Proof. apply list_elem_of_delete_inv. Qed.

Lemma elem_of_push_back b elem v : v ∈ push_back b elem ↔ v ∈ b ∨ v = elem.
Proof. unfold push_back. rewrite elem_of_app, list_elem_of_singleton. done. Qed.

Lemma concat_insert bs i b b' :
  bs !! i = Some b →
  concat (<[i := b']> bs) = concat (take i bs) ++ b' ++ concat (drop (S i) bs)
  ∧ concat bs = concat (take i bs) ++ b ++ concat (drop (S i) bs).
Proof.
  intros Hi. split.
  - rewrite insert_take_drop; last by eapply lookup_lt_Some.
    by rewrite concat_app.
  - rewrite <- (take_drop_middle bs i b Hi) at 1. by rewrite concat_app.
Qed.

Lemma concat_insert_push_back bs i b v :
  bs !! i = Some b → concat (<[i := push_back b v]> bs) ≡ₚ v :: concat bs.
Proof.
  intros Hi. destruct (concat_insert bs i b (push_back b v) Hi) as [-> ->].
  unfold push_back. rewrite <- (assoc_L (++) b [v]). simpl.
  by rewrite <- !Permutation_middle.
Qed.

Lemma elem_of_concat_lookup bs v :
  v ∈ concat bs ↔ ∃ i b, bs !! i = Some b ∧ v ∈ b.
Proof.
  induction bs as [|c bs IH]; simpl.
  - split; [by intros ?%not_elem_of_nil | by intros (i & b & ? & _)].
  - rewrite elem_of_app, IH. split.
    + intros [Hv|(i & b & Hi & Hv)]; [by exists 0%nat, c | by exists (S i), b].
    + intros ([|i] & b & Hi & Hv); simplify_eq/=; [by left | right; eauto].
Qed.

Lemma well_placed_fresh n : well_placed hasher (fresh_buckets (T:=T) n).
Proof.
  intros i b v [-> _]%lookup_replicate Hv. by apply not_elem_of_nil in Hv.
Qed.

Lemma well_placed_insert bs i b b' :
  well_placed hasher bs → bs !! i = Some b →
  (∀ v, v ∈ b' → v ∈ b ∨ N.to_nat (hasher v mod N.of_nat (length bs)) = i) →
  well_placed hasher (<[i := b']> bs).
Proof.
  intros Hwp Hi Hb' j c v Hj Hv. rewrite length_insert.
  destruct (decide (i = j)) as [<-|Hne].
  - rewrite list_lookup_insert_eq in Hj; last by eapply lookup_lt_Some.
    simplify_eq. destruct (Hb' v Hv); [by eapply Hwp|done].
  - rewrite list_lookup_insert_ne in Hj by done. by eapply Hwp.
Qed.

Lemma hash_mod_Some x n i :
  hash_mod hasher x n = Some i ↔ n ≠ 0 ∧ i = hasher x mod n.
Proof.
  unfold hash_mod.
  destruct (N.eqb_spec n 0) as [->|Hn]; split;
    [done | by intros [[] _] | by intros [= <-] | by intros [_ ->]].
Qed.

Lemma hash_mod_lt x n i :
  hash_mod hasher x n = Some i → (N.to_nat i < N.to_nat n)%nat.
Proof.
  intros [Hn ->]%hash_mod_Some.
  pose proof (N.mod_lt (hasher x) n Hn). lia.
Qed.

Lemma elem_of_insert_push_back bs i b v :
  bs !! i = Some b → v ∈ concat (<[i := push_back b v]> bs).
Proof.
  intros Hi. rewrite (concat_insert_push_back bs i b v Hi). left.
Qed.

Lemma find_Some_elem_of_concat bs i b v it :
  bs !! i = Some b → find b v = Some it → v ∈ concat bs.
Proof.
  intros Hi Hf%find_Some. apply elem_of_concat_lookup.
  exists i, b. split; [done|]. by eapply list_elem_of_lookup_2.
Qed.

(** A stored element is found through its hash. *)
Lemma well_placed_present bs v :
  well_placed hasher bs → v ∈ concat bs →
  ∃ i b it, hash_mod hasher v (N.of_nat (length bs)) = Some i ∧
            bs !! N.to_nat i = Some b ∧ find b v = Some it.
Proof.
  intros Hwp (j & b & Hj & Hv)%elem_of_concat_lookup.
  destruct (find_elem_of b v Hv) as [it Hit].
  exists (hasher v mod N.of_nat (length bs)), b, it.
  split_and!; [|by rewrite (Hwp j b v)|done].
  apply hash_mod_Some. split; [|done].
  apply lookup_lt_Some in Hj. lia.
Qed.

(** *** Rehashing *)

Lemma length_fresh_buckets n : length (fresh_buckets (T:=T) n) = N.to_nat n.
Proof. apply length_replicate. Qed.

Lemma concat_fresh_buckets n : concat (fresh_buckets (T:=T) n) = [].
Proof. unfold fresh_buckets. induction (N.to_nat n); simpl; done. Qed.

Lemma rehash_one_length new_cap nb v nb' :
  rehash_one hasher new_cap nb v = Some nb' → length nb' = length nb.
Proof.
  unfold rehash_one. intros Hr.
  destruct (hash_mod hasher v new_cap); simplify_eq/=.
  destruct (nb !! _); simplify_eq/=. apply length_insert.
Qed.

Lemma rehash_bucket_length new_cap bucket nb nb' :
  rehash_bucket hasher new_cap bucket nb = Some nb' → length nb' = length nb.
Proof.
  revert nb. induction bucket as [|v rest IH]; intros nb Hr; simplify_eq/=.
  - done.
  - destruct (rehash_one hasher new_cap nb v) as [nb1|] eqn:H1; simplify_eq/=.
    rewrite (IH _ Hr). by eapply rehash_one_length.
Qed.

Lemma rehash_one_Some new_cap nb v nb' :
  rehash_one hasher new_cap nb v = Some nb' →
  length nb = N.to_nat new_cap → well_placed hasher nb →
  length nb' = length nb ∧ well_placed hasher nb' ∧
  concat nb' ≡ₚ v :: concat nb.
Proof.
  unfold rehash_one. intros Hr Hlen Hwp.
  destruct (hash_mod hasher v new_cap) as [i|] eqn:Hi; simplify_eq/=.
  destruct (nb !! N.to_nat i) as [b|] eqn:Hb; simplify_eq/=.
  apply hash_mod_Some in Hi as [Hn ->].
  split_and!.
  - apply length_insert.
  - eapply well_placed_insert; [done..|].
    intros w [?| ->]%elem_of_push_back; [by left|right].
    by rewrite Hlen, N2Nat.id.
  - by apply concat_insert_push_back.
Qed.

Lemma rehash_one_total new_cap nb v :
  new_cap ≠ 0 → length nb = N.to_nat new_cap →
  is_Some (rehash_one hasher new_cap nb v).
Proof.
  intros Hn Hlen. unfold rehash_one.
  destruct (hash_mod hasher v new_cap) as [i|] eqn:Hi.
  - simpl. apply hash_mod_lt in Hi. rewrite <- Hlen in Hi.
    destruct (lookup_lt_is_Some_2 _ _ Hi) as [b ->]. by eexists.
  - unfold hash_mod in Hi. by destruct (N.eqb_spec new_cap 0).
Qed.

Lemma rehash_bucket_Some new_cap bucket nb nb' :
  rehash_bucket hasher new_cap bucket nb = Some nb' →
  length nb = N.to_nat new_cap → well_placed hasher nb →
  length nb' = length nb ∧ well_placed hasher nb' ∧
  concat nb' ≡ₚ bucket ++ concat nb.
Proof.
  revert nb. induction bucket as [|v rest IH]; intros nb Hr Hlen Hwp.
  - by simplify_eq/=.
  - simpl in Hr.
    destruct (rehash_one hasher new_cap nb v) as [nb1|] eqn:H1; simplify_eq/=.
    destruct (rehash_one_Some _ _ _ _ H1 Hlen Hwp) as (Hl1 & Hwp1 & Hp1).
    destruct (IH nb1 Hr) as (Hl2 & Hwp2 & Hp2); [congruence|done|].
    split_and!; [congruence|done|].
    rewrite Hp2, Hp1. by rewrite <- Permutation_middle.
Qed.

Lemma rehash_bucket_total new_cap bucket nb :
  new_cap ≠ 0 → length nb = N.to_nat new_cap →
  is_Some (rehash_bucket hasher new_cap bucket nb).
Proof.
  intros Hn. revert nb. induction bucket as [|v rest IH]; intros nb Hlen.
  - by eexists.
  - simpl. destruct (rehash_one_total new_cap nb v Hn Hlen) as [nb1 H1].
    rewrite H1. simpl. apply IH.
    by rewrite (rehash_one_length _ _ _ _ H1).
Qed.

Lemma rehash_buckets_Some new_cap bs nb nb' :
  rehash_buckets hasher new_cap bs nb = Some nb' →
  length nb = N.to_nat new_cap → well_placed hasher nb →
  length nb' = length nb ∧ well_placed hasher nb' ∧
  concat nb' ≡ₚ concat bs ++ concat nb.
Proof.
  revert nb. induction bs as [|bucket rest IH]; intros nb Hr Hlen Hwp.
  - by simplify_eq/=.
  - simpl in Hr.
    destruct (rehash_bucket hasher new_cap bucket nb) as [nb1|] eqn:H1;
      simplify_eq/=.
    destruct (rehash_bucket_Some _ _ _ _ H1 Hlen Hwp) as (Hl1 & Hwp1 & Hp1).
    destruct (IH nb1 Hr) as (Hl2 & Hwp2 & Hp2); [congruence|done|].
    split_and!; [congruence|done|].
    rewrite Hp2, Hp1. rewrite <- (assoc_L (++)).
    apply Permutation_app_swap_app.
Qed.

Lemma rehash_buckets_total new_cap bs nb :
  new_cap ≠ 0 → length nb = N.to_nat new_cap →
  is_Some (rehash_buckets hasher new_cap bs nb).
Proof.
  intros Hn. revert nb. induction bs as [|bucket rest IH]; intros nb Hlen.
  - by eexists.
  - simpl. destruct (rehash_bucket_total new_cap bucket nb Hn Hlen) as [nb1 H1].
    rewrite H1. simpl. apply IH.
    by rewrite (rehash_bucket_length _ _ _ _ H1).
Qed.

(** Rehashing into freshly allocated buckets. *)
Lemma rehash_fresh_Some new_cap bs nb' :
  rehash_buckets hasher new_cap bs (fresh_buckets new_cap) = Some nb' →
  length nb' = N.to_nat new_cap ∧ well_placed hasher nb' ∧
  concat nb' ≡ₚ concat bs.
Proof.
  intros Hr.
  destruct (rehash_buckets_Some _ _ _ _ Hr) as (Hl & Hwp & Hp).
  - apply length_fresh_buckets.
  - apply well_placed_fresh.
  - rewrite Hl, length_fresh_buckets. split_and!; [done..|].
    by rewrite Hp, concat_fresh_buckets, (right_id_L [] (++)).
Qed.

Lemma rehash_fresh_total new_cap bs :
  new_cap ≠ 0 →
  is_Some (rehash_buckets hasher new_cap bs (fresh_buckets new_cap)).
Proof. intros Hn. apply rehash_buckets_total; [done|apply length_fresh_buckets]. Qed.

End ChainFacts.

(** ** HashSetSequential *)

Module SequentialFacts.
Import Sequential.
Section Facts.
Context {T : Type} `{EqDecision T}.
Variable hasher : T → N.
Implicit Types (st : state T) (v elem : T).

Lemma seq_Resize_Some new_cap st st' :
  Resize hasher new_cap st = Some st' →
  size_ st' = size_ st ∧ length (buckets_ st') = N.to_nat new_cap ∧
  well_placed hasher (buckets_ st') ∧
  concat (buckets_ st') ≡ₚ concat (buckets_ st).
Proof.
  unfold Resize. intros Hr.
  destruct (rehash_buckets _ _ _ _) as [nb|] eqn:Hnb; simplify_eq/=.
  split; [done|]. by apply rehash_fresh_Some.
Qed.

Lemma seq_Resize_total new_cap st : new_cap ≠ 0 → is_Some (Resize hasher new_cap st).
Proof.
  intros Hn. unfold Resize.
  destruct (rehash_fresh_total hasher new_cap (buckets_ st) Hn) as [nb ->].
  by eexists.
Qed.

Lemma seq_Add_invariant elem r st st' :
  invariant hasher st → Add hasher elem st = Some (r, st') →
  invariant hasher st'.
Proof.
  unfold invariant, Add, Index. intros [Hcap Hwp] Ha.
  destruct (hash_mod hasher elem (capacity st)) as [i|] eqn:Hi; simplify_eq/=.
  destruct (buckets_ st !! N.to_nat i) as [b|] eqn:Hb; simplify_eq/=.
  destruct (find b elem); simplify_eq/=; [done|].
  assert (well_placed hasher (<[N.to_nat i := push_back b elem]> (buckets_ st)))
    as Hwp1.
  { eapply well_placed_insert; [done..|].
    intros w [?| ->]%elem_of_push_back; [by left|right].
    apply hash_mod_Some in Hi as [_ ->]. done. }
  unfold capacity in *. simpl in *. rewrite length_insert in Ha.
  destruct (lf_gt _ _) eqn:Hlf; simplify_eq/=; [|by rewrite length_insert].
  destruct (Resize _ _ _) as [st2|] eqn:Hr; simplify_eq/=.
  apply seq_Resize_Some in Hr as (_ & Hlen & ? & _). split; [|done].
  rewrite Hlen, N2Nat.id. unfold size_t_inc in Hlf.
  unfold kMinBuckets in *.
  rewrite (double_no_wrap _ (N.of_nat (length (buckets_ st))) ltac:(lia) Hlf).
  lia.
Qed.

Lemma seq_Remove_invariant elem r st st' :
  invariant hasher st → Remove hasher elem st = Some (r, st') →
  invariant hasher st'.
Proof.
  unfold invariant, Remove, Index. intros [Hcap Hwp] Ha.
  destruct (hash_mod hasher elem (capacity st)) as [i|] eqn:Hi; simplify_eq/=.
  destruct (buckets_ st !! N.to_nat i) as [b|] eqn:Hb; simplify_eq/=.
  destruct (find b elem) as [it|]; simplify_eq/=; [|done].
  unfold capacity in *. simpl. rewrite length_insert. split; [done|].
  eapply well_placed_insert; [done..|].
  intros w Hw%elem_of_erase. by left.
Qed.

Lemma seq_Contains_frame elem r st st' :
  Contains hasher elem st = Some (r, st') → st' = st.
Proof.
  unfold Contains. intros Hc.
  destruct (Index hasher st elem); simplify_eq/=.
  destruct (buckets_ st !! _); by simplify_eq/=.
Qed.

Lemma seq_Size_frame r st st' : Size st = Some (r, st') → st' = st.
Proof. unfold Size. by intros [= _ ->]. Qed.

Lemma seq_step_invariant st st' :
  step hasher st st' → invariant hasher st → invariant hasher st'.
Proof.
  intros [v r s s' Hs|v r s s' Hs|v r s s' Hs|r s s' Hs] Hinv.
  - by eapply seq_Add_invariant.
  - by eapply seq_Remove_invariant.
  - by rewrite (seq_Contains_frame _ _ _ _ Hs).
  - by rewrite (seq_Size_frame _ _ _ Hs).
Qed.

Lemma seq_make_invariant c : invariant hasher (make c).
Proof.
  split; [|apply well_placed_fresh].
  unfold capacity, make. simpl. rewrite length_fresh_buckets, N2Nat.id. lia.
Qed.

Lemma seq_reachable_invariant st : reachable hasher st → invariant hasher st.
Proof.
  intros [c Hsteps]. pose proof (seq_make_invariant c) as Hinv.
  induction Hsteps; eauto using seq_step_invariant.
Qed.

Lemma seq_run_steps ops st st' :
  run hasher ops st = Some st' → rtc (step hasher) st st'.
Proof.
  revert st. induction ops as [|o ops IH]; intros st Hr; simplify_eq/=.
  - done.
  - destruct (exec hasher o st) as [st1|] eqn:He; simplify_eq/=.
    eapply rtc_l; [|by apply IH].
    destruct o; unfold exec in He.
    + destruct (Add _ _ _) as [[r s]|] eqn:Ho; simplify_eq/=.
      eapply step_Add, Ho.
    + destruct (Remove _ _ _) as [[r s]|] eqn:Ho; simplify_eq/=.
      eapply step_Remove, Ho.
    + destruct (Contains _ _ _) as [[r s]|] eqn:Ho; simplify_eq/=.
      eapply step_Contains, Ho.
    + destruct (Size st) as [[r s]|] eqn:Ho; simplify_eq/=.
      eapply step_Size, Ho.
Qed.

Lemma seq_Add_elem_of elem r st st' :
  Add hasher elem st = Some (r, st') → elem ∈ concat (buckets_ st').
Proof.
  unfold Add, Index. intros Ha.
  destruct (hash_mod hasher elem (capacity st)) as [i|] eqn:Hi; simplify_eq/=.
  destruct (buckets_ st !! N.to_nat i) as [b|] eqn:Hb; simplify_eq/=.
  destruct (find b elem) eqn:Hf; simplify_eq/=.
  { by eapply find_Some_elem_of_concat. }
  pose proof (elem_of_insert_push_back _ _ _ elem Hb) as Hin.
  destruct (lf_gt _ _); simplify_eq/=; [|done].
  destruct (Resize _ _ _) as [st2|] eqn:Hr; simplify_eq/=.
  apply seq_Resize_Some in Hr as (_ & _ & _ & Hp). by rewrite Hp.
Qed.

(** Adding a stored element changes nothing. *)
Lemma seq_Add_present elem st :
  invariant hasher st → elem ∈ concat (buckets_ st) →
  Add hasher elem st = Some (false, st).
Proof.
  intros [_ Hwp] Hin. unfold Add, Index, capacity.
  destruct (well_placed_present hasher _ _ Hwp Hin) as (i & b & it & -> & Hb & Hf).
  simpl. rewrite Hb. simpl. by rewrite Hf.
Qed.

(** Add(v); Add(v): the second call finds v. *)
Lemma seq_Add_twice elem r st st' :
  invariant hasher st → Add hasher elem st = Some (r, st') →
  Add hasher elem st' = Some (false, st').
Proof.
  intros Hinv Ha. apply seq_Add_present.
  - by eapply seq_Add_invariant.
  - by eapply seq_Add_elem_of.
Qed.

Lemma seq_Contains_total elem st :
  invariant hasher st → ∃ r, Contains hasher elem st = Some (r, st).
Proof.
  intros [Hcap _]. unfold Contains, Index.
  assert (capacity st ≠ 0) as Hc by (unfold kMinBuckets in Hcap; lia).
  destruct (hash_mod hasher elem (capacity st)) as [i|] eqn:Hi;
    last by (unfold hash_mod in Hi; destruct (N.eqb_spec (capacity st) 0)).
  simpl. pose proof (hash_mod_lt _ _ _ _ Hi) as Hlt. unfold capacity in Hlt.
  rewrite Nat2N.id in Hlt.
  destruct (lookup_lt_is_Some_2 _ _ Hlt) as [b ->]. simpl. eauto.
Qed.

End Facts.
End SequentialFacts.

(** ** HashSetCoarseGrained *)

Module CoarseFacts.
Import Coarse.
Section Facts.
Context {T : Type} `{EqDecision T}.
Variable hasher : T → N.
Implicit Types (st : state T) (v elem : T).

Lemma coarse_acquire_Some st st0 :
  acquire st = Some st0 →
  mutex_ st = Free ∧ mutex_ st0 = Held ∧ buckets_ st0 = buckets_ st ∧
  size_ st0 = size_ st ∧ release st0 = st.
Proof.
  unfold acquire, release. destruct st as [[] bs n]; intros; by simplify_eq/=.
Qed.

Lemma coarse_acquire_free st :
  mutex_ st = Free →
  acquire st = Some {| mutex_ := Held; buckets_ := buckets_ st; size_ := size_ st |}.
Proof. unfold acquire. by intros ->. Qed.

Lemma coarse_Resize_Some new_capacity st st' :
  Resize hasher new_capacity st = Some st' →
  mutex_ st' = mutex_ st ∧ size_ st' = size_ st ∧
  length (buckets_ st') = N.to_nat new_capacity ∧
  well_placed hasher (buckets_ st') ∧
  concat (buckets_ st') ≡ₚ concat (buckets_ st).
Proof.
  unfold Resize. intros Hr.
  destruct (rehash_buckets _ _ _ _) as [nb|] eqn:Hnb; simplify_eq/=.
  do 2 (split; [done|]). by apply rehash_fresh_Some.
Qed.

Lemma coarse_Add_invariant elem r st st' :
  Add hasher elem st = Some (r, st') → invariant hasher st →
  invariant hasher st'.
Proof.
  unfold invariant, Add, Index. intros Ha [_ Hwp].
  destruct (acquire st) as [st0|] eqn:Hacq; simplify_eq/=.
  apply coarse_acquire_Some in Hacq as (_ & _ & Hbs & _ & _).
  unfold capacity in Ha. rewrite Hbs in Ha.
  destruct (hash_mod hasher elem _) as [i|] eqn:Hi; simplify_eq/=.
  destruct (buckets_ st !! N.to_nat i) as [b|] eqn:Hb; simplify_eq/=.
  destruct (find b elem); simplify_eq/=; [by rewrite Hbs|].
  assert (well_placed hasher (<[N.to_nat i := push_back b elem]> (buckets_ st)))
    as Hwp1.
  { eapply well_placed_insert; [done..|].
    intros w [?| ->]%elem_of_push_back; [by left|right].
    apply hash_mod_Some in Hi as [_ ->]. done. }
  destruct (lf_gt _ _); simplify_eq/=; [|done].
  destruct (Resize _ _ _) as [st2|] eqn:Hr; simplify_eq/=.
  by apply coarse_Resize_Some in Hr as (_ & _ & _ & ? & _).
Qed.

Lemma coarse_Remove_invariant elem r st st' :
  Remove hasher elem st = Some (r, st') → invariant hasher st →
  invariant hasher st'.
Proof.
  unfold invariant, Remove, Index. intros Ha [_ Hwp].
  destruct (acquire st) as [st0|] eqn:Hacq; simplify_eq/=.
  apply coarse_acquire_Some in Hacq as (_ & _ & Hbs & _ & _).
  unfold capacity in Ha. rewrite Hbs in Ha.
  destruct (hash_mod hasher elem _) as [i|] eqn:Hi; simplify_eq/=.
  destruct (buckets_ st !! N.to_nat i) as [b|] eqn:Hb; simplify_eq/=.
  destruct (find b elem) as [it|]; simplify_eq/=; [|by rewrite Hbs].
  assert (well_placed hasher (<[N.to_nat i := erase b it]> (buckets_ st)))
    as Hwp1.
  { eapply well_placed_insert; [done..|].
    intros w Hw%elem_of_erase. by left. }
  destruct (lf_lt _ _); simplify_eq/=; [|done].
  destruct (Resize _ _ _) as [st2|] eqn:Hr; simplify_eq/=.
  by apply coarse_Resize_Some in Hr as (_ & _ & _ & ? & _).
Qed.

Lemma coarse_Contains_frame elem r st st' :
  Contains hasher elem st = Some (r, st') → st' = st.
Proof.
  unfold Contains. intros Hc.
  destruct (acquire st) as [st0|] eqn:Hacq; simplify_eq/=.
  destruct (Index hasher st0 elem); simplify_eq/=.
  destruct (buckets_ st0 !! _); simplify_eq/=.
  by apply coarse_acquire_Some in Hacq as (_ & _ & _ & _ & ?).
Qed.

Lemma coarse_Size_frame r st st' : Size st = Some (r, st') → st' = st.
Proof.
  unfold Size. intros Hs.
  destruct (acquire st) as [st0|] eqn:Hacq; simplify_eq/=.
  by apply coarse_acquire_Some in Hacq as (_ & _ & _ & _ & ?).
Qed.

Lemma coarse_step_invariant st st' :
  step hasher st st' → invariant hasher st → invariant hasher st'.
Proof.
  intros [v r s s' Hs|v r s s' Hs|v r s s' Hs|r s s' Hs] Hinv.
  - by eapply coarse_Add_invariant.
  - by eapply coarse_Remove_invariant.
  - by rewrite (coarse_Contains_frame _ _ _ _ Hs).
  - by rewrite (coarse_Size_frame _ _ _ Hs).
Qed.

Lemma coarse_make_invariant c : invariant hasher (make c).
Proof. split; [done|apply well_placed_fresh]. Qed.

Lemma coarse_reachable_invariant st : reachable hasher st → invariant hasher st.
Proof.
  intros [c Hsteps]. pose proof (coarse_make_invariant c) as Hinv.
  induction Hsteps; eauto using coarse_step_invariant.
Qed.

Lemma coarse_run_steps ops st st' :
  run hasher ops st = Some st' → rtc (step hasher) st st'.
Proof.
  revert st. induction ops as [|o ops IH]; intros st Hr; simplify_eq/=.
  - done.
  - destruct (exec hasher o st) as [st1|] eqn:He; simplify_eq/=.
    eapply rtc_l; [|by apply IH].
    destruct o; unfold exec in He.
    + destruct (Add _ _ _) as [[r s]|] eqn:Ho; simplify_eq/=.
      eapply step_Add, Ho.
    + destruct (Remove _ _ _) as [[r s]|] eqn:Ho; simplify_eq/=.
      eapply step_Remove, Ho.
    + destruct (Contains _ _ _) as [[r s]|] eqn:Ho; simplify_eq/=.
      eapply step_Contains, Ho.
    + destruct (Size st) as [[r s]|] eqn:Ho; simplify_eq/=.
      eapply step_Size, Ho.
Qed.

Lemma coarse_Add_elem_of elem r st st' :
  Add hasher elem st = Some (r, st') → elem ∈ concat (buckets_ st').
Proof.
  unfold Add, Index. intros Ha.
  destruct (acquire st) as [st0|] eqn:Hacq; simplify_eq/=.
  apply coarse_acquire_Some in Hacq as (_ & _ & Hbs & _ & _).
  unfold capacity in Ha. rewrite Hbs in Ha.
  destruct (hash_mod hasher elem _) as [i|] eqn:Hi; simplify_eq/=.
  destruct (buckets_ st !! N.to_nat i) as [b|] eqn:Hb; simplify_eq/=.
  destruct (find b elem) eqn:Hf; simplify_eq/=.
  { rewrite Hbs. by eapply find_Some_elem_of_concat. }
  pose proof (elem_of_insert_push_back _ _ _ elem Hb) as Hin.
  destruct (lf_gt _ _); simplify_eq/=; [|done].
  destruct (Resize _ _ _) as [st2|] eqn:Hr; simplify_eq/=.
  apply coarse_Resize_Some in Hr as (_ & _ & _ & _ & Hp). by rewrite Hp.
Qed.

Lemma coarse_Add_present elem st :
  invariant hasher st → elem ∈ concat (buckets_ st) →
  Add hasher elem st = Some (false, st).
Proof.
  intros [Hm Hwp] Hin. unfold Add, Index, capacity.
  rewrite (coarse_acquire_free st Hm). simpl.
  destruct (well_placed_present hasher _ _ Hwp Hin) as (i & b & it & -> & Hb & Hf).
  simpl. rewrite Hb. simpl. rewrite Hf.
  unfold release. simpl. destruct st; simpl in *. by rewrite Hm.
Qed.

(** Add(v); Add(v): the second call finds v. *)
Lemma coarse_Add_twice elem r st st' :
  invariant hasher st → Add hasher elem st = Some (r, st') →
  Add hasher elem st' = Some (false, st').
Proof.
  intros Hinv Ha. apply coarse_Add_present.
  - by eapply coarse_Add_invariant.
  - by eapply coarse_Add_elem_of.
Qed.

(** Contains returns as long as a bucket is left. *)
Lemma coarse_Contains_total elem st :
  invariant hasher st → capacity st ≠ 0 →
  ∃ r, Contains hasher elem st = Some (r, st).
Proof.
  intros [Hm _] Hc. unfold Contains, Index.
  rewrite (coarse_acquire_free st Hm). simpl. unfold capacity in *. simpl.
  destruct (hash_mod hasher elem _) as [i|] eqn:Hi;
    last by (unfold hash_mod in Hi;
             destruct (N.eqb_spec (N.of_nat (length (buckets_ st))) 0)).
  simpl. pose proof (hash_mod_lt _ _ _ _ Hi) as Hlt.
  rewrite Nat2N.id in Hlt.
  destruct (lookup_lt_is_Some_2 _ _ Hlt) as [b ->]. simpl.
  eexists. do 2 f_equal. unfold release. simpl.
  destruct st; simpl in *. by rewrite Hm.
Qed.

End Facts.
End CoarseFacts.

(** ** HashSetStriped *)

Module StripedFacts.
Import Striped.
Section Facts.
Context {T : Type} `{EqDecision T}.
Variable hasher : T → N.
Implicit Types (st : state T) (v elem : T).

Lemma striped_clamp_ge n : kMinBuckets ≤ N.max kMinBuckets (NormalizeCapacity n).
Proof. lia. Qed.

Lemma striped_enter_Some elem st i stripe b st0 :
  enter hasher elem st = Some (i, stripe, b, st0) →
  hash_mod hasher elem (capacity st) = Some i ∧
  buckets_ st !! N.to_nat i = Some b ∧
  lock_at (N.to_nat stripe) (locks_ st) = Some (locks_ st0) ∧
  buckets_ st0 = buckets_ st ∧ size_ st0 = size_ st ∧
  resize_mutex_ st0 = resize_mutex_ st ∧
  unlock_at (N.to_nat stripe) (locks_ st0) = locks_ st.
Proof.
  unfold enter, Index. intros He.
  destruct (hash_mod hasher elem (capacity st)) as [j|] eqn:Hi; simplify_eq/=.
  destruct (StripeOfBucket st j) as [s|]; simplify_eq/=.
  destruct (lock_at (N.to_nat s) (locks_ st)) as [held|] eqn:Hl; simplify_eq/=.
  destruct (negb _); simplify_eq/=.
  destruct (buckets_ st !! N.to_nat j) as [c|] eqn:Hb; simplify_eq/=.
  split_and!; try done. by apply lock_unlock_at.
Qed.

Lemma striped_enter_total elem st :
  invariant hasher st →
  ∃ i stripe b st0, enter hasher elem st = Some (i, stripe, b, st0).
Proof.
  intros (Hfree & _ & Hne & Hcap & _). unfold enter, Index.
  assert (capacity st ≠ 0) as Hc by (unfold kMinBuckets in Hcap; lia).
  destruct (hash_mod hasher elem (capacity st)) as [i|] eqn:Hi;
    last by (unfold hash_mod in Hi; destruct (N.eqb_spec (capacity st) 0)).
  simpl. unfold StripeOfBucket.
  assert (length (locks_ st) ≠ 0%nat) as Hlen by (by destruct (locks_ st)).
  destruct (N.eqb_spec (N.of_nat (length (locks_ st))) 0) as [|Hs]; [lia|].
  simpl. rewrite lock_at_free; [|done|]; last first.
  { pose proof (N.mod_lt i _ Hs). lia. }
  simpl. unfold capacity at 1 2. simpl. rewrite N.eqb_refl. simpl.
  pose proof (hash_mod_lt _ _ _ _ Hi) as Hlt. unfold capacity in Hlt.
  rewrite Nat2N.id in Hlt.
  destruct (lookup_lt_is_Some_2 _ _ Hlt) as [b ->]. simpl. eauto.
Qed.

Lemma striped_Resize_Some n st st' :
  Resize hasher n st = Some st' →
  locks_ st' = locks_ st ∧ resize_mutex_ st' = Free ∧ size_ st' = size_ st ∧
  capacity st' = N.max kMinBuckets (NormalizeCapacity n) ∧
  (well_placed hasher (buckets_ st) → well_placed hasher (buckets_ st')) ∧
  concat (buckets_ st') ≡ₚ concat (buckets_ st).
Proof.
  unfold Resize. intros Hr.
  destruct (lock (resize_mutex_ st)) as [rm|]; simplify_eq/=.
  destruct (N.eqb_spec (N.max kMinBuckets (NormalizeCapacity n)) (capacity st))
    as [Heq|Hne]; simplify_eq/=; [done|].
  destruct (lock_all (locks_ st)) as [held|] eqn:Hl; simplify_eq/=.
  destruct (rehash_buckets _ _ _ _) as [nb|] eqn:Hnb; simplify_eq/=.
  apply rehash_fresh_Some in Hnb as (Hlen & Hwp & Hp).
  split_and!; try done.
  - by apply lock_all_Some.
  - unfold capacity. simpl. rewrite Hlen. apply N2Nat.id.
Qed.

Lemma striped_Resize_total n st :
  all_free (locks_ st) → resize_mutex_ st = Free →
  is_Some (Resize hasher n st).
Proof.
  intros Hfree Hrm. unfold Resize. rewrite Hrm. simpl.
  destruct (N.eqb_spec (N.max kMinBuckets (NormalizeCapacity n)) (capacity st));
    [by eexists|].
  destruct (lock_all_free _ Hfree) as [held ->]. simpl.
  destruct (rehash_fresh_total hasher
              (N.max kMinBuckets (NormalizeCapacity n)) (buckets_ st))
    as [nb ->]; [|by eexists].
  pose proof (striped_clamp_ge n). unfold kMinBuckets in *. lia.
Qed.

Lemma striped_Resize_invariant n st st' :
  Resize hasher n st = Some st' → invariant hasher st → invariant hasher st'.
Proof.
  intros (Hl & Hrm & _ & Hcap & Hwp & _)%striped_Resize_Some (Hf & _ & Hne & _ & Hw).
  unfold invariant. rewrite Hl, Hrm, Hcap.
  split_and!; auto using striped_clamp_ge.
Qed.

(** The state an insertion leaves behind, before any growth. *)
Lemma striped_Add_invariant elem r st st' :
  Add hasher elem st = Some (r, st') → invariant hasher st →
  invariant hasher st'.
Proof.
  unfold Add. intros Ha Hinv.
  destruct (enter hasher elem st) as [[[[i stripe] b] st0]|] eqn:He;
    simplify_eq/=.
  apply striped_enter_Some in He as (Hi & Hb & _ & Hbs & Hsz & Hrm & Hul).
  destruct Hinv as (Hf & Hr & Hne & Hcap & Hwp).
  unfold leave in Ha. simpl in Ha. rewrite Hul, Hbs, Hrm in Ha.
  destruct (find b elem); simplify_eq/=.
  { unfold invariant, capacity. simpl. by rewrite Hbs, Hrm. }
  set (st1 := {| buckets_ := <[N.to_nat i := push_back b elem]> (buckets_ st);
                 size_ := size_t_inc (size_ st0); locks_ := locks_ st;
                 resize_mutex_ := resize_mutex_ st |}) in *.
  assert (invariant hasher st1) as Hinv1.
  { unfold invariant, capacity. simpl. rewrite length_insert.
    split_and!; try done.
    eapply well_placed_insert; [done..|].
    intros w [?| ->]%elem_of_push_back; [by left|right].
    apply hash_mod_Some in Hi as [_ ->]. done. }
  destruct (lf_gt _ _); simplify_eq/=; [|done].
  destruct (Resize _ _ _) as [st2|] eqn:Hrs; simplify_eq/=.
  by eapply striped_Resize_invariant.
Qed.

Lemma striped_Remove_invariant elem r st st' :
  Remove hasher elem st = Some (r, st') → invariant hasher st →
  invariant hasher st'.
Proof.
  unfold Remove. intros Ha Hinv.
  destruct (enter hasher elem st) as [[[[i stripe] b] st0]|] eqn:He;
    simplify_eq/=.
  apply striped_enter_Some in He as (Hi & Hb & _ & Hbs & Hsz & Hrm & Hul).
  destruct Hinv as (Hf & Hr & Hne & Hcap & Hwp).
  unfold leave in Ha. simpl in Ha. rewrite Hul, Hbs, Hrm in Ha.
  destruct (find b elem) as [it|]; simplify_eq/=; last first.
  { unfold invariant, capacity. simpl. by rewrite Hbs, Hrm. }
  set (st1 := {| buckets_ := <[N.to_nat i := erase b it]> (buckets_ st);
                 size_ := size_t_dec (size_ st0); locks_ := locks_ st;
                 resize_mutex_ := resize_mutex_ st |}) in *.
  assert (invariant hasher st1) as Hinv1.
  { unfold invariant, capacity. simpl. rewrite length_insert.
    split_and!; try done.
    eapply well_placed_insert; [done..|].
    intros w Hw%elem_of_erase. by left. }
  destruct (_ && _); simplify_eq/=; [|done].
  destruct (Resize _ _ _) as [st2|] eqn:Hrs; simplify_eq/=.
  by eapply striped_Resize_invariant.
Qed.

Lemma striped_leave_enter elem st i stripe b st0 :
  enter hasher elem st = Some (i, stripe, b, st0) → leave stripe st0 = st.
Proof.
  intros (_ & _ & _ & Hbs & Hsz & Hrm & Hul)%striped_enter_Some.
  unfold leave, with_locks. rewrite Hul, Hbs, Hsz, Hrm. by destruct st.
Qed.

Lemma striped_Contains_frame elem r st st' :
  Contains hasher elem st = Some (r, st') → st' = st.
Proof.
  unfold Contains. intros Hc.
  destruct (enter hasher elem st) as [[[[i stripe] b] st0]|] eqn:He;
    simplify_eq/=.
  by eapply striped_leave_enter.
Qed.

Lemma striped_Size_frame r st st' : Size st = Some (r, st') → st' = st.
Proof. unfold Size. by intros [= _ ->]. Qed.

Lemma striped_step_invariant st st' :
  step hasher st st' → invariant hasher st → invariant hasher st'.
Proof.
  intros [v r s s' Hs|v r s s' Hs|v r s s' Hs|r s s' Hs|n s s' Hs] Hinv.
  - by eapply striped_Add_invariant.
  - by eapply striped_Remove_invariant.
  - by rewrite (striped_Contains_frame _ _ _ _ Hs).
  - by rewrite (striped_Size_frame _ _ _ Hs).
  - by eapply striped_Resize_invariant.
Qed.

Lemma striped_make_invariant c s : invariant hasher (make c s).
Proof.
  unfold invariant, make, capacity. simpl.
  rewrite length_fresh_buckets, N2Nat.id.
  split_and!; [apply all_free_replicate|done| |lia|apply well_placed_fresh].
  destruct (N.eqb_spec s 0); [done|].
  destruct (N.to_nat s) eqn:Hs; [lia|done].
Qed.

Lemma striped_reachable_invariant st : reachable hasher st → invariant hasher st.
Proof.
  intros (c & s & Hsteps). pose proof (striped_make_invariant c s) as Hinv.
  induction Hsteps; eauto using striped_step_invariant.
Qed.

(** No call replaces or resizes the lock array. *)
Lemma striped_step_locks st st' :
  step hasher st st' → length (locks_ st') = length (locks_ st).
Proof.
  intros [v r s s' Hs|v r s s' Hs|v r s s' Hs|r s s' Hs|n s s' Hs].
  - unfold Add in Hs.
    destruct (enter hasher v s) as [[[[i stripe] b] st0]|] eqn:He; [|done].
    apply striped_enter_Some in He as (_ & _ & _ & _ & _ & _ & Hul).
    unfold leave in Hs. simpl in Hs. rewrite Hul in Hs.
    destruct (find b v); [by injection Hs as _ <-|].
    destruct (lf_gt _ _); [|by injection Hs as _ <-].
    destruct (Resize _ _ _) as [st2|] eqn:Hrs; [|done].
    injection Hs as _ <-. by apply striped_Resize_Some in Hrs as (-> & _).
  - unfold Remove in Hs.
    destruct (enter hasher v s) as [[[[i stripe] b] st0]|] eqn:He; [|done].
    apply striped_enter_Some in He as (_ & _ & _ & _ & _ & _ & Hul).
    unfold leave in Hs. simpl in Hs. rewrite Hul in Hs.
    destruct (find b v); [|by injection Hs as _ <-].
    destruct (_ && _); [|by injection Hs as _ <-].
    destruct (Resize _ _ _) as [st2|] eqn:Hrs; [|done].
    injection Hs as _ <-. by apply striped_Resize_Some in Hrs as (-> & _).
  - by rewrite (striped_Contains_frame _ _ _ _ Hs).
  - by rewrite (striped_Size_frame _ _ _ Hs).
  - by apply striped_Resize_Some in Hs as (-> & _).
Qed.

Lemma striped_run_steps ops st st' :
  run hasher ops st = Some st' → rtc (step hasher) st st'.
Proof.
  revert st. induction ops as [|o ops IH]; intros st Hr; simplify_eq/=.
  - done.
  - destruct (exec hasher o st) as [st1|] eqn:He; simplify_eq/=.
    eapply rtc_l; [|by apply IH].
    destruct o; unfold exec in He.
    + destruct (Add _ _ _) as [[r s]|] eqn:Ho; simplify_eq/=.
      eapply step_Add, Ho.
    + destruct (Remove _ _ _) as [[r s]|] eqn:Ho; simplify_eq/=.
      eapply step_Remove, Ho.
    + destruct (Contains _ _ _) as [[r s]|] eqn:Ho; simplify_eq/=.
      eapply step_Contains, Ho.
    + destruct (Size st) as [[r s]|] eqn:Ho; simplify_eq/=.
      eapply step_Size, Ho.
Qed.

Lemma striped_Add_elem_of elem r st st' :
  Add hasher elem st = Some (r, st') → elem ∈ concat (buckets_ st').
Proof.
  unfold Add. intros Ha.
  destruct (enter hasher elem st) as [[[[i stripe] b] st0]|] eqn:He; [|done].
  apply striped_enter_Some in He as (Hi & Hb & _ & Hbs & _ & _ & _).
  simpl in Ha. destruct (find b elem) eqn:Hf.
  { injection Ha as _ <-. simpl. rewrite Hbs.
    by eapply find_Some_elem_of_concat. }
  rewrite Hbs in Ha.
  pose proof (elem_of_insert_push_back _ _ _ elem Hb) as Hin.
  destruct (lf_gt _ _); [|by injection Ha as _ <-].
  destruct (Resize _ _ _) as [st2|] eqn:Hr; [|done].
  injection Ha as _ <-.
  apply striped_Resize_Some in Hr as (_ & _ & _ & _ & _ & Hp). by rewrite Hp.
Qed.

Lemma striped_Add_present elem st :
  invariant hasher st → elem ∈ concat (buckets_ st) →
  Add hasher elem st = Some (false, st).
Proof.
  intros Hinv Hin. unfold Add.
  destruct (striped_enter_total elem st Hinv) as (i & stripe & b & st0 & He).
  rewrite He. simpl.
  pose proof (striped_leave_enter _ _ _ _ _ _ He) as Hle.
  apply striped_enter_Some in He as (Hi & Hb & _).
  destruct Hinv as (_ & _ & _ & _ & Hwp).
  destruct (well_placed_present hasher _ _ Hwp Hin)
    as (i' & b' & it & Hi' & Hb' & Hf).
  unfold capacity in Hi. rewrite Hi' in Hi. injection Hi as <-.
  rewrite Hb' in Hb. injection Hb as <-. by rewrite Hf, Hle.
Qed.

(** Add(v); Add(v): the second call finds v. *)
Lemma striped_Add_twice elem r st st' :
  invariant hasher st → Add hasher elem st = Some (r, st') →
  Add hasher elem st' = Some (false, st').
Proof.
  intros Hinv Ha. apply striped_Add_present.
  - by eapply striped_Add_invariant.
  - by eapply striped_Add_elem_of.
Qed.

Lemma striped_Contains_total elem st :
  invariant hasher st → ∃ r, Contains hasher elem st = Some (r, st).
Proof.
  intros Hinv. unfold Contains.
  destruct (striped_enter_total elem st Hinv) as (i & stripe & b & st0 & He).
  rewrite He. simpl. rewrite (striped_leave_enter _ _ _ _ _ _ He). eauto.
Qed.

End Facts.
End StripedFacts.

(** ** HashSetRefinable, one bucket at a time *)

Module RefinableFacts.
Import Refinable.
Section Facts.
Context {T : Type} `{EqDecision T}.
Variable hasher : T → N.
Implicit Types (st : state T) (v elem : T) (me : N).

Lemma ref_clamp_ge n : kMinBuckets ≤ N.max kMinBuckets (NormalizeCapacity n).
Proof. lia. Qed.

Lemma ref_not_resizing me st : resizing_ st = false → IsResizingByOther me st = false.
Proof. unfold IsResizingByOther. by intros ->. Qed.

(** The migration loop moves the elements of the old buckets
    [i .. i + count - 1] into the new buckets and keeps these well placed. *)
Lemma ref_migrate_Some new_capacity count i ob ol nb ob' ol' nb' :
  migrate hasher new_capacity count i ob ol nb = Some (ob', ol', nb') →
  length nb = N.to_nat new_capacity → well_placed hasher nb →
  length nb' = N.to_nat new_capacity ∧ well_placed hasher nb' ∧
  concat nb' ≡ₚ concat (take count (drop i ob)) ++ concat nb.
Proof.
  revert i ob ol nb.
  induction count as [|count IH]; intros i ob ol nb Hm Hlen Hwp.
  - by simplify_eq/=.
  - simpl in Hm.
    destruct (lock_at i ol) as [held|]; simplify_eq/=.
    destruct (ob !! i) as [old_bucket|] eqn:Hi; simplify_eq/=.
    destruct (rehash_bucket hasher new_capacity old_bucket nb) as [nb1|] eqn:H1;
      simplify_eq/=.
    destruct (rehash_bucket_Some _ _ _ _ _ H1 Hlen Hwp) as (Hl1 & Hwp1 & Hp1).
    destruct (IH _ _ _ _ Hm) as (Hl2 & Hwp2 & Hp2); [congruence|done|].
    split_and!; [done..|].
    rewrite Hp2, Hp1, drop_insert_lt by lia.
    rewrite (drop_S _ _ _ Hi). simpl.
    rewrite <- (assoc_L (++)). apply Permutation_app_swap_app.
Qed.

Lemma ref_migrate_total new_capacity count i ob ol nb :
  new_capacity ≠ 0 → length nb = N.to_nat new_capacity →
  all_free ol → (i + count ≤ length ol)%nat → (i + count ≤ length ob)%nat →
  is_Some (migrate hasher new_capacity count i ob ol nb).
Proof.
  intros Hn. revert i ob ol nb.
  induction count as [|count IH]; intros i ob ol nb Hlen Hfree Hol Hob.
  - by eexists.
  - simpl.
    assert (lock_at i ol = Some (<[i := Held]> ol)) as Hl
      by (apply lock_at_free; [done|lia]).
    rewrite Hl. simpl.
    destruct (lookup_lt_is_Some_2 ob i) as [old_bucket ->]; [lia|]. simpl.
    destruct (rehash_bucket_total hasher new_capacity old_bucket nb Hn Hlen)
      as [nb1 H1].
    rewrite H1. simpl. rewrite (lock_unlock_at _ _ _ Hl).
    apply IH; [|done| |rewrite length_insert]; try lia.
    by rewrite (rehash_bucket_length _ _ _ _ _ H1).
Qed.

Lemma ref_Resize_Some me n st st' :
  Resize hasher me n st = Some st' →
  resize_mutex_ st' = Free ∧ size_ st' = size_ st ∧
  (length (locks_ st) = length (buckets_ st) →
   capacity st' = N.max kMinBuckets (NormalizeCapacity n) ∧
   length (locks_ st') = length (buckets_ st')) ∧
  (all_free (locks_ st) → all_free (locks_ st')) ∧
  (resizing_ st = false → resizing_ st' = false) ∧
  (well_placed hasher (buckets_ st) → well_placed hasher (buckets_ st')) ∧
  (length (locks_ st) = length (buckets_ st) →
   concat (buckets_ st') ≡ₚ concat (buckets_ st)).
Proof.
  unfold Resize. intros Hr.
  destruct (lock (resize_mutex_ st)) as [rm|]; simplify_eq/=.
  destruct (N.eqb_spec (N.max kMinBuckets (NormalizeCapacity n)) (capacity st))
    as [Heq|Hne]; simplify_eq/=; [done|].
  destruct (migrate _ _ _ _ _ _ _) as [[[ob' ol'] nb']|] eqn:Hm; simplify_eq/=.
  apply ref_migrate_Some in Hm as (Hlen & Hwp & Hp);
    [|apply length_fresh_buckets|apply well_placed_fresh].
  split_and!; try done.
  - intros _. unfold capacity. simpl.
    by rewrite Hlen, length_replicate, N2Nat.id.
  - intros _. apply all_free_replicate.
  - intros Hl. rewrite Hp, Hl, drop_0, take_ge by done.
    by rewrite concat_fresh_buckets, (right_id_L [] (++)).
Qed.

Lemma ref_Resize_total me n st :
  all_free (locks_ st) → resize_mutex_ st = Free →
  length (locks_ st) = length (buckets_ st) →
  is_Some (Resize hasher me n st).
Proof.
  intros Hfree Hrm Hlen. unfold Resize. rewrite Hrm. simpl.
  destruct (N.eqb_spec (N.max kMinBuckets (NormalizeCapacity n)) (capacity st));
    [by eexists|].
  destruct (ref_migrate_total (N.max kMinBuckets (NormalizeCapacity n))
              (length (locks_ st)) 0 (buckets_ st) (locks_ st)
              (fresh_buckets (N.max kMinBuckets (NormalizeCapacity n))))
    as [[[ob' ol'] nb'] ->]; [|apply length_fresh_buckets|done|lia|lia|by eexists].
  pose proof (ref_clamp_ge n). unfold kMinBuckets in *. lia.
Qed.

Lemma ref_Resize_invariant me n st st' :
  Resize hasher me n st = Some st' → invariant hasher st → invariant hasher st'.
Proof.
  intros (Hrm & _ & Hcap & Hfree & Hrz & Hwp & _)%ref_Resize_Some
         (Hf & _ & Hz & Hlen & _ & Hw).
  destruct (Hcap Hlen) as [Hc Hl].
  unfold invariant. rewrite Hc. split_and!; auto using ref_clamp_ge.
Qed.

Lemma ref_enter_Some me elem st cap i b st0 :
  enter hasher me elem st = Some (cap, i, b, st0) →
  cap = capacity st ∧
  hash_mod hasher elem (capacity st) = Some i ∧
  buckets_ st !! N.to_nat i = Some b ∧
  st0 = with_locks (locks_ st0) st ∧
  unlock_at (N.to_nat i) (locks_ st0) = locks_ st ∧
  IsResizingByOther me st0 = false.
Proof.
  unfold enter, WaitIfResizingByOther. intros He.
  destruct (IsResizingByOther me st); simplify_eq/=.
  destruct (hash_mod hasher elem (capacity st)) as [j|] eqn:Hi; simplify_eq/=.
  destruct (lock_at (N.to_nat j) (locks_ st)) as [held|] eqn:Hl; simplify_eq/=.
  destruct (negb _ || _) eqn:Hre; simplify_eq/=.
  destruct (buckets_ st !! N.to_nat j) as [c|] eqn:Hb; simplify_eq/=.
  apply orb_false_elim in Hre as [_ Hre].
  split_and!; try done. by apply lock_unlock_at.
Qed.

Lemma ref_leave_enter me elem st cap i b st0 :
  enter hasher me elem st = Some (cap, i, b, st0) → leave i st0 = st.
Proof.
  intros (_ & _ & _ & -> & Hul & _)%ref_enter_Some.
  unfold leave, with_locks in *. simpl in *. rewrite Hul. by destruct st.
Qed.

Lemma ref_enter_total me elem st :
  invariant hasher st →
  ∃ i b st0, enter hasher me elem st = Some (capacity st, i, b, st0).
Proof.
  intros (Hfree & _ & Hrz & Hlen & Hcap & _).
  unfold enter, WaitIfResizingByOther.
  rewrite (ref_not_resizing me st Hrz). simpl.
  assert (capacity st ≠ 0) as Hc by (unfold kMinBuckets in Hcap; lia).
  destruct (hash_mod hasher elem (capacity st)) as [i|] eqn:Hi;
    last by (unfold hash_mod in Hi; destruct (N.eqb_spec (capacity st) 0)).
  simpl.
  pose proof (hash_mod_lt _ _ _ _ Hi) as Hlt. unfold capacity in Hlt.
  rewrite Nat2N.id in Hlt.
  rewrite lock_at_free; [|done|lia]. simpl.
  rewrite N.eqb_refl. simpl.
  unfold IsResizingByOther. simpl. rewrite Hrz. simpl.
  destruct (lookup_lt_is_Some_2 _ _ Hlt) as [b ->]. simpl. eauto.
Qed.

Lemma ref_Add_invariant me elem r st st' :
  Add hasher me elem st = Some (r, st') → invariant hasher st →
  invariant hasher st'.
Proof.
  unfold Add. intros Ha Hinv.
  destruct (enter hasher me elem st) as [[[[cap i] b] st0]|] eqn:He; [|done].
  pose proof (ref_leave_enter _ _ _ _ _ _ _ He) as Hle.
  apply ref_enter_Some in He as (_ & Hi & Hb & Hst0 & Hul & _).
  simpl in Ha. destruct (find b elem).
  { injection Ha as _ <-. by rewrite Hle. }
  unfold leave, with_locks in Ha. simpl in Ha. rewrite Hul in Ha.
  rewrite Hst0 in Ha. simpl in Ha.
  destruct Hinv as (Hf & Hr & Hz & Hlen & Hcap & Hwp).
  match type of Ha with context [Add_grow _ _ _ ?s] => set (st1 := s) in * end.
  assert (invariant hasher st1) as Hinv1.
  { unfold invariant, capacity. simpl. rewrite length_insert.
    split_and!; try done.
    eapply well_placed_insert; [done..|].
    intros w [?| ->]%elem_of_push_back; [by left|right].
    apply hash_mod_Some in Hi as [_ ->]. done. }
  unfold Add_grow in Ha.
  destruct (_ && _).
  - destruct (Resize _ _ _ _) as [st2|] eqn:Hrs; [|done].
    injection Ha as _ <-. by eapply ref_Resize_invariant.
  - by injection Ha as _ <-.
Qed.

Lemma ref_Remove_invariant me elem r st st' :
  Remove hasher me elem st = Some (r, st') → invariant hasher st →
  invariant hasher st'.
Proof.
  unfold Remove. intros Ha Hinv.
  destruct (enter hasher me elem st) as [[[[cap i] b] st0]|] eqn:He; [|done].
  pose proof (ref_leave_enter _ _ _ _ _ _ _ He) as Hle.
  apply ref_enter_Some in He as (_ & Hi & Hb & Hst0 & Hul & _).
  simpl in Ha. destruct (find b elem) as [it|]; last first.
  { injection Ha as _ <-. by rewrite Hle. }
  unfold leave, with_locks in Ha. simpl in Ha. rewrite Hul in Ha.
  rewrite Hst0 in Ha. simpl in Ha.
  destruct Hinv as (Hf & Hr & Hz & Hlen & Hcap & Hwp).
  match type of Ha with context [Remove_shrink _ _ _ ?s] => set (st1 := s) in * end.
  assert (invariant hasher st1) as Hinv1.
  { unfold invariant, capacity. simpl. rewrite length_insert.
    split_and!; try done.
    eapply well_placed_insert; [done..|].
    intros w Hw%elem_of_erase. by left. }
  unfold Remove_shrink in Ha.
  destruct (_ && _).
  - destruct (Resize _ _ _ _) as [st2|] eqn:Hrs; [|done].
    injection Ha as _ <-. by eapply ref_Resize_invariant.
  - by injection Ha as _ <-.
Qed.

Lemma ref_Contains_frame me elem r st st' :
  Contains hasher me elem st = Some (r, st') → st' = st.
Proof.
  unfold Contains. intros Hc.
  destruct (enter hasher me elem st) as [[[[cap i] b] st0]|] eqn:He; [|done].
  injection Hc as _ <-. by eapply ref_leave_enter.
Qed.

Lemma ref_Size_frame r st st' : Size st = Some (r, st') → st' = st.
Proof. unfold Size. by intros [= _ ->]. Qed.

Lemma ref_step_invariant st st' :
  step hasher st st' → invariant hasher st → invariant hasher st'.
Proof.
  intros [me v r s s' Hs|me v r s s' Hs|me v r s s' Hs|r s s' Hs|me n s s' Hs]
    Hinv.
  - by eapply ref_Add_invariant.
  - by eapply ref_Remove_invariant.
  - by rewrite (ref_Contains_frame _ _ _ _ _ Hs).
  - by rewrite (ref_Size_frame _ _ _ Hs).
  - by eapply ref_Resize_invariant.
Qed.

Lemma ref_make_invariant c : invariant hasher (make c).
Proof.
  unfold invariant, make, capacity. simpl.
  rewrite length_fresh_buckets, N2Nat.id, length_replicate.
  split_and!; [apply all_free_replicate|done..|lia|apply well_placed_fresh].
Qed.

Lemma ref_reachable_invariant st : reachable hasher st → invariant hasher st.
Proof.
  intros (c & Hsteps). pose proof (ref_make_invariant c) as Hinv.
  induction Hsteps; eauto using ref_step_invariant.
Qed.

Lemma ref_run_steps ops st st' :
  run hasher ops st = Some st' → rtc (step hasher) st st'.
Proof.
  revert st. induction ops as [|o ops IH]; intros st Hr; simplify_eq/=.
  - done.
  - destruct (exec hasher o st) as [st1|] eqn:He; simplify_eq/=.
    eapply rtc_l; [|by apply IH].
    destruct o; unfold exec in He.
    + destruct (Add _ _ _ _) as [[r s]|] eqn:Ho; simplify_eq/=.
      eapply step_Add, Ho.
    + destruct (Remove _ _ _ _) as [[r s]|] eqn:Ho; simplify_eq/=.
      eapply step_Remove, Ho.
    + destruct (Contains _ _ _ _) as [[r s]|] eqn:Ho; simplify_eq/=.
      eapply step_Contains, Ho.
    + destruct (Size st) as [[r s]|] eqn:Ho; simplify_eq/=.
      eapply step_Size, Ho.
Qed.

Lemma ref_Add_elem_of me elem r st st' :
  Add hasher me elem st = Some (r, st') →
  length (locks_ st) = length (buckets_ st) →
  elem ∈ concat (buckets_ st').
Proof.
  unfold Add. intros Ha Hlen.
  destruct (enter hasher me elem st) as [[[[cap i] b] st0]|] eqn:He; [|done].
  pose proof (ref_leave_enter _ _ _ _ _ _ _ He) as Hle.
  apply ref_enter_Some in He as (_ & Hi & Hb & Hst0 & Hul & _).
  simpl in Ha. destruct (find b elem) eqn:Hf.
  { injection Ha as _ <-. rewrite Hle. by eapply find_Some_elem_of_concat. }
  unfold leave, with_locks in Ha. simpl in Ha. rewrite Hul in Ha.
  rewrite Hst0 in Ha. simpl in Ha.
  pose proof (elem_of_insert_push_back _ _ _ elem Hb) as Hin.
  unfold Add_grow in Ha. destruct (_ && _); [|by injection Ha as _ <-].
  destruct (Resize _ _ _ _) as [st2|] eqn:Hr; [|done].
  injection Ha as _ <-.
  apply ref_Resize_Some in Hr as (_ & _ & _ & _ & _ & _ & Hp).
  simpl in Hp. rewrite Hp; [done|]. by rewrite length_insert.
Qed.

Lemma ref_Add_present me elem st :
  invariant hasher st → elem ∈ concat (buckets_ st) →
  Add hasher me elem st = Some (false, st).
Proof.
  intros Hinv Hin. unfold Add.
  destruct (ref_enter_total me elem st Hinv) as (i & b & st0 & He).
  rewrite He. simpl.
  pose proof (ref_leave_enter _ _ _ _ _ _ _ He) as Hle.
  apply ref_enter_Some in He as (_ & Hi & Hb & _).
  destruct Hinv as (_ & _ & _ & _ & _ & Hwp).
  destruct (well_placed_present hasher _ _ Hwp Hin)
    as (i' & b' & it & Hi' & Hb' & Hf).
  unfold capacity in Hi. rewrite Hi' in Hi. injection Hi as <-.
  rewrite Hb' in Hb. injection Hb as <-. by rewrite Hf, Hle.
Qed.

(** After a removal, the shrink test and its request. *)
Lemma ref_Remove_shrink_spec me used_cap st :
  Remove_shrink hasher me used_cap st =
    if negb (IsResizingByOther me st) && lf_lt (size_ st) used_cap
    then Resize hasher me (N.max kMinBuckets (used_cap / 2)) st
    else Some st.
Proof. done. Qed.

(** A successful removal erases the element under the bucket lock and
    then runs the shrink test against the capacity it worked under. *)
Lemma ref_Remove_true me elem st st' :
  Remove hasher me elem st = Some (true, st') →
  ∃ i b it,
    hash_mod hasher elem (capacity st) = Some i ∧
    buckets_ st !! N.to_nat i = Some b ∧ find b elem = Some it ∧
    Remove_shrink hasher me (capacity st)
      {| buckets_ := <[N.to_nat i := erase b it]> (buckets_ st);
         size_ := size_t_dec (size_ st);
         locks_ := locks_ st;
         resize_mutex_ := resize_mutex_ st;
         version_ := version_ st;
         resizing_ := resizing_ st;
         owner_tid_hash_ := owner_tid_hash_ st |} = Some st'.
Proof.
  unfold Remove. intros Ha.
  destruct (enter hasher me elem st) as [[[[cap i] b] st0]|] eqn:He; [|done].
  apply ref_enter_Some in He as (-> & Hi & Hb & Hst0 & Hul & _).
  simpl in Ha. destruct (find b elem) as [it|] eqn:Hf; [|done].
  unfold leave, with_locks in Ha. simpl in Ha. rewrite Hul in Ha.
  rewrite Hst0 in Ha. simpl in Ha.
  exists i, b, it. split_and!; try done.
  destruct (Remove_shrink _ _ _ _); [|done]. by injection Ha as <-.
Qed.

(** Add(v); Add(v): the second call finds v. *)
Lemma ref_Add_twice me me' elem r st st' :
  invariant hasher st → Add hasher me elem st = Some (r, st') →
  Add hasher me' elem st' = Some (false, st').
Proof.
  intros Hinv Ha. apply ref_Add_present.
  - by eapply ref_Add_invariant.
  - eapply ref_Add_elem_of; [done|]. by destruct Hinv as (_ & _ & _ & ? & _).
Qed.

Lemma ref_Contains_total me elem st :
  invariant hasher st → ∃ r, Contains hasher me elem st = Some (r, st).
Proof.
  intros Hinv. unfold Contains.
  destruct (ref_enter_total me elem st Hinv) as (i & b & st0 & He).
  rewrite He. simpl. rewrite (ref_leave_enter _ _ _ _ _ _ _ He). eauto.
Qed.

End Facts.
End RefinableFacts.

(** ** HashSetRefinable, all old locks held *)

Module RefinableSkeletonFacts.
Import RefinableSkeleton.
Section Facts.
Context {T : Type} `{EqDecision T}.
Variable hasher : T → N.
Implicit Types (st : state T) (v elem : T) (me : N).

Lemma skel_clamp_ge n : kMinBuckets ≤ N.max kMinBuckets (NormalizeCapacity n).
Proof. lia. Qed.

Lemma skel_Resize_Some me n st st' :
  Resize hasher me n st = Some st' →
  resize_mutex_ st' = Free ∧ size_ st' = size_ st ∧
  capacity st' = N.max kMinBuckets (NormalizeCapacity n) ∧
  (length (locks_ st) = length (buckets_ st) →
   length (locks_ st') = length (buckets_ st')) ∧
  (all_free (locks_ st) → all_free (locks_ st')) ∧
  (resizing_ st = false → resizing_ st' = false) ∧
  (well_placed hasher (buckets_ st) → well_placed hasher (buckets_ st')) ∧
  concat (buckets_ st') ≡ₚ concat (buckets_ st).
Proof.
  unfold Resize. intros Hr.
  destruct (lock (resize_mutex_ st)) as [rm|]; simplify_eq/=.
  destruct (N.eqb_spec (N.max kMinBuckets (NormalizeCapacity n)) (capacity st))
    as [Heq|Hne]; simplify_eq/=; [done|].
  destruct (lock_all (locks_ st)) as [held|]; simplify_eq/=.
  destruct (rehash_buckets _ _ _ _) as [nb|] eqn:Hnb; simplify_eq/=.
  apply rehash_fresh_Some in Hnb as (Hlen & Hwp & Hp).
  split_and!; try done.
  - unfold capacity. simpl. by rewrite Hlen, N2Nat.id.
  - intros _. by rewrite Hlen, length_replicate.
  - intros _. apply all_free_replicate.
Qed.

Lemma skel_Resize_total me n st :
  all_free (locks_ st) → resize_mutex_ st = Free →
  is_Some (Resize hasher me n st).
Proof.
  intros Hfree Hrm. unfold Resize. rewrite Hrm. simpl.
  destruct (N.eqb_spec (N.max kMinBuckets (NormalizeCapacity n)) (capacity st));
    [by eexists|].
  destruct (lock_all_free _ Hfree) as [held ->]. simpl.
  destruct (rehash_fresh_total hasher
              (N.max kMinBuckets (NormalizeCapacity n)) (buckets_ st))
    as [nb ->]; [|by eexists].
  pose proof (skel_clamp_ge n). unfold kMinBuckets in *. lia.
Qed.

Lemma skel_Resize_invariant me n st st' :
  Resize hasher me n st = Some st' → invariant hasher st → invariant hasher st'.
Proof.
  intros (Hrm & _ & Hcap & Hl & Hfree & Hrz & Hwp & _)%skel_Resize_Some
         (Hf & _ & Hz & Hlen & _ & Hw).
  unfold invariant. rewrite Hcap. split_and!; auto using skel_clamp_ge.
Qed.

Lemma skel_enter_Some elem st cap i b st0 :
  enter hasher elem st = Some (cap, i, b, st0) →
  cap = capacity st ∧
  hash_mod hasher elem (capacity st) = Some i ∧
  buckets_ st !! N.to_nat i = Some b ∧
  st0 = with_locks (locks_ st0) st ∧
  unlock_at (N.to_nat i) (locks_ st0) = locks_ st ∧
  resizing_ st = false.
Proof.
  unfold enter, WaitIfResizingByOther, Index. intros He.
  destruct (resizing_ st) eqn:Hrz; simplify_eq/=.
  destruct (hash_mod hasher elem (capacity st)) as [j|] eqn:Hi; simplify_eq/=.
  destruct (lock_at (N.to_nat j) (locks_ st)) as [held|] eqn:Hl; simplify_eq/=.
  destruct (negb _); simplify_eq/=.
  destruct (buckets_ st !! N.to_nat j) as [c|] eqn:Hb; simplify_eq/=.
  split_and!; try done. by apply lock_unlock_at.
Qed.

Lemma skel_leave_enter elem st cap i b st0 :
  enter hasher elem st = Some (cap, i, b, st0) → leave i st0 = st.
Proof.
  intros (_ & _ & _ & -> & Hul & _)%skel_enter_Some.
  unfold leave, with_locks in *. simpl in *. rewrite Hul. by destruct st.
Qed.

Lemma skel_enter_total elem st :
  invariant hasher st →
  ∃ i b st0, enter hasher elem st = Some (capacity st, i, b, st0).
Proof.
  intros (Hfree & _ & Hrz & Hlen & Hcap & _).
  unfold enter, WaitIfResizingByOther, Index. rewrite Hrz. simpl.
  assert (capacity st ≠ 0) as Hc by (unfold kMinBuckets in Hcap; lia).
  destruct (hash_mod hasher elem (capacity st)) as [i|] eqn:Hi;
    last by (unfold hash_mod in Hi; destruct (N.eqb_spec (capacity st) 0)).
  simpl.
  pose proof (hash_mod_lt _ _ _ _ Hi) as Hlt. unfold capacity in Hlt.
  rewrite Nat2N.id in Hlt.
  rewrite lock_at_free; [|done|lia]. simpl.
  rewrite N.eqb_refl. simpl.
  destruct (lookup_lt_is_Some_2 _ _ Hlt) as [b ->]. simpl. eauto.
Qed.

Lemma skel_Add_invariant me elem r st st' :
  Add hasher me elem st = Some (r, st') → invariant hasher st →
  invariant hasher st'.
Proof.
  unfold Add. intros Ha Hinv.
  destruct (enter hasher elem st) as [[[[cap i] b] st0]|] eqn:He; [|done].
  pose proof (skel_leave_enter _ _ _ _ _ _ He) as Hle.
  apply skel_enter_Some in He as (_ & Hi & Hb & Hst0 & Hul & _).
  simpl in Ha. destruct (find b elem).
  { injection Ha as _ <-. by rewrite Hle. }
  unfold leave, with_locks in Ha. simpl in Ha. rewrite Hul in Ha.
  rewrite Hst0 in Ha. simpl in Ha.
  destruct Hinv as (Hf & Hr & Hz & Hlen & Hcap & Hwp).
  match type of Ha with context [Add_grow _ _ _ ?s] => set (st1 := s) in * end.
  assert (invariant hasher st1) as Hinv1.
  { unfold invariant, capacity. simpl. rewrite length_insert.
    split_and!; try done.
    eapply well_placed_insert; [done..|].
    intros w [?| ->]%elem_of_push_back; [by left|right].
    apply hash_mod_Some in Hi as [_ ->]. done. }
  unfold Add_grow in Ha.
  destruct (_ && _).
  - destruct (Resize _ _ _ _) as [st2|] eqn:Hrs; [|done].
    injection Ha as _ <-. by eapply skel_Resize_invariant.
  - by injection Ha as _ <-.
Qed.

(** Remove touches one bucket and the size counter, nothing else. *)
Lemma skel_Remove_Some elem r st st' :
  Remove hasher elem st = Some (r, st') →
  ∃ i b,
    hash_mod hasher elem (capacity st) = Some i ∧
    buckets_ st !! N.to_nat i = Some b ∧
    match find b elem with
    | None => r = false ∧ st' = st
    | Some it =>
        r = true ∧
        st' = {| buckets_ := <[N.to_nat i := erase b it]> (buckets_ st);
                 size_ := size_t_dec (size_ st);
                 locks_ := locks_ st;
                 resize_mutex_ := resize_mutex_ st;
                 version_ := version_ st;
                 resizing_ := resizing_ st;
                 owner_tid_hash_ := owner_tid_hash_ st;
                 old_lock_arrays_ := old_lock_arrays_ st |}
    end.
Proof.
  unfold Remove. intros Ha.
  destruct (enter hasher elem st) as [[[[cap i] b] st0]|] eqn:He; [|done].
  pose proof (skel_leave_enter _ _ _ _ _ _ He) as Hle.
  apply skel_enter_Some in He as (_ & Hi & Hb & Hst0 & Hul & _).
  exists i, b. split_and!; try done.
  simpl in Ha. destruct (find b elem) as [it|].
  - unfold leave, with_locks in Ha. simpl in Ha. rewrite Hul in Ha.
    rewrite Hst0 in Ha. simpl in Ha. by injection Ha as <- <-.
  - injection Ha as <- <-. by rewrite Hle.
Qed.

Lemma skel_Remove_invariant elem r st st' :
  Remove hasher elem st = Some (r, st') → invariant hasher st →
  invariant hasher st'.
Proof.
  intros (i & b & Hi & Hb & Hr)%skel_Remove_Some Hinv.
  destruct (find b elem) as [it|]; destruct Hr as [_ ->]; [|done].
  destruct Hinv as (Hf & Hrm & Hz & Hlen & Hcap & Hwp).
  unfold invariant, capacity. simpl. rewrite length_insert.
  split_and!; try done.
  eapply well_placed_insert; [done..|].
  intros w Hw%elem_of_erase. by left.
Qed.

(** Remove never replaces the bucket array or the lock array. *)
Lemma skel_Remove_no_resize elem r st st' :
  Remove hasher elem st = Some (r, st') →
  capacity st' = capacity st ∧ locks_ st' = locks_ st ∧
  version_ st' = version_ st.
Proof.
  intros (i & b & Hi & Hb & Hr)%skel_Remove_Some.
  destruct (find b elem) as [it|]; destruct Hr as [_ ->]; [|done].
  unfold capacity. simpl. by rewrite length_insert.
Qed.

Lemma skel_Contains_frame elem r st st' :
  Contains hasher elem st = Some (r, st') → st' = st.
Proof.
  unfold Contains. intros Hc.
  destruct (enter hasher elem st) as [[[[cap i] b] st0]|] eqn:He; [|done].
  injection Hc as _ <-. by eapply skel_leave_enter.
Qed.

Lemma skel_Size_frame r st st' : Size st = Some (r, st') → st' = st.
Proof. unfold Size. by intros [= _ ->]. Qed.

Lemma skel_step_invariant st st' :
  step hasher st st' → invariant hasher st → invariant hasher st'.
Proof.
  intros [me v r s s' Hs|v r s s' Hs|v r s s' Hs|r s s' Hs|me n s s' Hs] Hinv.
  - by eapply skel_Add_invariant.
  - by eapply skel_Remove_invariant.
  - by rewrite (skel_Contains_frame _ _ _ _ Hs).
  - by rewrite (skel_Size_frame _ _ _ Hs).
  - by eapply skel_Resize_invariant.
Qed.

Lemma skel_make_invariant c : invariant hasher (make c).
Proof.
  unfold invariant, make, capacity. simpl.
  rewrite length_fresh_buckets, N2Nat.id, length_replicate.
  split_and!; [apply all_free_replicate|done..|lia|apply well_placed_fresh].
Qed.

Lemma skel_reachable_invariant st : reachable hasher st → invariant hasher st.
Proof.
  intros (c & Hsteps). pose proof (skel_make_invariant c) as Hinv.
  induction Hsteps; eauto using skel_step_invariant.
Qed.

Lemma skel_run_steps ops st st' :
  run hasher ops st = Some st' → rtc (step hasher) st st'.
Proof.
  revert st. induction ops as [|o ops IH]; intros st Hr; simplify_eq/=.
  - done.
  - destruct (exec hasher o st) as [st1|] eqn:He; simplify_eq/=.
    eapply rtc_l; [|by apply IH].
    destruct o; unfold exec in He.
    + destruct (Add _ _ _ _) as [[r s]|] eqn:Ho; simplify_eq/=.
      eapply step_Add, Ho.
    + destruct (Remove _ _ _) as [[r s]|] eqn:Ho; simplify_eq/=.
      eapply step_Remove, Ho.
    + destruct (Contains _ _ _) as [[r s]|] eqn:Ho; simplify_eq/=.
      eapply step_Contains, Ho.
    + destruct (Size st) as [[r s]|] eqn:Ho; simplify_eq/=.
      eapply step_Size, Ho.
Qed.

Lemma skel_Add_elem_of me elem r st st' :
  Add hasher me elem st = Some (r, st') → elem ∈ concat (buckets_ st').
Proof.
  unfold Add. intros Ha.
  destruct (enter hasher elem st) as [[[[cap i] b] st0]|] eqn:He; [|done].
  pose proof (skel_leave_enter _ _ _ _ _ _ He) as Hle.
  apply skel_enter_Some in He as (_ & Hi & Hb & Hst0 & Hul & _).
  simpl in Ha. destruct (find b elem) eqn:Hf.
  { injection Ha as _ <-. rewrite Hle. by eapply find_Some_elem_of_concat. }
  unfold leave, with_locks in Ha. simpl in Ha. rewrite Hul in Ha.
  rewrite Hst0 in Ha. simpl in Ha.
  pose proof (elem_of_insert_push_back _ _ _ elem Hb) as Hin.
  unfold Add_grow in Ha. destruct (_ && _); [|by injection Ha as _ <-].
  destruct (Resize _ _ _ _) as [st2|] eqn:Hr; [|done].
  injection Ha as _ <-.
  apply skel_Resize_Some in Hr as (_ & _ & _ & _ & _ & _ & _ & Hp).
  by rewrite Hp.
Qed.

Lemma skel_Add_present me elem st :
  invariant hasher st → elem ∈ concat (buckets_ st) →
  Add hasher me elem st = Some (false, st).
Proof.
  intros Hinv Hin. unfold Add.
  destruct (skel_enter_total elem st Hinv) as (i & b & st0 & He).
  rewrite He. simpl.
  pose proof (skel_leave_enter _ _ _ _ _ _ He) as Hle.
  apply skel_enter_Some in He as (_ & Hi & Hb & _).
  destruct Hinv as (_ & _ & _ & _ & _ & Hwp).
  destruct (well_placed_present hasher _ _ Hwp Hin)
    as (i' & b' & it & Hi' & Hb' & Hf).
  unfold capacity in Hi. rewrite Hi' in Hi. injection Hi as <-.
  rewrite Hb' in Hb. injection Hb as <-. by rewrite Hf, Hle.
Qed.

(** Add(v); Add(v): the second call finds v. *)
Lemma skel_Add_twice me me' elem r st st' :
  invariant hasher st → Add hasher me elem st = Some (r, st') →
  Add hasher me' elem st' = Some (false, st').
Proof.
  intros Hinv Ha. apply skel_Add_present.
  - by eapply skel_Add_invariant.
  - by eapply skel_Add_elem_of.
Qed.

Lemma skel_Contains_total elem st :
  invariant hasher st → ∃ r, Contains hasher elem st = Some (r, st).
Proof.
  intros Hinv. unfold Contains.
  destruct (skel_enter_total elem st Hinv) as (i & b & st0 & He).
  rewrite He. simpl. rewrite (skel_leave_enter _ _ _ _ _ _ He). eauto.
Qed.

End Facts.
End RefinableSkeletonFacts.

(** ** The scenarios are runs of the code *)

Lemma seq_two_reachable :
  Sequential.reachable Scenario.hasher Scenario.seq_two.
Proof.
  exists 4.
  by apply (SequentialFacts.seq_run_steps Scenario.hasher
              [Sequential.OpAdd 1; Sequential.OpAdd 6]).
Qed.

Lemma coarse_two_reachable :
  Coarse.reachable Scenario.hasher Scenario.coarse_two.
Proof.
  exists 4.
  by apply (CoarseFacts.coarse_run_steps Scenario.hasher
              [Coarse.OpAdd 1; Coarse.OpAdd 6]).
Qed.

Lemma striped_grown_steps :
  rtc (Striped.step Scenario.hasher) (Striped.make 4 8) Scenario.striped_grown.
Proof.
  by apply (StripedFacts.striped_run_steps Scenario.hasher
              Scenario.seventeen_adds).
Qed.

Lemma ref_two_reachable : Refinable.reachable Scenario.hasher Scenario.ref_two.
Proof.
  exists 4.
  by apply (RefinableFacts.ref_run_steps Scenario.hasher
              [Refinable.OpAdd Scenario.me 1; Refinable.OpAdd Scenario.me 6]).
Qed.

Lemma skel_two_reachable :
  RefinableSkeleton.reachable Scenario.hasher Scenario.skel_two.
Proof.
  exists 4.
  by apply (RefinableSkeletonFacts.skel_run_steps Scenario.hasher
              [RefinableSkeleton.OpAdd Scenario.me 1;
               RefinableSkeleton.OpAdd Scenario.me 6]).
Qed.

Lemma coarse_nothing_reachable :
  Coarse.reachable Scenario.hasher Scenario.coarse_nothing.
Proof.
  exists 4.
  by apply (CoarseFacts.coarse_run_steps Scenario.hasher
              Scenario.shrink_to_nothing).
Qed.

(** * The claims *)

(** C1. The claim: in the coarse-grained set a Remove that finds the load
    factor below 1.0 resizes to B/2 clamped at kMinBuckets = 4, so that
    B >= 4 after every completed operation.  The code passes
    [buckets_.size() / 2] to Resize unclamped: on a set constructed with
    capacity 4, Add(1) then Remove(1) leaves two buckets. *)
Theorem coarse_Remove_halves_below_kMinBuckets :
  Coarse.Add Scenario.hasher 1 (Coarse.make 4)
    = Some (true, Scenario.coarse_one) ∧
  Coarse.Remove Scenario.hasher 1 Scenario.coarse_one
    = Some (true, Scenario.coarse_shrunk) ∧
  Coarse.capacity Scenario.coarse_shrunk = 2 ∧
  Coarse.capacity Scenario.coarse_shrunk < Coarse.kMinBuckets.
Proof. by split_and!. Qed.

(** C2. The claim: in the Refinable set a successful Remove that finds
    the load factor below 1.0 (against the capacity it worked under) while
    no resize is in progress calls Resize(max(kMinBuckets, B/2)).  In the
    draft that holds all old locks Remove returns right after the loop:
    with capacity 8, Add(1) then Remove(1) gives back the set as
    constructed, eight buckets, although the load factor is 0 and nobody
    resizes.  The other draft shrinks to four buckets on the same calls. *)
Theorem skeleton_Remove_does_not_shrink :
  RefinableSkeleton.Add Scenario.hasher Scenario.me 1 (RefinableSkeleton.make 8)
    = Some (true, Scenario.skel_eight_one) ∧
  RefinableSkeleton.Remove Scenario.hasher 1 Scenario.skel_eight_one
    = Some (true, RefinableSkeleton.make 8) ∧
  lf_lt (RefinableSkeleton.size_ (T:=N) (RefinableSkeleton.make 8))
        (RefinableSkeleton.capacity Scenario.skel_eight_one) = true ∧
  RefinableSkeleton.resizing_ (T:=N) (RefinableSkeleton.make 8) = false ∧
  RefinableSkeleton.capacity (T:=N) (RefinableSkeleton.make 8) = 8 ∧
  Refinable.Add Scenario.hasher Scenario.me 1 (Refinable.make 8)
    = Some (true, Scenario.ref_eight_one) ∧
  Refinable.Remove Scenario.hasher Scenario.me 1 Scenario.ref_eight_one
    = Some (true, Scenario.ref_eight_shrunk) ∧
  Refinable.capacity Scenario.ref_eight_shrunk = 4.
Proof. by split_and!. Qed.

(** C3, as stated: NormalizeCapacity(c) = max(c, kMinBuckets) and
    NormalizeCapacity(c) >= 4 for every c.  Both fail at c = 1. *)
Lemma NormalizeCapacity_of_one :
  Sequential.NormalizeCapacity 1 ≠ N.max 1 Sequential.kMinBuckets ∧
  ¬ (4 ≤ Sequential.NormalizeCapacity 1) ∧
  Refinable.NormalizeCapacity 1 ≠ N.max 1 Refinable.kMinBuckets ∧
  ¬ (4 ≤ Refinable.NormalizeCapacity 1).
Proof. split_and!; by vm_compute. Qed.

(** C3, amended: NormalizeCapacity(c) is kMinBuckets = 4 for c = 0 and c
    itself otherwise, hence NormalizeCapacity(0) = 4 and
    NormalizeCapacity(c) >= 1; the value its callers use,
    max(NormalizeCapacity(c), kMinBuckets), is max(c, kMinBuckets).  The
    five classes carry the same helper. *)
Theorem NormalizeCapacity_spec (c : N) :
  Sequential.NormalizeCapacity c
    = (if decide (c = 0) then Sequential.kMinBuckets else c) ∧
  Sequential.kMinBuckets = 4 ∧
  Sequential.NormalizeCapacity 0 = 4 ∧
  1 ≤ Sequential.NormalizeCapacity c ∧
  N.max (Sequential.NormalizeCapacity c) Sequential.kMinBuckets = N.max c 4 ∧
  Coarse.NormalizeCapacity c = Sequential.NormalizeCapacity c ∧
  Striped.NormalizeCapacity c = Sequential.NormalizeCapacity c ∧
  Refinable.NormalizeCapacity c = Sequential.NormalizeCapacity c ∧
  RefinableSkeleton.NormalizeCapacity c = Sequential.NormalizeCapacity c.
Proof.
  unfold Sequential.NormalizeCapacity, Sequential.kMinBuckets.
  split_and!; try done.
  - destruct (N.eqb_spec c 0); by case_decide.
  - destruct (N.eqb_spec c 0); lia.
  - destruct (N.eqb_spec c 0); lia.
Qed.

(** C8. Every constructor allocates max(initial_capacity, kMinBuckets)
    buckets: capacities below 4, 0 included, become 4, and capacities of 4
    or more are used as given. *)
Theorem constructor_capacity (T : Type) (initial_capacity stripes : N) :
  Sequential.capacity (T:=T) (Sequential.make initial_capacity)
    = N.max initial_capacity 4 ∧
  Coarse.capacity (T:=T) (Coarse.make initial_capacity)
    = N.max initial_capacity 4 ∧
  Striped.capacity (T:=T) (Striped.make initial_capacity stripes)
    = N.max initial_capacity 4 ∧
  Refinable.capacity (T:=T) (Refinable.make initial_capacity)
    = N.max initial_capacity 4 ∧
  RefinableSkeleton.capacity (T:=T) (RefinableSkeleton.make initial_capacity)
    = N.max initial_capacity 4.
Proof.
  unfold Sequential.capacity, Coarse.capacity, Striped.capacity,
    Refinable.capacity, RefinableSkeleton.capacity. simpl.
  rewrite !length_fresh_buckets, !N2Nat.id.
  unfold Sequential.NormalizeCapacity, Coarse.NormalizeCapacity,
    Striped.NormalizeCapacity, Refinable.NormalizeCapacity,
    RefinableSkeleton.NormalizeCapacity,
    Sequential.kMinBuckets, Coarse.kMinBuckets, Striped.kMinBuckets,
    Refinable.kMinBuckets, RefinableSkeleton.kMinBuckets.
  destruct (N.eqb_spec initial_capacity 0); split_and!; lia.
Qed.

(** C10. The claim: in the coarse-grained set the bucket count stays
    nonzero, so the modulo in Index is always defined.  The unclamped
    halving of Remove takes a set of capacity 4 through 2 and 1 to no
    bucket at all; from then on Index has no value and Add, Remove and
    Contains do not return one. *)
Theorem coarse_bucket_count_reaches_zero :
  Coarse.run Scenario.hasher Scenario.shrink_to_nothing (Coarse.make 4)
    = Some Scenario.coarse_nothing ∧
  Coarse.reachable Scenario.hasher Scenario.coarse_nothing ∧
  Coarse.capacity Scenario.coarse_nothing = 0 ∧
  Coarse.Index Scenario.hasher Scenario.coarse_nothing 1 = None ∧
  Coarse.Add Scenario.hasher 1 Scenario.coarse_nothing = None ∧
  Coarse.Remove Scenario.hasher 1 Scenario.coarse_nothing = None ∧
  Coarse.Contains Scenario.hasher 1 Scenario.coarse_nothing = None.
Proof. split_and!; try done. apply coarse_nothing_reachable. Qed.

(** C4. In both drafts of the Refinable set the lock array has one mutex
    per bucket: after construction with any capacity; after every completed
    Resize, which leaves both arrays with the normalized requested capacity;
    and so in every state a sequence of calls reaches, where moreover every
    Resize completes. *)
Theorem refinable_one_lock_per_bucket {T : Type} `{EqDecision T}
    (hasher : T → N) :
  (∀ c, length (Refinable.locks_ (T:=T) (Refinable.make c))
        = length (Refinable.buckets_ (T:=T) (Refinable.make c))) ∧
  (∀ me n st st',
     Refinable.Resize hasher me n st = Some st' →
     length (Refinable.locks_ st) = length (Refinable.buckets_ st) →
     length (Refinable.locks_ st') = length (Refinable.buckets_ st') ∧
     Refinable.capacity st'
       = N.max Refinable.kMinBuckets (Refinable.NormalizeCapacity n)) ∧
  (∀ st, Refinable.reachable hasher st →
     length (Refinable.locks_ st) = length (Refinable.buckets_ st) ∧
     ∀ me n, is_Some (Refinable.Resize hasher me n st)) ∧
  (∀ c, length (RefinableSkeleton.locks_ (T:=T) (RefinableSkeleton.make c))
        = length (RefinableSkeleton.buckets_ (T:=T) (RefinableSkeleton.make c))) ∧
  (∀ me n st st',
     RefinableSkeleton.Resize hasher me n st = Some st' →
     length (RefinableSkeleton.locks_ st)
       = length (RefinableSkeleton.buckets_ st) →
     length (RefinableSkeleton.locks_ st')
       = length (RefinableSkeleton.buckets_ st') ∧
     RefinableSkeleton.capacity st'
       = N.max RefinableSkeleton.kMinBuckets
           (RefinableSkeleton.NormalizeCapacity n)) ∧
  (∀ st, RefinableSkeleton.reachable hasher st →
     length (RefinableSkeleton.locks_ st)
       = length (RefinableSkeleton.buckets_ st) ∧
     ∀ me n, is_Some (RefinableSkeleton.Resize hasher me n st)).
Proof.
  split_and!.
  - intros c. simpl. by rewrite length_replicate.
  - intros me n st st' Hr Hlen.
    apply RefinableFacts.ref_Resize_Some in Hr as (_ & _ & Hc & _).
    destruct (Hc Hlen). done.
  - intros st Hst.
    apply RefinableFacts.ref_reachable_invariant in Hst
      as (Hf & Hrm & _ & Hlen & _).
    split; [done|]. intros me n. by apply RefinableFacts.ref_Resize_total.
  - intros c. simpl. by rewrite length_replicate.
  - intros me n st st' Hr Hlen.
    apply RefinableSkeletonFacts.skel_Resize_Some in Hr as (_ & _ & Hc & Hl & _).
    split; [by apply Hl|done].
  - intros st Hst.
    apply RefinableSkeletonFacts.skel_reachable_invariant in Hst
      as (Hf & Hrm & _ & Hlen & _).
    split; [done|]. intros me n. by apply RefinableSkeletonFacts.skel_Resize_total.
Qed.

Lemma refinable_one_lock_per_bucket_witness :
  (∃ st', Refinable.Resize Scenario.hasher Scenario.me 9 Scenario.ref_two
            = Some st' ∧
          length (Refinable.locks_ st') = 9%nat ∧
          length (Refinable.buckets_ st') = 9%nat) ∧
  length (Refinable.locks_ Scenario.ref_two)
    = length (Refinable.buckets_ Scenario.ref_two) ∧
  (∃ st', RefinableSkeleton.Resize Scenario.hasher Scenario.me 9
            Scenario.skel_two = Some st' ∧
          length (RefinableSkeleton.locks_ st') = 9%nat ∧
          length (RefinableSkeleton.buckets_ st') = 9%nat) ∧
  length (RefinableSkeleton.locks_ Scenario.skel_two)
    = length (RefinableSkeleton.buckets_ Scenario.skel_two).
Proof.
  destruct (refinable_one_lock_per_bucket Scenario.hasher)
    as (_ & Hr & Hs & _ & Hr' & Hs').
  split_and!.
  - eexists. split; [reflexivity|].
    destruct (Hr Scenario.me 9 Scenario.ref_two _ eq_refl eq_refl) as [Hl _].
    split; [exact Hl | reflexivity].
  - exact (proj1 (Hs _ ref_two_reachable)).
  - eexists. split; [reflexivity|].
    destruct (Hr' Scenario.me 9 Scenario.skel_two _ eq_refl eq_refl) as [Hl _].
    split; [exact Hl | reflexivity].
  - exact (proj1 (Hs' _ skel_two_reachable)).
Defined.

(** C5. The striped set keeps the lock array it was constructed with: its
    length is the requested stripe count, 64 when 0 was requested, after
    construction and after every sequence of Add, Remove, Contains, Size
    and Resize; Resize replaces the bucket array only. *)
Theorem striped_lock_array_constant {T : Type} `{EqDecision T}
    (hasher : T → N) (c s : N) :
  length (Striped.locks_ (T:=T) (Striped.make c s))
    = N.to_nat (if s =? 0 then 64 else s) ∧
  (∀ st, rtc (Striped.step hasher) (Striped.make c s) st →
     length (Striped.locks_ st) = N.to_nat (if s =? 0 then 64 else s)) ∧
  (∀ n st st', Striped.Resize hasher n st = Some st' →
     Striped.locks_ st' = Striped.locks_ st).
Proof.
  assert (length (Striped.locks_ (T:=T) (Striped.make c s))
          = N.to_nat (if s =? 0 then 64 else s)) as Hmake
    by (simpl; apply length_replicate).
  split_and!.
  - done.
  - intros st Hsteps. rewrite <- Hmake. clear Hmake.
    induction Hsteps as [|st0 st1 st2 Hstep _ IH]; [done|].
    rewrite IH. apply (StripedFacts.striped_step_locks hasher _ _ Hstep).
  - intros n st st' Hr. by apply StripedFacts.striped_Resize_Some in Hr as (-> & _).
Qed.

Lemma striped_lock_array_constant_witness :
  Striped.capacity Scenario.striped_grown = 8 ∧
  length (Striped.locks_ Scenario.striped_grown) = 8%nat.
Proof.
  split; [reflexivity|].
  exact (proj1 (proj2 (striped_lock_array_constant Scenario.hasher 4 8))
           Scenario.striped_grown striped_grown_steps).
Defined.

(** C6. Sequential Resize(new_cap), for new_cap >= 1, returns with the
    size counter unchanged and the same elements (with multiplicity) in a
    bucket array of exactly new_cap buckets, where bucket i holds only
    elements v with hash(v) mod new_cap = i, so every stored element v is
    in bucket hash(v) mod new_cap. *)
Theorem sequential_Resize_rehashes {T : Type} `{EqDecision T}
    (hasher : T → N) (new_cap : N) (st : Sequential.state T) :
  1 ≤ new_cap →
  ∃ st',
    Sequential.Resize hasher new_cap st = Some st' ∧
    Sequential.size_ st' = Sequential.size_ st ∧
    concat (Sequential.buckets_ st') ≡ₚ concat (Sequential.buckets_ st) ∧
    length (Sequential.buckets_ st') = N.to_nat new_cap ∧
    (∀ i b v, Sequential.buckets_ st' !! i = Some b → v ∈ b →
       N.to_nat (hasher v mod new_cap) = i) ∧
    (∀ v, v ∈ concat (Sequential.buckets_ st) →
       ∃ b, Sequential.buckets_ st' !! N.to_nat (hasher v mod new_cap) = Some b
            ∧ v ∈ b).
Proof.
  intros Hcap.
  destruct (SequentialFacts.seq_Resize_total hasher new_cap st) as [st' Hr]; [lia|].
  exists st'. split; [done|].
  apply SequentialFacts.seq_Resize_Some in Hr as (Hsz & Hlen & Hwp & Hp).
  assert (∀ i b v, Sequential.buckets_ st' !! i = Some b → v ∈ b →
            N.to_nat (hasher v mod new_cap) = i) as Hplaced.
  { intros i b v Hi Hv. specialize (Hwp i b v Hi Hv).
    by rewrite Hlen, N2Nat.id in Hwp. }
  split_and!; try done.
  intros v Hv. rewrite <- Hp in Hv.
  apply elem_of_concat_lookup in Hv as (i & b & Hi & Hb).
  exists b. by rewrite (Hplaced i b v Hi Hb).
Qed.

Lemma sequential_Resize_rehashes_witness :
  ∃ st',
    Sequential.Resize Scenario.hasher 3 Scenario.seq_five = Some st' ∧
    Sequential.size_ st' = 5 ∧
    length (Sequential.buckets_ st') = 3%nat ∧
    ∃ b, Sequential.buckets_ st' !! 2%nat = Some b ∧ 8 ∈ b.
Proof.
  destruct (sequential_Resize_rehashes Scenario.hasher 3 Scenario.seq_five)
    as (st' & Hr & Hsz & _ & Hlen & _ & Hin).
  - by vm_compute.
  - exists st'. split_and!; [exact Hr|exact Hsz|exact Hlen|].
    apply (Hin 8). simpl. right. left.
Defined.

(** C7. In every variant, in every state a sequence of calls reaches, Add
    of a stored element returns false and leaves the whole state, buckets
    and size counter included, as it was; in particular the second of two
    consecutive Add(v) returns false and changes nothing. *)
Theorem Add_of_stored_element {T : Type} `{EqDecision T} (hasher : T → N) :
  (∀ st v, Sequential.reachable hasher st →
     v ∈ concat (Sequential.buckets_ st) →
     Sequential.Add hasher v st = Some (false, st)) ∧
  (∀ st v r st1, Sequential.reachable hasher st →
     Sequential.Add hasher v st = Some (r, st1) →
     Sequential.Add hasher v st1 = Some (false, st1)) ∧
  (∀ st v, Coarse.reachable hasher st →
     v ∈ concat (Coarse.buckets_ st) →
     Coarse.Add hasher v st = Some (false, st)) ∧
  (∀ st v r st1, Coarse.reachable hasher st →
     Coarse.Add hasher v st = Some (r, st1) →
     Coarse.Add hasher v st1 = Some (false, st1)) ∧
  (∀ st v, Striped.reachable hasher st →
     v ∈ concat (Striped.buckets_ st) →
     Striped.Add hasher v st = Some (false, st)) ∧
  (∀ st v r st1, Striped.reachable hasher st →
     Striped.Add hasher v st = Some (r, st1) →
     Striped.Add hasher v st1 = Some (false, st1)) ∧
  (∀ st me v, Refinable.reachable hasher st →
     v ∈ concat (Refinable.buckets_ st) →
     Refinable.Add hasher me v st = Some (false, st)) ∧
  (∀ st me me' v r st1, Refinable.reachable hasher st →
     Refinable.Add hasher me v st = Some (r, st1) →
     Refinable.Add hasher me' v st1 = Some (false, st1)) ∧
  (∀ st me v, RefinableSkeleton.reachable hasher st →
     v ∈ concat (RefinableSkeleton.buckets_ st) →
     RefinableSkeleton.Add hasher me v st = Some (false, st)) ∧
  (∀ st me me' v r st1, RefinableSkeleton.reachable hasher st →
     RefinableSkeleton.Add hasher me v st = Some (r, st1) →
     RefinableSkeleton.Add hasher me' v st1 = Some (false, st1)).
Proof.
  split_and!.
  - intros st v Hst%SequentialFacts.seq_reachable_invariant Hv.
    by apply SequentialFacts.seq_Add_present.
  - intros st v r st1 Hst%SequentialFacts.seq_reachable_invariant Ha.
    by eapply SequentialFacts.seq_Add_twice.
  - intros st v Hst%CoarseFacts.coarse_reachable_invariant Hv.
    by apply CoarseFacts.coarse_Add_present.
  - intros st v r st1 Hst%CoarseFacts.coarse_reachable_invariant Ha.
    by eapply CoarseFacts.coarse_Add_twice.
  - intros st v Hst%StripedFacts.striped_reachable_invariant Hv.
    by apply StripedFacts.striped_Add_present.
  - intros st v r st1 Hst%StripedFacts.striped_reachable_invariant Ha.
    by eapply StripedFacts.striped_Add_twice.
  - intros st me v Hst%RefinableFacts.ref_reachable_invariant Hv.
    by apply RefinableFacts.ref_Add_present.
  - intros st me me' v r st1 Hst%RefinableFacts.ref_reachable_invariant Ha.
    by eapply RefinableFacts.ref_Add_twice.
  - intros st me v Hst%RefinableSkeletonFacts.skel_reachable_invariant Hv.
    by apply RefinableSkeletonFacts.skel_Add_present.
  - intros st me me' v r st1 Hst%RefinableSkeletonFacts.skel_reachable_invariant Ha.
    by eapply RefinableSkeletonFacts.skel_Add_twice.
Qed.

Lemma Add_of_stored_element_witness :
  Sequential.Add Scenario.hasher 6 Scenario.seq_two
    = Some (false, Scenario.seq_two) ∧
  Coarse.Add Scenario.hasher 6 Scenario.coarse_two
    = Some (false, Scenario.coarse_two) ∧
  Striped.Add Scenario.hasher 9 Scenario.striped_grown
    = Some (false, Scenario.striped_grown) ∧
  Refinable.Add Scenario.hasher Scenario.me 6 Scenario.ref_two
    = Some (false, Scenario.ref_two) ∧
  RefinableSkeleton.Add Scenario.hasher Scenario.me 6 Scenario.skel_two
    = Some (false, Scenario.skel_two).
Proof.
  destruct (Add_of_stored_element Scenario.hasher)
    as (Hseq & _ & Hcoarse & _ & Hstriped & _ & Href & _ & Hskel & _).
  split_and!.
  - apply Hseq; [exact seq_two_reachable|]. simpl. right. left.
  - apply Hcoarse; [exact coarse_two_reachable|]. simpl. right. left.
  - apply Hstriped; [exact (ex_intro _ 4 (ex_intro _ 8 striped_grown_steps))|].
    simpl. do 3 right. left.
  - apply Href; [exact ref_two_reachable|]. simpl. right. left.
  - apply Hskel; [exact skel_two_reachable|]. simpl. right. left.
Defined.

(** C9. The claim: in every variant and every reachable state Contains
    and Size are read-only.  In the coarse-grained set the unclamped
    halving of Remove (the defect of C1 and C10) reaches a state without
    buckets; there Contains takes [hasher_(elem) % buckets_.size()] with
    no bucket, a modulo by zero, for every argument: the call has no
    defined outcome and leaves no state to compare.  Size, which does not
    index the table, still returns there. *)
Theorem coarse_Contains_undefined_without_buckets :
  Coarse.run Scenario.hasher Scenario.shrink_to_nothing (Coarse.make 4)
    = Some Scenario.coarse_nothing ∧
  Coarse.reachable Scenario.hasher Scenario.coarse_nothing ∧
  (∀ v, Coarse.Contains Scenario.hasher v Scenario.coarse_nothing = None) ∧
  Coarse.Size Scenario.coarse_nothing = Some (0, Scenario.coarse_nothing).
Proof.
  split_and!; [done|apply coarse_nothing_reachable| |done].
  intros v. reflexivity.
Qed.

(** * More on the code *)

(** ** Chains and counters *)

Lemma size_t_inc_wrap n : size_t_inc (wrap n) = wrap (n + 1).
Proof.
  unfold size_t_inc, wrap. by rewrite N.Div0.add_mod_idemp_l.
Qed.

Lemma size_t_dec_wrap n : size_t_dec (wrap (n + 1)) = wrap n.
Proof.
  unfold size_t_dec, wrap. rewrite N.Div0.add_mod_idemp_l.
  replace (n + 1 + (size_t_modulus - 1)) with (n + 1 * size_t_modulus)
    by (unfold size_t_modulus; lia).
  by rewrite N.Div0.mod_add.
Qed.

Section MoreChainFacts.
Context {T : Type} `{EqDecision T}.
Variable hasher : T → N.
Implicit Types (b : list T) (bs : list (list T)) (v elem : T).

(** Erasing the element an iterator points to takes one occurrence out of
    the table. *)
Lemma concat_insert_erase bs i b it v :
  bs !! i = Some b → b !! it = Some v →
  concat bs ≡ₚ v :: concat (<[i := erase b it]> bs).
Proof.
  intros Hi Hit. destruct (concat_insert bs i b (erase b it) Hi) as [-> ->].
  unfold erase. rewrite (delete_Permutation b it v Hit) at 1.
  simpl. by rewrite <- Permutation_middle.
Qed.

(** An element that is not in the bucket its hash selects is in no
    bucket. *)
Lemma well_placed_absent bs v i b :
  well_placed hasher bs →
  hash_mod hasher v (N.of_nat (length bs)) = Some i →
  bs !! N.to_nat i = Some b → find b v = None → v ∉ concat bs.
Proof.
  intros Hwp [_ ->]%hash_mod_Some Hb Hf%find_None
    (j & c & Hj & Hv)%elem_of_concat_lookup.
  rewrite (Hwp j c v Hj Hv) in Hb. by simplify_eq.
Qed.

Lemma not_end_find b v : not_end (find b v) = bool_decide (v ∈ b).
Proof.
  destruct (find b v) as [it|] eqn:Hf; simpl.
  - rewrite bool_decide_eq_true_2; [done|]. apply (find_Some hasher) in Hf.
    eapply list_elem_of_lookup_2, Hf.
  - rewrite bool_decide_eq_false_2; [done|]. by apply find_None.
Qed.

Lemma counted_fresh n : counted (fresh_buckets (T:=T) n) 0.
Proof.
  unfold counted. rewrite concat_fresh_buckets. split; [constructor|done].
Qed.

Lemma counted_perm bs bs' n :
  concat bs' ≡ₚ concat bs → counted bs n → counted bs' n.
Proof. unfold counted. by intros ->. Qed.

Lemma counted_add bs bs' n v :
  counted bs n → v ∉ concat bs → concat bs' ≡ₚ v :: concat bs →
  counted bs' (size_t_inc n).
Proof.
  unfold counted. intros [Hnd ->] Hv Hp. rewrite Hp. split.
  - by apply NoDup_cons.
  - rewrite size_t_inc_wrap. simpl. f_equal. lia.
Qed.

Lemma counted_remove bs bs' n v :
  counted bs n → concat bs ≡ₚ v :: concat bs' →
  counted bs' (size_t_dec n) ∧ v ∉ concat bs'.
Proof.
  unfold counted. intros [Hnd ->] Hp. rewrite Hp in Hnd |- *.
  apply NoDup_cons in Hnd as [Hv Hnd]. split_and!; [done| |done].
  simpl. replace (N.of_nat (S (length (concat bs'))))
    with (N.of_nat (length (concat bs')) + 1) by lia.
  by rewrite size_t_dec_wrap.
Qed.

(** With no bucket to move to, the rehash loops get through exactly when
    there is nothing to move. *)
Lemma rehash_buckets_zero bs nb :
  rehash_buckets hasher 0 bs nb
    = if decide (concat bs = []) then Some nb else None.
Proof.
  induction bs as [|bucket rest IH]; simpl; [done|].
  destruct bucket as [|v bucket]; simpl; [done|].
  by case_decide.
Qed.

End MoreChainFacts.

(** ** HashSetSequential as a set *)

Module SequentialSet.
Import Sequential.
Section Facts.
Context {T : Type} `{EqDecision T}.
Variable hasher : T → N.
Implicit Types (st : state T) (v elem : T).

(** What a returning Add did. *)
Lemma seq_Add_cases elem r st st' :
  invariant hasher st → Add hasher elem st = Some (r, st') →
  (r = false ∧ st' = st ∧ elem ∈ concat (buckets_ st)) ∨
  (r = true ∧ (elem ∉ concat (buckets_ st)) ∧
   concat (buckets_ st') ≡ₚ elem :: concat (buckets_ st) ∧
   size_ st' = size_t_inc (size_ st)).
Proof.
  unfold Add, Index, capacity. intros [_ Hwp] Ha.
  destruct (hash_mod hasher elem _) as [i|] eqn:Hi; simplify_eq/=.
  destruct (buckets_ st !! N.to_nat i) as [b|] eqn:Hb; simplify_eq/=.
  destruct (find b elem) as [it|] eqn:Hf.
  { left. injection Ha as <- <-. split_and!; [done..|].
    by eapply find_Some_elem_of_concat. }
  right. pose proof (well_placed_absent hasher _ _ _ _ Hwp Hi Hb Hf) as Hno.
  pose proof (concat_insert_push_back _ _ _ elem Hb) as Hp.
  destruct (lf_gt _ _); simplify_eq/=; [|done].
  destruct (Resize _ _ _) as [st2|] eqn:Hr; simplify_eq/=.
  apply SequentialFacts.seq_Resize_Some in Hr as (Hsz & _ & _ & Hp2).
  split_and!; [done..| |done]. by rewrite Hp2.
Qed.

(** What a returning Remove did. *)
Lemma seq_Remove_cases elem r st st' :
  invariant hasher st → Remove hasher elem st = Some (r, st') →
  (r = false ∧ st' = st ∧ elem ∉ concat (buckets_ st)) ∨
  (r = true ∧ concat (buckets_ st) ≡ₚ elem :: concat (buckets_ st') ∧
   size_ st' = size_t_dec (size_ st)).
Proof.
  unfold Remove, Index, capacity. intros [_ Hwp] Ha.
  destruct (hash_mod hasher elem _) as [i|] eqn:Hi; simplify_eq/=.
  destruct (buckets_ st !! N.to_nat i) as [b|] eqn:Hb; simplify_eq/=.
  destruct (find b elem) as [it|] eqn:Hf; injection Ha as <- <-.
  - right. split_and!; [done| |done]. simpl.
    apply concat_insert_erase; [done|]. by apply (find_Some hasher).
  - left. split_and!; [done..|].
    by eapply well_placed_absent.
Qed.

Lemma seq_Add_total elem st :
  invariant hasher st → is_Some (Add hasher elem st).
Proof.
  intros [Hcap Hwp]. unfold Add, Index.
  assert (capacity st ≠ 0) as Hc by (unfold kMinBuckets in Hcap; lia).
  destruct (hash_mod hasher elem (capacity st)) as [i|] eqn:Hi;
    last by (unfold hash_mod in Hi; destruct (N.eqb_spec (capacity st) 0)).
  simpl. pose proof (hash_mod_lt _ _ _ _ Hi) as Hlt. unfold capacity in Hlt.
  rewrite Nat2N.id in Hlt.
  destruct (lookup_lt_is_Some_2 _ _ Hlt) as [b ->]. simpl.
  destruct (find b elem); [by eexists|].
  unfold capacity in *. simpl. rewrite length_insert.
  destruct (lf_gt _ _) eqn:Hlf; [|by eexists].
  unfold size_t_inc in Hlf.
  rewrite (double_no_wrap _ (N.of_nat (length (buckets_ st))) Hc Hlf).
  match goal with |- is_Some (?r ≫= _) => destruct r as [st2|] eqn:Hr end;
    [by eexists|].
  destruct (SequentialFacts.seq_Resize_total hasher
              (N.of_nat (length (buckets_ st)) * 2)
              {| buckets_ := <[N.to_nat i := push_back b elem]> (buckets_ st);
                 size_ := wrap (size_ st + 1) |}) as [st2 Hst2]; [lia|].
  unfold size_t_inc in Hr. congruence.
Qed.

Lemma seq_Remove_total elem st :
  invariant hasher st → is_Some (Remove hasher elem st).
Proof.
  intros [Hcap Hwp]. unfold Remove, Index.
  assert (capacity st ≠ 0) as Hc by (unfold kMinBuckets in Hcap; lia).
  destruct (hash_mod hasher elem (capacity st)) as [i|] eqn:Hi;
    last by (unfold hash_mod in Hi; destruct (N.eqb_spec (capacity st) 0)).
  simpl. pose proof (hash_mod_lt _ _ _ _ Hi) as Hlt. unfold capacity in Hlt.
  rewrite Nat2N.id in Hlt.
  destruct (lookup_lt_is_Some_2 _ _ Hlt) as [b ->]. simpl.
  destruct (find b elem); by eexists.
Qed.

(** Contains answers membership in the stored elements. *)
Lemma seq_Contains_member elem st :
  invariant hasher st →
  Contains hasher elem st
    = Some (bool_decide (elem ∈ concat (buckets_ st)), st).
Proof.
  intros Hinv.
  destruct (SequentialFacts.seq_Contains_total hasher elem st Hinv) as [r Hc].
  rewrite Hc. do 2 f_equal.
  unfold Contains, Index, capacity in Hc. destruct Hinv as [_ Hwp].
  destruct (hash_mod hasher elem _) as [i|] eqn:Hi; simplify_eq/=.
  destruct (buckets_ st !! N.to_nat i) as [b|] eqn:Hb; simplify_eq/=.
  destruct (find b elem) as [it|] eqn:Hf; simpl; symmetry.
  - apply bool_decide_eq_true. by eapply find_Some_elem_of_concat.
  - apply bool_decide_eq_false. by eapply well_placed_absent.
Qed.

(** The capacity after Add: unchanged, or doubled without wrap-around. *)
Lemma seq_Add_capacity elem r st st' :
  invariant hasher st → Add hasher elem st = Some (r, st') →
  capacity st' = capacity st ∨
  (capacity st' = 2 * capacity st ∧ 4 * capacity st < size_ st').
Proof.
  unfold Add, Index. intros [Hcap Hwp] Ha.
  destruct (hash_mod hasher elem (capacity st)) as [i|] eqn:Hi; simplify_eq/=.
  destruct (buckets_ st !! N.to_nat i) as [b|] eqn:Hb; simplify_eq/=.
  destruct (find b elem); simplify_eq/=; [by left|].
  unfold capacity in *. simpl in *. rewrite length_insert in Ha.
  destruct (lf_gt _ _) eqn:Hlf; simplify_eq/=;
    [|left; by rewrite length_insert].
  destruct (Resize _ _ _) as [st2|] eqn:Hr; simplify_eq/=.
  apply SequentialFacts.seq_Resize_Some in Hr as (Hsz & Hlen & _ & _).
  right. rewrite Hlen, N2Nat.id, Hsz. simpl. unfold kMinBuckets in *.
  unfold size_t_inc in *.
  rewrite (double_no_wrap _ (N.of_nat (length (buckets_ st))) ltac:(lia) Hlf).
  apply lf_gt_spec in Hlf; lia.
Qed.

(** No call shrinks the table. *)
Lemma seq_step_capacity st st' :
  step hasher st st' → invariant hasher st →
  capacity st' = capacity st ∨ capacity st' = 2 * capacity st.
Proof.
  intros [v r s s' Hs|v r s s' Hs|v r s s' Hs|r s s' Hs] Hinv.
  - destruct (seq_Add_capacity _ _ _ _ Hinv Hs) as [?|[? _]]; auto.
  - left. unfold Remove in Hs.
    destruct (Index hasher s v); simplify_eq/=.
    destruct (buckets_ s !! _); simplify_eq/=.
    destruct (find _ _); simplify_eq/=; [|done].
    unfold capacity. simpl. by rewrite length_insert.
  - left. by rewrite (SequentialFacts.seq_Contains_frame _ _ _ _ _ Hs).
  - left. by rewrite (SequentialFacts.seq_Size_frame _ _ _ Hs).
Qed.

(** I3 and I4 travel along every call. *)
Lemma seq_step_counted st st' :
  step hasher st st' → invariant hasher st →
  counted (buckets_ st) (size_ st) → counted (buckets_ st') (size_ st').
Proof.
  intros [v r s s' Hs|v r s s' Hs|v r s s' Hs|r s s' Hs] Hinv Hc.
  - destruct (seq_Add_cases _ _ _ _ Hinv Hs)
      as [(_ & -> & _)|(_ & Hv & Hp & ->)]; [done|].
    by eapply counted_add.
  - destruct (seq_Remove_cases _ _ _ _ Hinv Hs)
      as [(_ & -> & _)|(_ & Hp & ->)]; [done|].
    by eapply counted_remove.
  - by rewrite (SequentialFacts.seq_Contains_frame _ _ _ _ _ Hs).
  - by rewrite (SequentialFacts.seq_Size_frame _ _ _ Hs).
Qed.

Lemma seq_reachable_counted st :
  reachable hasher st →
  invariant hasher st ∧ counted (buckets_ st) (size_ st).
Proof.
  intros [c Hsteps].
  pose proof (SequentialFacts.seq_make_invariant hasher c) as Hinv.
  pose proof (counted_fresh (T:=T)
                (N.max (NormalizeCapacity c) kMinBuckets)) as Hc.
  change (counted (buckets_ (make (T:=T) c)) (size_ (make (T:=T) c))) in Hc.
  induction Hsteps as [|s1 s2 s3 Hstep _ IH]; [done|].
  apply IH.
  - by eapply SequentialFacts.seq_step_invariant.
  - by eapply seq_step_counted.
Qed.

End Facts.
End SequentialSet.

(** ** HashSetCoarseGrained as a set *)

Module CoarseSet.
Import Coarse.
Section Facts.
Context {T : Type} `{EqDecision T}.
Variable hasher : T → N.
Implicit Types (st : state T) (v elem : T).

Lemma coarse_Resize_total new_capacity st :
  new_capacity ≠ 0 → is_Some (Resize hasher new_capacity st).
Proof.
  intros Hn. unfold Resize.
  destruct (rehash_fresh_total hasher new_capacity (buckets_ st) Hn) as [nb ->].
  by eexists.
Qed.

(** What a returning Add did. *)
Lemma coarse_Add_cases elem r st st' :
  invariant hasher st → Add hasher elem st = Some (r, st') →
  (r = false ∧ st' = st ∧ elem ∈ concat (buckets_ st)) ∨
  (r = true ∧ (elem ∉ concat (buckets_ st)) ∧
   concat (buckets_ st') ≡ₚ elem :: concat (buckets_ st) ∧
   size_ st' = size_t_inc (size_ st)).
Proof.
  unfold Add, Index. intros [_ Hwp] Ha.
  destruct (acquire st) as [st0|] eqn:Hacq; [|done]. simpl in Ha.
  apply CoarseFacts.coarse_acquire_Some in Hacq as (_ & _ & Hbs & Hsz & Hrel).
  unfold capacity in Ha. rewrite Hbs, ?Hsz in Ha.
  destruct (hash_mod hasher elem _) as [i|] eqn:Hi; [|done]. simpl in Ha.
  destruct (buckets_ st !! N.to_nat i) as [b|] eqn:Hb; [|done]. simpl in Ha.
  destruct (find b elem) as [it|] eqn:Hf.
  { left. injection Ha as <- <-. split_and!; [done..|].
    by eapply find_Some_elem_of_concat. }
  right. pose proof (well_placed_absent hasher _ _ _ _ Hwp Hi Hb Hf) as Hno.
  pose proof (concat_insert_push_back _ _ _ elem Hb) as Hp.
  rewrite ?Hsz in Ha.
  destruct (lf_gt _ _); [|by injection Ha as <- <-].
  destruct (Resize _ _ _) as [st2|] eqn:Hr; [|done]. injection Ha as <- <-.
  apply CoarseFacts.coarse_Resize_Some in Hr as (_ & Hsz2 & _ & _ & Hp2).
  split_and!; [done..| |done]. simpl. by rewrite Hp2.
Qed.

(** What a returning Remove did. *)
Lemma coarse_Remove_cases elem r st st' :
  invariant hasher st → Remove hasher elem st = Some (r, st') →
  (r = false ∧ st' = st ∧ elem ∉ concat (buckets_ st)) ∨
  (r = true ∧ concat (buckets_ st) ≡ₚ elem :: concat (buckets_ st') ∧
   size_ st' = size_t_dec (size_ st)).
Proof.
  unfold Remove, Index. intros [_ Hwp] Ha.
  destruct (acquire st) as [st0|] eqn:Hacq; [|done]. simpl in Ha.
  apply CoarseFacts.coarse_acquire_Some in Hacq as (_ & _ & Hbs & Hsz & Hrel).
  unfold capacity in Ha. rewrite Hbs, ?Hsz in Ha.
  destruct (hash_mod hasher elem _) as [i|] eqn:Hi; [|done]. simpl in Ha.
  destruct (buckets_ st !! N.to_nat i) as [b|] eqn:Hb; [|done]. simpl in Ha.
  destruct (find b elem) as [it|] eqn:Hf.
  - right. apply (find_Some hasher) in Hf.
    pose proof (concat_insert_erase _ _ _ _ _ Hb Hf) as Hp.
    rewrite ?Hsz in Ha.
    destruct (lf_lt _ _); [|by injection Ha as <- <-].
    destruct (Resize _ _ _) as [st2|] eqn:Hr; [|done]. injection Ha as <- <-.
    apply CoarseFacts.coarse_Resize_Some in Hr as (_ & Hsz2 & _ & _ & Hp2).
    split_and!; [done| |done]. simpl. by rewrite Hp2.
  - left. injection Ha as <- <-. split_and!; [done..|].
    by eapply well_placed_absent.
Qed.

(** Add returns as long as a bucket is left. *)
Lemma coarse_Add_total elem st :
  invariant hasher st → capacity st ≠ 0 → is_Some (Add hasher elem st).
Proof.
  intros [Hm Hwp] Hc. unfold Add, Index.
  rewrite (CoarseFacts.coarse_acquire_free st Hm). simpl.
  unfold capacity in *. simpl.
  destruct (hash_mod hasher elem _) as [i|] eqn:Hi;
    last by (unfold hash_mod in Hi;
             destruct (N.eqb_spec (N.of_nat (length (buckets_ st))) 0)).
  simpl. pose proof (hash_mod_lt _ _ _ _ Hi) as Hlt.
  rewrite Nat2N.id in Hlt.
  destruct (lookup_lt_is_Some_2 _ _ Hlt) as [b ->]. simpl.
  destruct (find b elem); [by eexists|].
  rewrite length_insert.
  destruct (lf_gt _ _) eqn:Hlf; [|by eexists].
  unfold size_t_inc in Hlf.
  rewrite (double_no_wrap _ (N.of_nat (length (buckets_ st))) Hc Hlf).
  match goal with |- is_Some (Resize _ ?n ?s ≫= _) =>
    destruct (coarse_Resize_total n s) as [st2 ->]; [lia|by eexists] end.
Qed.

(** Remove returns as long as two buckets are left. *)
Lemma coarse_Remove_total elem st :
  invariant hasher st → 2 ≤ capacity st → is_Some (Remove hasher elem st).
Proof.
  intros [Hm Hwp] Hc. unfold Remove, Index.
  rewrite (CoarseFacts.coarse_acquire_free st Hm). simpl.
  unfold capacity in *. simpl.
  destruct (hash_mod hasher elem _) as [i|] eqn:Hi;
    last by (unfold hash_mod in Hi;
             destruct (N.eqb_spec (N.of_nat (length (buckets_ st))) 0); [lia|]).
  simpl. pose proof (hash_mod_lt _ _ _ _ Hi) as Hlt.
  rewrite Nat2N.id in Hlt.
  destruct (lookup_lt_is_Some_2 _ _ Hlt) as [b ->]. simpl.
  destruct (find b elem); [|by eexists].
  rewrite length_insert.
  destruct (lf_lt _ _); [|by eexists].
  match goal with |- is_Some (Resize _ ?n ?s ≫= _) =>
    destruct (coarse_Resize_total n s) as [st2 ->]; [|by eexists] end.
  assert (1 ≤ N.of_nat (length (buckets_ st)) / 2); [|lia].
  apply N.div_le_lower_bound; lia.
Qed.

Lemma coarse_Remove_absent elem st :
  invariant hasher st → capacity st ≠ 0 → elem ∉ concat (buckets_ st) →
  Remove hasher elem st = Some (false, st).
Proof.
  intros [Hm Hwp] Hc Hno. unfold Remove, Index.
  rewrite (CoarseFacts.coarse_acquire_free st Hm). simpl.
  unfold capacity in *. simpl.
  destruct (hash_mod hasher elem _) as [i|] eqn:Hi;
    last by (unfold hash_mod in Hi;
             destruct (N.eqb_spec (N.of_nat (length (buckets_ st))) 0)).
  simpl. pose proof (hash_mod_lt _ _ _ _ Hi) as Hlt.
  rewrite Nat2N.id in Hlt.
  destruct (lookup_lt_is_Some_2 _ _ Hlt) as [b Hb]. rewrite Hb. simpl.
  destruct (find b elem) as [it|] eqn:Hf.
  { destruct Hno. by eapply find_Some_elem_of_concat. }
  do 2 f_equal. unfold release. simpl. destruct st; simpl in *.
  by rewrite Hm.
Qed.

Lemma coarse_Contains_member elem st :
  invariant hasher st → capacity st ≠ 0 →
  Contains hasher elem st
    = Some (bool_decide (elem ∈ concat (buckets_ st)), st).
Proof.
  intros Hinv Hcap.
  destruct (CoarseFacts.coarse_Contains_total hasher elem st Hinv Hcap)
    as [r Hc].
  rewrite Hc. do 2 f_equal.
  unfold Contains, Index in Hc. destruct Hinv as [Hm Hwp].
  rewrite (CoarseFacts.coarse_acquire_free st Hm) in Hc. simpl in Hc.
  unfold capacity in Hc. simpl in Hc.
  destruct (hash_mod hasher elem _) as [i|] eqn:Hi; simplify_eq/=.
  destruct (buckets_ st !! N.to_nat i) as [b|] eqn:Hb; simplify_eq/=.
  destruct (find b elem) as [it|] eqn:Hf; simpl; symmetry.
  - apply bool_decide_eq_true. by eapply find_Some_elem_of_concat.
  - apply bool_decide_eq_false. by eapply well_placed_absent.
Qed.

Lemma coarse_step_counted st st' :
  step hasher st st' → invariant hasher st →
  counted (buckets_ st) (size_ st) → counted (buckets_ st') (size_ st').
Proof.
  intros [v r s s' Hs|v r s s' Hs|v r s s' Hs|r s s' Hs] Hinv Hc.
  - destruct (coarse_Add_cases _ _ _ _ Hinv Hs)
      as [(_ & -> & _)|(_ & Hv & Hp & ->)]; [done|].
    by eapply counted_add.
  - destruct (coarse_Remove_cases _ _ _ _ Hinv Hs)
      as [(_ & -> & _)|(_ & Hp & ->)]; [done|].
    by eapply counted_remove.
  - by rewrite (CoarseFacts.coarse_Contains_frame _ _ _ _ _ Hs).
  - by rewrite (CoarseFacts.coarse_Size_frame _ _ _ Hs).
Qed.

Lemma coarse_reachable_counted st :
  reachable hasher st →
  invariant hasher st ∧ counted (buckets_ st) (size_ st).
Proof.
  intros [c Hsteps].
  pose proof (CoarseFacts.coarse_make_invariant hasher c) as Hinv.
  pose proof (counted_fresh (T:=T)
                (N.max (NormalizeCapacity c) kMinBuckets)) as Hc.
  change (counted (buckets_ (make (T:=T) c)) (size_ (make (T:=T) c))) in Hc.
  induction Hsteps as [|s1 s2 s3 Hstep _ IH]; [done|].
  apply IH.
  - by eapply CoarseFacts.coarse_step_invariant.
  - by eapply coarse_step_counted.
Qed.

End Facts.
End CoarseSet.

(** ** HashSetStriped as a set *)

Module StripedSet.
Import Striped.
Section Facts.
Context {T : Type} `{EqDecision T}.
Variable hasher : T → N.
Implicit Types (st : state T) (v elem : T).

(** What a returning Add did. *)
Lemma striped_Add_cases elem r st st' :
  invariant hasher st → Add hasher elem st = Some (r, st') →
  (r = false ∧ st' = st ∧ elem ∈ concat (buckets_ st)) ∨
  (r = true ∧ (elem ∉ concat (buckets_ st)) ∧
   concat (buckets_ st') ≡ₚ elem :: concat (buckets_ st) ∧
   size_ st' = size_t_inc (size_ st)).
Proof.
  unfold Add. intros (_ & _ & _ & _ & Hwp) Ha.
  destruct (enter hasher elem st) as [[[[i stripe] b] st0]|] eqn:He; [|done].
  pose proof (StripedFacts.striped_leave_enter _ _ _ _ _ _ _ He) as Hle.
  apply StripedFacts.striped_enter_Some in He
    as (Hi & Hb & _ & Hbs & Hsz & _ & _).
  simpl in Ha. destruct (find b elem) as [it|] eqn:Hf.
  { left. injection Ha as <- <-. split_and!; [done..|].
    by eapply find_Some_elem_of_concat. }
  right. pose proof (well_placed_absent hasher _ _ _ _ Hwp Hi Hb Hf) as Hno.
  pose proof (concat_insert_push_back _ _ _ elem Hb) as Hp.
  rewrite Hbs, Hsz in Ha.
  destruct (lf_gt _ _); [|by injection Ha as <- <-].
  destruct (Resize _ _ _) as [st2|] eqn:Hr; [|done]. injection Ha as <- <-.
  apply StripedFacts.striped_Resize_Some in Hr
    as (_ & _ & Hsz2 & _ & _ & Hp2).
  split_and!; [done..| |done]. by rewrite Hp2.
Qed.

(** What a returning Remove did. *)
Lemma striped_Remove_cases elem r st st' :
  invariant hasher st → Remove hasher elem st = Some (r, st') →
  (r = false ∧ st' = st ∧ elem ∉ concat (buckets_ st)) ∨
  (r = true ∧ concat (buckets_ st) ≡ₚ elem :: concat (buckets_ st') ∧
   size_ st' = size_t_dec (size_ st)).
Proof.
  unfold Remove. intros (_ & _ & _ & _ & Hwp) Ha.
  destruct (enter hasher elem st) as [[[[i stripe] b] st0]|] eqn:He; [|done].
  pose proof (StripedFacts.striped_leave_enter _ _ _ _ _ _ _ He) as Hle.
  apply StripedFacts.striped_enter_Some in He
    as (Hi & Hb & _ & Hbs & Hsz & _ & _).
  simpl in Ha. destruct (find b elem) as [it|] eqn:Hf.
  - right. apply (find_Some hasher) in Hf.
    pose proof (concat_insert_erase _ _ _ _ _ Hb Hf) as Hp.
    rewrite Hbs, Hsz in Ha.
    destruct (_ && _); [|by injection Ha as <- <-].
    destruct (Resize _ _ _) as [st2|] eqn:Hr; [|done]. injection Ha as <- <-.
    apply StripedFacts.striped_Resize_Some in Hr
      as (_ & _ & Hsz2 & _ & _ & Hp2).
    split_and!; [done| |done]. by rewrite Hp2.
  - left. injection Ha as <- <-. split_and!; [done..|].
    by eapply well_placed_absent.
Qed.

Lemma striped_Add_total elem st :
  invariant hasher st → is_Some (Add hasher elem st).
Proof.
  intros Hinv. unfold Add.
  destruct (StripedFacts.striped_enter_total hasher elem st Hinv)
    as (i & stripe & b & st0 & He).
  rewrite He. simpl.
  apply StripedFacts.striped_enter_Some in He
    as (_ & _ & _ & _ & _ & Hrm & Hul).
  destruct (find b elem); [by eexists|].
  destruct (lf_gt _ _); [|by eexists].
  match goal with |- is_Some (Resize _ ?n ?s ≫= _) =>
    destruct (StripedFacts.striped_Resize_total hasher n s) as [st2 ->] end;
    [| |by eexists].
  - unfold leave. simpl. rewrite Hul. by destruct Hinv.
  - unfold leave. simpl. rewrite Hrm. by destruct Hinv as (_ & ? & _).
Qed.

Lemma striped_Remove_total elem st :
  invariant hasher st → is_Some (Remove hasher elem st).
Proof.
  intros Hinv. unfold Remove.
  destruct (StripedFacts.striped_enter_total hasher elem st Hinv)
    as (i & stripe & b & st0 & He).
  rewrite He. simpl.
  apply StripedFacts.striped_enter_Some in He
    as (_ & _ & _ & _ & _ & Hrm & Hul).
  destruct (find b elem); [|by eexists].
  destruct (_ && _); [|by eexists].
  match goal with |- is_Some (Resize _ ?n ?s ≫= _) =>
    destruct (StripedFacts.striped_Resize_total hasher n s) as [st2 ->] end;
    [| |by eexists].
  - unfold leave. simpl. rewrite Hul. by destruct Hinv.
  - unfold leave. simpl. rewrite Hrm. by destruct Hinv as (_ & ? & _).
Qed.

Lemma striped_Contains_member elem st :
  invariant hasher st →
  Contains hasher elem st
    = Some (bool_decide (elem ∈ concat (buckets_ st)), st).
Proof.
  intros Hinv.
  destruct (StripedFacts.striped_Contains_total hasher elem st Hinv)
    as [r Hc].
  rewrite Hc. do 2 f_equal.
  unfold Contains in Hc. destruct Hinv as (_ & _ & _ & _ & Hwp).
  destruct (enter hasher elem st) as [[[[i stripe] b] st0]|] eqn:He; [|done].
  apply StripedFacts.striped_enter_Some in He as (Hi & Hb & _).
  injection Hc as <- _.
  destruct (find b elem) as [it|] eqn:Hf; simpl; symmetry.
  - apply bool_decide_eq_true. by eapply find_Some_elem_of_concat.
  - apply bool_decide_eq_false. by eapply well_placed_absent.
Qed.

(** Resizing again to the capacity just installed changes nothing. *)
Lemma striped_Resize_again n st st' :
  Resize hasher n st = Some st' → Resize hasher n st' = Some st'.
Proof.
  intros (_ & Hrm & _ & Hcap & _)%StripedFacts.striped_Resize_Some.
  unfold Resize. rewrite Hrm. simpl. rewrite Hcap, N.eqb_refl.
  destruct st'; simpl in *. by rewrite Hrm.
Qed.

Lemma striped_step_counted st st' :
  step hasher st st' → invariant hasher st →
  counted (buckets_ st) (size_ st) → counted (buckets_ st') (size_ st').
Proof.
  intros [v r s s' Hs|v r s s' Hs|v r s s' Hs|r s s' Hs|n s s' Hs] Hinv Hc.
  - destruct (striped_Add_cases _ _ _ _ Hinv Hs)
      as [(_ & -> & _)|(_ & Hv & Hp & ->)]; [done|].
    by eapply counted_add.
  - destruct (striped_Remove_cases _ _ _ _ Hinv Hs)
      as [(_ & -> & _)|(_ & Hp & ->)]; [done|].
    by eapply counted_remove.
  - by rewrite (StripedFacts.striped_Contains_frame _ _ _ _ _ Hs).
  - by rewrite (StripedFacts.striped_Size_frame _ _ _ Hs).
  - apply StripedFacts.striped_Resize_Some in Hs
      as (_ & _ & -> & _ & _ & Hp).
    by eapply counted_perm.
Qed.

Lemma striped_reachable_counted st :
  reachable hasher st →
  invariant hasher st ∧ counted (buckets_ st) (size_ st).
Proof.
  intros (c & s & Hsteps).
  pose proof (StripedFacts.striped_make_invariant hasher c s) as Hinv.
  pose proof (counted_fresh (T:=T)
                (N.max (NormalizeCapacity c) kMinBuckets)) as Hc.
  change (counted (buckets_ (make (T:=T) c s)) (size_ (make (T:=T) c s)))
    in Hc.
  induction Hsteps as [|s1 s2 s3 Hstep _ IH]; [done|].
  apply IH.
  - by eapply StripedFacts.striped_step_invariant.
  - by eapply striped_step_counted.
Qed.

End Facts.
End StripedSet.

(** ** HashSetRefinable (one bucket at a time) as a set *)

Module RefinableSet.
Import Refinable.
Section Facts.
Context {T : Type} `{EqDecision T}.
Variable hasher : T → N.
Implicit Types (st : state T) (v elem : T) (me : N).

(** What a returning Add did. *)
Lemma ref_Add_cases me elem r st st' :
  invariant hasher st → Add hasher me elem st = Some (r, st') →
  (r = false ∧ st' = st ∧ elem ∈ concat (buckets_ st)) ∨
  (r = true ∧ (elem ∉ concat (buckets_ st)) ∧
   concat (buckets_ st') ≡ₚ elem :: concat (buckets_ st) ∧
   size_ st' = size_t_inc (size_ st)).
Proof.
  unfold Add. intros (_ & _ & _ & Hlen & _ & Hwp) Ha.
  destruct (enter hasher me elem st) as [[[[cap i] b] st0]|] eqn:He; [|done].
  pose proof (RefinableFacts.ref_leave_enter _ _ _ _ _ _ _ _ He) as Hle.
  apply RefinableFacts.ref_enter_Some in He as (_ & Hi & Hb & Hst0 & Hul & _).
  simpl in Ha. destruct (find b elem) as [it|] eqn:Hf.
  { left. injection Ha as <- <-. split_and!; [done..|].
    by eapply find_Some_elem_of_concat. }
  right. pose proof (well_placed_absent hasher _ _ _ _ Hwp Hi Hb Hf) as Hno.
  pose proof (concat_insert_push_back _ _ _ elem Hb) as Hp.
  unfold leave, with_locks in Ha. simpl in Ha. rewrite Hul in Ha.
  rewrite Hst0 in Ha. simpl in Ha.
  unfold Add_grow in Ha. destruct (_ && _).
  - destruct (Resize _ _ _ _) as [st2|] eqn:Hr; [|done]. injection Ha as <- <-.
    apply RefinableFacts.ref_Resize_Some in Hr
      as (_ & Hsz2 & _ & _ & _ & _ & Hp2).
    simpl in *. split_and!; [done..| |done].
    rewrite Hp2; [done|]. by rewrite length_insert.
  - destruct (Some _) eqn:Hs in Ha; [|done]. injection Hs as <-.
    by injection Ha as <- <-.
Qed.

(** What a returning Remove did. *)
Lemma ref_Remove_cases me elem r st st' :
  invariant hasher st → Remove hasher me elem st = Some (r, st') →
  (r = false ∧ st' = st ∧ elem ∉ concat (buckets_ st)) ∨
  (r = true ∧ concat (buckets_ st) ≡ₚ elem :: concat (buckets_ st') ∧
   size_ st' = size_t_dec (size_ st)).
Proof.
  unfold Remove. intros (_ & _ & _ & Hlen & _ & Hwp) Ha.
  destruct (enter hasher me elem st) as [[[[cap i] b] st0]|] eqn:He; [|done].
  pose proof (RefinableFacts.ref_leave_enter _ _ _ _ _ _ _ _ He) as Hle.
  apply RefinableFacts.ref_enter_Some in He as (_ & Hi & Hb & Hst0 & Hul & _).
  simpl in Ha. destruct (find b elem) as [it|] eqn:Hf.
  - right. apply (find_Some hasher) in Hf.
    pose proof (concat_insert_erase _ _ _ _ _ Hb Hf) as Hp.
    unfold leave, with_locks in Ha. simpl in Ha. rewrite Hul in Ha.
    rewrite Hst0 in Ha. simpl in Ha.
    unfold Remove_shrink in Ha. destruct (_ && _).
    + destruct (Resize _ _ _ _) as [st2|] eqn:Hr; [|done].
      injection Ha as <- <-.
      apply RefinableFacts.ref_Resize_Some in Hr
        as (_ & Hsz2 & _ & _ & _ & _ & Hp2).
      simpl in *. split_and!; [done| |done].
      rewrite Hp2; [done|]. by rewrite length_insert.
    + destruct (Some _) eqn:Hs in Ha; [|done]. injection Hs as <-.
      by injection Ha as <- <-.
  - left. injection Ha as <- <-. split_and!; [done..|].
    by eapply well_placed_absent.
Qed.

Lemma ref_Add_total me elem st :
  invariant hasher st → is_Some (Add hasher me elem st).
Proof.
  intros Hinv. unfold Add.
  destruct (RefinableFacts.ref_enter_total hasher me elem st Hinv)
    as (i & b & st0 & He).
  rewrite He. simpl.
  apply RefinableFacts.ref_enter_Some in He as (_ & _ & _ & Hst0 & Hul & _).
  destruct (find b elem); [by eexists|].
  unfold leave, with_locks. simpl. rewrite Hul, Hst0. simpl.
  unfold Add_grow. destruct (_ && _); [|by eexists].
  destruct Hinv as (Hf & Hrm & _ & Hlen & _).
  match goal with |- is_Some (Resize _ _ ?n ?s ≫= _) =>
    destruct (RefinableFacts.ref_Resize_total hasher me n s) as [st2 ->] end;
    [done|done| |by eexists].
  simpl. by rewrite length_insert.
Qed.

Lemma ref_Remove_total me elem st :
  invariant hasher st → is_Some (Remove hasher me elem st).
Proof.
  intros Hinv. unfold Remove.
  destruct (RefinableFacts.ref_enter_total hasher me elem st Hinv)
    as (i & b & st0 & He).
  rewrite He. simpl.
  apply RefinableFacts.ref_enter_Some in He as (_ & _ & _ & Hst0 & Hul & _).
  destruct (find b elem); [|by eexists].
  unfold leave, with_locks. simpl. rewrite Hul, Hst0. simpl.
  unfold Remove_shrink. destruct (_ && _); [|by eexists].
  destruct Hinv as (Hf & Hrm & _ & Hlen & _).
  match goal with |- is_Some (Resize _ _ ?n ?s ≫= _) =>
    destruct (RefinableFacts.ref_Resize_total hasher me n s) as [st2 ->] end;
    [done|done| |by eexists].
  simpl. by rewrite length_insert.
Qed.

Lemma ref_Contains_member me elem st :
  invariant hasher st →
  Contains hasher me elem st
    = Some (bool_decide (elem ∈ concat (buckets_ st)), st).
Proof.
  intros Hinv.
  destruct (RefinableFacts.ref_Contains_total hasher me elem st Hinv)
    as [r Hc].
  rewrite Hc. do 2 f_equal.
  unfold Contains in Hc. destruct Hinv as (_ & _ & _ & _ & _ & Hwp).
  destruct (enter hasher me elem st) as [[[[cap i] b] st0]|] eqn:He; [|done].
  apply RefinableFacts.ref_enter_Some in He as (_ & Hi & Hb & _).
  injection Hc as <- _.
  destruct (find b elem) as [it|] eqn:Hf; simpl; symmetry.
  - apply bool_decide_eq_true. by eapply find_Some_elem_of_concat.
  - apply bool_decide_eq_false. by eapply well_placed_absent.
Qed.

(** Resize either returns early, leaving the capacity and the version
    stamp alone, or installs another capacity and bumps the version. *)
Lemma ref_Resize_version me n st st' :
  Resize hasher me n st = Some st' →
  (capacity st' = capacity st ∧ version_ st' = version_ st ∧
   buckets_ st' = buckets_ st ∧ locks_ st' = locks_ st) ∨
  (capacity st' ≠ capacity st ∧ version_ st' = size_t_inc (version_ st)).
Proof.
  unfold Resize. intros Hr.
  destruct (lock (resize_mutex_ st)) as [rm|]; simplify_eq/=.
  destruct (N.eqb_spec (N.max kMinBuckets (NormalizeCapacity n)) (capacity st))
    as [Heq|Hne]; simplify_eq/=; [by left|].
  destruct (migrate _ _ _ _ _ _ _) as [[[ob' ol'] nb']|] eqn:Hm; simplify_eq/=.
  apply RefinableFacts.ref_migrate_Some in Hm as (Hlen & _);
    [|apply length_fresh_buckets|apply well_placed_fresh].
  right. split; [|done]. unfold capacity at 1. simpl.
  by rewrite Hlen, N2Nat.id.
Qed.

(** Resizing again to the capacity just installed changes nothing. *)
Lemma ref_Resize_again me me' n st st' :
  length (locks_ st) = length (buckets_ st) →
  Resize hasher me n st = Some st' → Resize hasher me' n st' = Some st'.
Proof.
  intros Hlen (Hrm & _ & Hcap & _)%RefinableFacts.ref_Resize_Some.
  destruct (Hcap Hlen) as [Hc _].
  unfold Resize. rewrite Hrm. simpl. rewrite Hc, N.eqb_refl.
  destruct st'; simpl in *. by rewrite Hrm.
Qed.

Lemma ref_step_counted st st' :
  step hasher st st' → invariant hasher st →
  counted (buckets_ st) (size_ st) → counted (buckets_ st') (size_ st').
Proof.
  intros [me v r s s' Hs|me v r s s' Hs|me v r s s' Hs|r s s' Hs|me n s s' Hs]
    Hinv Hc.
  - destruct (ref_Add_cases _ _ _ _ _ Hinv Hs)
      as [(_ & -> & _)|(_ & Hv & Hp & ->)]; [done|].
    by eapply counted_add.
  - destruct (ref_Remove_cases _ _ _ _ _ Hinv Hs)
      as [(_ & -> & _)|(_ & Hp & ->)]; [done|].
    by eapply counted_remove.
  - by rewrite (RefinableFacts.ref_Contains_frame _ _ _ _ _ _ Hs).
  - by rewrite (RefinableFacts.ref_Size_frame _ _ _ Hs).
  - apply RefinableFacts.ref_Resize_Some in Hs
      as (_ & -> & _ & _ & _ & _ & Hp).
    eapply counted_perm; [|done]. apply Hp.
    by destruct Hinv as (_ & _ & _ & ? & _).
Qed.

Lemma ref_reachable_counted st :
  reachable hasher st →
  invariant hasher st ∧ counted (buckets_ st) (size_ st).
Proof.
  intros (c & Hsteps).
  pose proof (RefinableFacts.ref_make_invariant hasher c) as Hinv.
  pose proof (counted_fresh (T:=T)
                (N.max (NormalizeCapacity c) kMinBuckets)) as Hc.
  change (counted (buckets_ (make (T:=T) c)) (size_ (make (T:=T) c))) in Hc.
  induction Hsteps as [|s1 s2 s3 Hstep _ IH]; [done|].
  apply IH.
  - by eapply RefinableFacts.ref_step_invariant.
  - by eapply ref_step_counted.
Qed.

End Facts.
End RefinableSet.

(** ** HashSetRefinable (all old locks held) as a set *)

Module RefinableSkeletonSet.
Import RefinableSkeleton.
Section Facts.
Context {T : Type} `{EqDecision T}.
Variable hasher : T → N.
Implicit Types (st : state T) (v elem : T) (me : N).

(** What a returning Add did. *)
Lemma skel_Add_cases me elem r st st' :
  invariant hasher st → Add hasher me elem st = Some (r, st') →
  (r = false ∧ st' = st ∧ elem ∈ concat (buckets_ st)) ∨
  (r = true ∧ (elem ∉ concat (buckets_ st)) ∧
   concat (buckets_ st') ≡ₚ elem :: concat (buckets_ st) ∧
   size_ st' = size_t_inc (size_ st)).
Proof.
  unfold Add. intros (_ & _ & _ & Hlen & _ & Hwp) Ha.
  destruct (enter hasher elem st) as [[[[cap i] b] st0]|] eqn:He; [|done].
  pose proof (RefinableSkeletonFacts.skel_leave_enter _ _ _ _ _ _ _ He) as Hle.
  apply RefinableSkeletonFacts.skel_enter_Some in He
    as (_ & Hi & Hb & Hst0 & Hul & _).
  simpl in Ha. destruct (find b elem) as [it|] eqn:Hf.
  { left. injection Ha as <- <-. split_and!; [done..|].
    by eapply find_Some_elem_of_concat. }
  right. pose proof (well_placed_absent hasher _ _ _ _ Hwp Hi Hb Hf) as Hno.
  pose proof (concat_insert_push_back _ _ _ elem Hb) as Hp.
  unfold leave, with_locks in Ha. simpl in Ha. rewrite Hul in Ha.
  rewrite Hst0 in Ha. simpl in Ha.
  unfold Add_grow in Ha. destruct (_ && _).
  - destruct (Resize _ _ _ _) as [st2|] eqn:Hr; [|done]. injection Ha as <- <-.
    apply RefinableSkeletonFacts.skel_Resize_Some in Hr
      as (_ & Hsz2 & _ & _ & _ & _ & _ & Hp2).
    simpl in *. split_and!; [done..| |done]. by rewrite Hp2.
  - destruct (Some _) eqn:Hs in Ha; [|done]. injection Hs as <-.
    by injection Ha as <- <-.
Qed.

(** What a returning Remove did. *)
Lemma skel_Remove_cases elem r st st' :
  invariant hasher st → Remove hasher elem st = Some (r, st') →
  (r = false ∧ st' = st ∧ elem ∉ concat (buckets_ st)) ∨
  (r = true ∧ concat (buckets_ st) ≡ₚ elem :: concat (buckets_ st') ∧
   size_ st' = size_t_dec (size_ st)).
Proof.
  intros (_ & _ & _ & _ & _ & Hwp)
    (i & b & Hi & Hb & Hr)%RefinableSkeletonFacts.skel_Remove_Some.
  destruct (find b elem) as [it|] eqn:Hf; destruct Hr as [-> ->].
  - right. split_and!; [done| |done]. simpl.
    apply concat_insert_erase; [done|]. by apply (find_Some hasher).
  - left. split_and!; [done..|]. by eapply well_placed_absent.
Qed.

Lemma skel_Add_total me elem st :
  invariant hasher st → is_Some (Add hasher me elem st).
Proof.
  intros Hinv. unfold Add.
  destruct (RefinableSkeletonFacts.skel_enter_total hasher elem st Hinv)
    as (i & b & st0 & He).
  rewrite He. simpl.
  apply RefinableSkeletonFacts.skel_enter_Some in He
    as (_ & _ & _ & Hst0 & Hul & _).
  destruct (find b elem); [by eexists|].
  unfold leave, with_locks. simpl. rewrite Hul, Hst0. simpl.
  unfold Add_grow. destruct (_ && _); [|by eexists].
  destruct Hinv as (Hf & Hrm & _).
  match goal with |- is_Some (Resize _ _ ?n ?s ≫= _) =>
    destruct (RefinableSkeletonFacts.skel_Resize_total hasher me n s)
      as [st2 ->] end; [done|done|by eexists].
Qed.

Lemma skel_Remove_total elem st :
  invariant hasher st → is_Some (Remove hasher elem st).
Proof.
  intros Hinv. unfold Remove.
  destruct (RefinableSkeletonFacts.skel_enter_total hasher elem st Hinv)
    as (i & b & st0 & He).
  rewrite He. simpl. destruct (find b elem); by eexists.
Qed.

Lemma skel_Contains_member elem st :
  invariant hasher st →
  Contains hasher elem st
    = Some (bool_decide (elem ∈ concat (buckets_ st)), st).
Proof.
  intros Hinv.
  destruct (RefinableSkeletonFacts.skel_Contains_total hasher elem st Hinv)
    as [r Hc].
  rewrite Hc. do 2 f_equal.
  unfold Contains in Hc. destruct Hinv as (_ & _ & _ & _ & _ & Hwp).
  destruct (enter hasher elem st) as [[[[cap i] b] st0]|] eqn:He; [|done].
  apply RefinableSkeletonFacts.skel_enter_Some in He as (_ & Hi & Hb & _).
  injection Hc as <- _.
  destruct (find b elem) as [it|] eqn:Hf; simpl; symmetry.
  - apply bool_decide_eq_true. by eapply find_Some_elem_of_concat.
  - apply bool_decide_eq_false. by eapply well_placed_absent.
Qed.

(** Resize either returns early, touching neither the capacity, the
    version stamp nor the retired lock arrays, or installs another
    capacity, bumps the version and retires the old lock array with all
    its locks released. *)
Lemma skel_Resize_version me n st st' :
  Resize hasher me n st = Some st' →
  (capacity st' = capacity st ∧ version_ st' = version_ st ∧
   buckets_ st' = buckets_ st ∧ locks_ st' = locks_ st ∧
   old_lock_arrays_ st' = old_lock_arrays_ st) ∨
  (capacity st' ≠ capacity st ∧ version_ st' = size_t_inc (version_ st) ∧
   old_lock_arrays_ st' = old_lock_arrays_ st ++ [locks_ st]).
Proof.
  unfold Resize. intros Hr.
  destruct (lock (resize_mutex_ st)) as [rm|]; simplify_eq/=.
  destruct (N.eqb_spec (N.max kMinBuckets (NormalizeCapacity n)) (capacity st))
    as [Heq|Hne]; simplify_eq/=; [by left|].
  destruct (lock_all (locks_ st)) as [held|] eqn:Hl; simplify_eq/=.
  destruct (rehash_buckets _ _ _ _) as [nb|] eqn:Hnb; simplify_eq/=.
  apply rehash_fresh_Some in Hnb as (Hlen & _).
  right. split_and!; [|done|by rewrite (lock_all_Some _ _ Hl)].
  unfold capacity at 1. simpl. by rewrite Hlen, N2Nat.id.
Qed.

Lemma skel_Resize_again me me' n st st' :
  Resize hasher me n st = Some st' → Resize hasher me' n st' = Some st'.
Proof.
  intros (Hrm & _ & Hcap & _)%RefinableSkeletonFacts.skel_Resize_Some.
  unfold Resize. rewrite Hrm. simpl. rewrite Hcap, N.eqb_refl.
  destruct st'; simpl in *. by rewrite Hrm.
Qed.

(** What Add does to the version stamp and to the retired lock arrays. *)
Lemma skel_Add_arrays me elem r st st' :
  Add hasher me elem st = Some (r, st') →
  (version_ st' = version_ st ∧
   old_lock_arrays_ st' = old_lock_arrays_ st) ∨
  (version_ st' = size_t_inc (version_ st) ∧
   old_lock_arrays_ st' = old_lock_arrays_ st ++ [locks_ st]).
Proof.
  unfold Add. intros Ha.
  destruct (enter hasher elem st) as [[[[cap i] b] st0]|] eqn:He; [|done].
  pose proof (RefinableSkeletonFacts.skel_leave_enter _ _ _ _ _ _ _ He) as Hle.
  apply RefinableSkeletonFacts.skel_enter_Some in He
    as (_ & Hi & Hb & Hst0 & Hul & _).
  simpl in Ha. destruct (find b elem) as [it|].
  { left. injection Ha as _ <-. by rewrite Hle. }
  unfold leave, with_locks in Ha. simpl in Ha. rewrite Hul in Ha.
  rewrite Hst0 in Ha. simpl in Ha.
  unfold Add_grow in Ha. destruct (_ && _).
  - destruct (Resize _ _ _ _) as [st2|] eqn:Hr; [|done]. injection Ha as _ <-.
    apply skel_Resize_version in Hr
      as [(_ & Hv & _ & _ & Ho)|(_ & Hv & Ho)]; simpl in *; auto.
  - left. destruct (Some _) eqn:Hs in Ha; [|done]. injection Hs as <-.
    by injection Ha as _ <-.
Qed.

(** Every retired lock array has all its locks released, and there is
    one retired array per version bump. *)
Lemma skel_step_retired st st' :
  step hasher st st' → invariant hasher st →
  Forall all_free (old_lock_arrays_ st) ∧
    version_ st = wrap (N.of_nat (length (old_lock_arrays_ st))) →
  Forall all_free (old_lock_arrays_ st') ∧
    version_ st' = wrap (N.of_nat (length (old_lock_arrays_ st'))).
Proof.
  intros Hstep (Hfree & _) [Hall Hver].
  assert ((version_ st' = version_ st ∧
           old_lock_arrays_ st' = old_lock_arrays_ st) ∨
          (version_ st' = size_t_inc (version_ st) ∧
           old_lock_arrays_ st' = old_lock_arrays_ st ++ [locks_ st]))
    as [[-> ->]|[-> ->]]; [|done|].
  - destruct Hstep as [me v r s s' Hs|v r s s' Hs|v r s s' Hs|r s s' Hs
                      |me n s s' Hs].
    + by eapply skel_Add_arrays.
    + left. apply RefinableSkeletonFacts.skel_Remove_Some in Hs
        as (i & b & _ & _ & Hr).
      destruct (find b v); by destruct Hr as [_ ->].
    + left. by rewrite (RefinableSkeletonFacts.skel_Contains_frame _ _ _ _ _ Hs).
    + left. by rewrite (RefinableSkeletonFacts.skel_Size_frame _ _ _ Hs).
    + apply skel_Resize_version in Hs
        as [(_ & Hv & _ & _ & Ho)|(_ & Hv & Ho)]; auto.
  - split.
    + apply Forall_app. split; [done|]. by apply Forall_singleton.
    + rewrite Hver, size_t_inc_wrap, length_app. simpl. f_equal. lia.
Qed.

Lemma skel_reachable_retired st :
  reachable hasher st →
  Forall all_free (old_lock_arrays_ st) ∧
    version_ st = wrap (N.of_nat (length (old_lock_arrays_ st))).
Proof.
  intros (c & Hsteps).
  pose proof (RefinableSkeletonFacts.skel_make_invariant hasher c) as Hinv.
  assert (Forall all_free (old_lock_arrays_ (make (T:=T) c)) ∧
          version_ (make (T:=T) c)
            = wrap (N.of_nat (length (old_lock_arrays_ (make (T:=T) c)))))
    as Hret by (split; [constructor|done]).
  induction Hsteps as [|s1 s2 s3 Hstep _ IH]; [done|].
  apply IH.
  - by eapply RefinableSkeletonFacts.skel_step_invariant.
  - by eapply skel_step_retired.
Qed.

Lemma skel_step_counted st st' :
  step hasher st st' → invariant hasher st →
  counted (buckets_ st) (size_ st) → counted (buckets_ st') (size_ st').
Proof.
  intros [me v r s s' Hs|v r s s' Hs|v r s s' Hs|r s s' Hs|me n s s' Hs]
    Hinv Hc.
  - destruct (skel_Add_cases _ _ _ _ _ Hinv Hs)
      as [(_ & -> & _)|(_ & Hv & Hp & ->)]; [done|].
    by eapply counted_add.
  - destruct (skel_Remove_cases _ _ _ _ Hinv Hs)
      as [(_ & -> & _)|(_ & Hp & ->)]; [done|].
    by eapply counted_remove.
  - by rewrite (RefinableSkeletonFacts.skel_Contains_frame _ _ _ _ _ Hs).
  - by rewrite (RefinableSkeletonFacts.skel_Size_frame _ _ _ Hs).
  - apply RefinableSkeletonFacts.skel_Resize_Some in Hs
      as (_ & -> & _ & _ & _ & _ & _ & Hp).
    by eapply counted_perm.
Qed.

Lemma skel_reachable_counted st :
  reachable hasher st →
  invariant hasher st ∧ counted (buckets_ st) (size_ st).
Proof.
  intros (c & Hsteps).
  pose proof (RefinableSkeletonFacts.skel_make_invariant hasher c) as Hinv.
  pose proof (counted_fresh (T:=T)
                (N.max (NormalizeCapacity c) kMinBuckets)) as Hc.
  change (counted (buckets_ (make (T:=T) c)) (size_ (make (T:=T) c))) in Hc.
  induction Hsteps as [|s1 s2 s3 Hstep _ IH]; [done|].
  apply IH.
  - by eapply RefinableSkeletonFacts.skel_step_invariant.
  - by eapply skel_step_counted.
Qed.

End Facts.
End RefinableSkeletonSet.

(** ** The contract and its consequences *)

Section ContractFacts.
Context {T : Type} `{EqDecision T}.
Implicit Types (elems : list T) (v : T).

Lemma contract_Add_old v elems size :
  v ∈ elems → contract (CallAdd v) elems size (ReturnedBool false) elems size.
Proof.
  intros Hv. simpl. rewrite bool_decide_eq_false_2 by (by intros []).
  rewrite decide_True by done. split_and!; [done| |done].
  intros w. split; [by left|]. by intros [?| ->].
Qed.

Lemma contract_Add_new v elems elems' size :
  v ∉ elems → elems' ≡ₚ v :: elems →
  contract (CallAdd v) elems size (ReturnedBool true) elems' (size_t_inc size).
Proof.
  intros Hv Hp. simpl. rewrite bool_decide_eq_true_2 by done.
  rewrite decide_False by done. split_and!; [done| |done].
  intros w. rewrite Hp, elem_of_cons. split; intros [?|?]; auto.
Qed.

Lemma contract_Remove_absent v elems size :
  v ∉ elems →
  contract (CallRemove v) elems size (ReturnedBool false) elems size.
Proof.
  intros Hv. simpl. rewrite bool_decide_eq_false_2 by done.
  rewrite decide_False by done. split_and!; [done| |done].
  intros w. split; [|by intros [? _]]. intros Hw. split; [done|].
  by intros ->.
Qed.

Lemma contract_Remove_present v elems elems' size :
  NoDup elems → elems ≡ₚ v :: elems' →
  contract (CallRemove v) elems size (ReturnedBool true) elems'
    (size_t_dec size).
Proof.
  intros Hnd Hp. simpl. rewrite Hp in Hnd.
  apply NoDup_cons in Hnd as [Hv _].
  assert (v ∈ elems) as Hin by (rewrite Hp; left).
  rewrite bool_decide_eq_true_2 by done.
  rewrite decide_True by done. split_and!; [done| |done].
  intros w. rewrite Hp, elem_of_cons. split.
  - intros Hw. split; [by right|]. by intros ->.
  - by intros [[?|?] ?].
Qed.

(** On tables with the same elements and equal counters the contract
    leaves one result and, again, the same elements and equal counters. *)
Lemma contract_agree c elems1 elems2 size r1 r2 elems1' elems2' size1' size2' :
  (∀ w, w ∈ elems1 ↔ w ∈ elems2) →
  contract c elems1 size r1 elems1' size1' →
  contract c elems2 size r2 elems2' size2' →
  r1 = r2 ∧ (∀ w, w ∈ elems1' ↔ w ∈ elems2') ∧ size1' = size2'.
Proof.
  intros Hsame H1 H2.
  destruct c as [v|v|v|]; simpl in *;
    destruct H1 as (-> & He1 & ->), H2 as (-> & He2 & ->).
  - split_and!.
    + f_equal. apply bool_decide_ext. by rewrite Hsame.
    + intros w. by rewrite He1, He2, Hsame.
    + destruct (decide (v ∈ elems1)) as [Hv|Hv];
        [rewrite decide_True|rewrite decide_False]; try done;
        by rewrite <- Hsame.
  - split_and!.
    + f_equal. apply bool_decide_ext. by rewrite Hsame.
    + intros w. by rewrite He1, He2, Hsame.
    + destruct (decide (v ∈ elems1)) as [Hv|Hv];
        [rewrite decide_True|rewrite decide_False]; try done;
        by rewrite <- Hsame.
  - split_and!; [|intros w; by rewrite He1, He2, Hsame|done].
    f_equal. apply bool_decide_ext. by rewrite Hsame.
  - split_and!; [done|intros w; by rewrite He1, He2, Hsame|done].
Qed.

(** Two implementations that meet the contract return the same results
    on the same calls, started on the same elements and counters. *)
Lemma trace_agree {C1 C2 S1 S2 : Type}
    (perform1 : C1 → S1 → option (result * S1)) (which1 : C1 → call T)
    (good1 : S1 → Prop) (elems1 : S1 → list T) (size1 : S1 → N)
    (perform2 : C2 → S2 → option (result * S2)) (which2 : C2 → call T)
    (good2 : S2 → Prop) (elems2 : S2 → list T) (size2 : S2 → N) :
  meets_contract perform1 which1 good1 elems1 size1 →
  meets_contract perform2 which2 good2 elems2 size2 →
  ∀ calls1 calls2 st1 st2,
    which1 <$> calls1 = which2 <$> calls2 →
    good1 st1 → good2 st2 →
    (∀ w, w ∈ elems1 st1 ↔ w ∈ elems2 st2) → size1 st1 = size2 st2 →
    ∃ rs, trace perform1 calls1 st1 = Some rs ∧
          trace perform2 calls2 st2 = Some rs.
Proof.
  intros Hm1 Hm2 calls1.
  induction calls1 as [|c1 calls1 IH];
    intros [|c2 calls2] st1 st2 Hcalls Hg1 Hg2 Hsame Hsize;
    try discriminate Hcalls.
  - by exists [].
  - injection Hcalls as Hc Hcalls.
    destruct (Hm1 c1 st1 Hg1) as (r1 & st1' & Hp1 & Hg1' & Hk1).
    destruct (Hm2 c2 st2 Hg2) as (r2 & st2' & Hp2 & Hg2' & Hk2).
    rewrite Hc, Hsize in Hk1.
    destruct (contract_agree _ _ _ _ _ _ _ _ _ _ Hsame Hk1 Hk2)
      as (-> & Hsame' & Hsize').
    destruct (IH calls2 st1' st2' Hcalls Hg1' Hg2' Hsame' Hsize')
      as (rs & Ht1 & Ht2).
    exists (r2 :: rs). simpl. rewrite Hp1, Hp2. simpl.
    by rewrite Ht1, Ht2.
Qed.

End ContractFacts.

(** ** Every call meets the contract *)

Section MeetsContract.
Context {T : Type} `{EqDecision T}.
Variable hasher : T → N.

Lemma seq_meets_contract :
  meets_contract (seq_perform hasher) id
    (λ st, Sequential.invariant hasher st ∧
           counted (Sequential.buckets_ st) (Sequential.size_ st))
    (λ st, concat (Sequential.buckets_ st)) Sequential.size_.
Proof.
  intros c st [Hinv Hc]. destruct c as [v|v|v|]; simpl.
  - destruct (SequentialSet.seq_Add_total hasher v st Hinv) as [[r st'] Ha].
    rewrite Ha. simpl. exists (ReturnedBool r), st'. split; [done|].
    assert (Sequential.step hasher st st') as Hstep by (eapply Sequential.step_Add, Ha).
    split.
    { split; [by eapply SequentialFacts.seq_step_invariant
             |by eapply SequentialSet.seq_step_counted]. }
    destruct (SequentialSet.seq_Add_cases hasher _ _ _ _ Hinv Ha)
      as [(-> & -> & Hv)|(-> & Hv & Hp & ->)].
    + by apply contract_Add_old.
    + by apply contract_Add_new.
  - destruct (SequentialSet.seq_Remove_total hasher v st Hinv) as [[r st'] Ha].
    rewrite Ha. simpl. exists (ReturnedBool r), st'. split; [done|].
    assert (Sequential.step hasher st st') as Hstep by (eapply Sequential.step_Remove, Ha).
    split.
    { split; [by eapply SequentialFacts.seq_step_invariant
             |by eapply SequentialSet.seq_step_counted]. }
    destruct (SequentialSet.seq_Remove_cases hasher _ _ _ _ Hinv Ha)
      as [(-> & -> & Hv)|(-> & Hp & ->)].
    + by apply contract_Remove_absent.
    + apply contract_Remove_present; [by destruct Hc|done].
  - rewrite (SequentialSet.seq_Contains_member hasher v st Hinv). simpl.
    eexists _, st. by split_and!.
  - eexists _, st. by split_and!.
Qed.

Lemma striped_meets_contract :
  meets_contract (striped_perform hasher) id
    (λ st, Striped.invariant hasher st ∧
           counted (Striped.buckets_ st) (Striped.size_ st))
    (λ st, concat (Striped.buckets_ st)) Striped.size_.
Proof.
  intros c st [Hinv Hc]. destruct c as [v|v|v|]; simpl.
  - destruct (StripedSet.striped_Add_total hasher v st Hinv) as [[r st'] Ha].
    rewrite Ha. simpl. exists (ReturnedBool r), st'. split; [done|].
    assert (Striped.step hasher st st') as Hstep by (eapply Striped.step_Add, Ha).
    split.
    { split; [by eapply StripedFacts.striped_step_invariant
             |by eapply StripedSet.striped_step_counted]. }
    destruct (StripedSet.striped_Add_cases hasher _ _ _ _ Hinv Ha)
      as [(-> & -> & Hv)|(-> & Hv & Hp & ->)].
    + by apply contract_Add_old.
    + by apply contract_Add_new.
  - destruct (StripedSet.striped_Remove_total hasher v st Hinv) as [[r st'] Ha].
    rewrite Ha. simpl. exists (ReturnedBool r), st'. split; [done|].
    assert (Striped.step hasher st st') as Hstep by (eapply Striped.step_Remove, Ha).
    split.
    { split; [by eapply StripedFacts.striped_step_invariant
             |by eapply StripedSet.striped_step_counted]. }
    destruct (StripedSet.striped_Remove_cases hasher _ _ _ _ Hinv Ha)
      as [(-> & -> & Hv)|(-> & Hp & ->)].
    + by apply contract_Remove_absent.
    + apply contract_Remove_present; [by destruct Hc|done].
  - rewrite (StripedSet.striped_Contains_member hasher v st Hinv). simpl.
    eexists _, st. by split_and!.
  - eexists _, st. by split_and!.
Qed.

Lemma ref_meets_contract :
  meets_contract (ref_perform hasher) snd
    (λ st, Refinable.invariant hasher st ∧
           counted (Refinable.buckets_ st) (Refinable.size_ st))
    (λ st, concat (Refinable.buckets_ st)) Refinable.size_.
Proof.
  intros c st [Hinv Hc]. destruct c as [me [v|v|v|]]; simpl.
  - destruct (RefinableSet.ref_Add_total hasher me v st Hinv) as [[r st'] Ha].
    rewrite Ha. simpl. exists (ReturnedBool r), st'. split; [done|].
    assert (Refinable.step hasher st st') as Hstep by (eapply Refinable.step_Add, Ha).
    split.
    { split; [by eapply RefinableFacts.ref_step_invariant
             |by eapply RefinableSet.ref_step_counted]. }
    destruct (RefinableSet.ref_Add_cases hasher _ _ _ _ _ Hinv Ha)
      as [(-> & -> & Hv)|(-> & Hv & Hp & ->)].
    + by apply contract_Add_old.
    + by apply contract_Add_new.
  - destruct (RefinableSet.ref_Remove_total hasher me v st Hinv) as [[r st'] Ha].
    rewrite Ha. simpl. exists (ReturnedBool r), st'. split; [done|].
    assert (Refinable.step hasher st st') as Hstep by (eapply Refinable.step_Remove, Ha).
    split.
    { split; [by eapply RefinableFacts.ref_step_invariant
             |by eapply RefinableSet.ref_step_counted]. }
    destruct (RefinableSet.ref_Remove_cases hasher _ _ _ _ _ Hinv Ha)
      as [(-> & -> & Hv)|(-> & Hp & ->)].
    + by apply contract_Remove_absent.
    + apply contract_Remove_present; [by destruct Hc|done].
  - rewrite (RefinableSet.ref_Contains_member hasher me v st Hinv). simpl.
    eexists _, st. by split_and!.
  - eexists _, st. by split_and!.
Qed.

Lemma skel_meets_contract :
  meets_contract (skel_perform hasher) snd
    (λ st, RefinableSkeleton.invariant hasher st ∧
           counted (RefinableSkeleton.buckets_ st) (RefinableSkeleton.size_ st))
    (λ st, concat (RefinableSkeleton.buckets_ st)) RefinableSkeleton.size_.
Proof.
  intros c st [Hinv Hc]. destruct c as [me [v|v|v|]]; simpl.
  - destruct (RefinableSkeletonSet.skel_Add_total hasher me v st Hinv) as [[r st'] Ha].
    rewrite Ha. simpl. exists (ReturnedBool r), st'. split; [done|].
    assert (RefinableSkeleton.step hasher st st') as Hstep by (eapply RefinableSkeleton.step_Add, Ha).
    split.
    { split; [by eapply RefinableSkeletonFacts.skel_step_invariant
             |by eapply RefinableSkeletonSet.skel_step_counted]. }
    destruct (RefinableSkeletonSet.skel_Add_cases hasher _ _ _ _ _ Hinv Ha)
      as [(-> & -> & Hv)|(-> & Hv & Hp & ->)].
    + by apply contract_Add_old.
    + by apply contract_Add_new.
  - destruct (RefinableSkeletonSet.skel_Remove_total hasher v st Hinv) as [[r st'] Ha].
    rewrite Ha. simpl. exists (ReturnedBool r), st'. split; [done|].
    assert (RefinableSkeleton.step hasher st st') as Hstep by (eapply RefinableSkeleton.step_Remove, Ha).
    split.
    { split; [by eapply RefinableSkeletonFacts.skel_step_invariant
             |by eapply RefinableSkeletonSet.skel_step_counted]. }
    destruct (RefinableSkeletonSet.skel_Remove_cases hasher _ _ _ _ Hinv Ha)
      as [(-> & -> & Hv)|(-> & Hp & ->)].
    + by apply contract_Remove_absent.
    + apply contract_Remove_present; [by destruct Hc|done].
  - rewrite (RefinableSkeletonSet.skel_Contains_member hasher v st Hinv). simpl.
    eexists _, st. by split_and!.
  - eexists _, st. by split_and!.
Qed.

End MeetsContract.

(** * Further properties of the code *)

Lemma striped_grown_reachable :
  Striped.reachable Scenario.hasher Scenario.striped_grown.
Proof. exists 4, 8. exact striped_grown_steps. Qed.

(** X1. Add of an element that is not stored returns true, stores it
    next to the elements that were there and counts it; in the
    coarse-grained set as long as a bucket is left. *)
Theorem Add_of_new_element {T : Type} `{EqDecision T} (hasher : T → N) :
  (∀ st v, Sequential.reachable hasher st →
     v ∉ concat (Sequential.buckets_ st) →
     ∃ st', Sequential.Add hasher v st = Some (true, st') ∧
       concat (Sequential.buckets_ st')
         ≡ₚ v :: concat (Sequential.buckets_ st) ∧
       Sequential.size_ st' = size_t_inc (Sequential.size_ st)) ∧
  (∀ st v, Coarse.reachable hasher st → Coarse.capacity st ≠ 0 →
     v ∉ concat (Coarse.buckets_ st) →
     ∃ st', Coarse.Add hasher v st = Some (true, st') ∧
       concat (Coarse.buckets_ st') ≡ₚ v :: concat (Coarse.buckets_ st) ∧
       Coarse.size_ st' = size_t_inc (Coarse.size_ st)) ∧
  (∀ st v, Striped.reachable hasher st →
     v ∉ concat (Striped.buckets_ st) →
     ∃ st', Striped.Add hasher v st = Some (true, st') ∧
       concat (Striped.buckets_ st') ≡ₚ v :: concat (Striped.buckets_ st) ∧
       Striped.size_ st' = size_t_inc (Striped.size_ st)) ∧
  (∀ st me v, Refinable.reachable hasher st →
     v ∉ concat (Refinable.buckets_ st) →
     ∃ st', Refinable.Add hasher me v st = Some (true, st') ∧
       concat (Refinable.buckets_ st')
         ≡ₚ v :: concat (Refinable.buckets_ st) ∧
       Refinable.size_ st' = size_t_inc (Refinable.size_ st)) ∧
  (∀ st me v, RefinableSkeleton.reachable hasher st →
     v ∉ concat (RefinableSkeleton.buckets_ st) →
     ∃ st', RefinableSkeleton.Add hasher me v st = Some (true, st') ∧
       concat (RefinableSkeleton.buckets_ st')
         ≡ₚ v :: concat (RefinableSkeleton.buckets_ st) ∧
       RefinableSkeleton.size_ st'
         = size_t_inc (RefinableSkeleton.size_ st)).
Proof.
  split_and!.
  - intros st v Hinv%SequentialFacts.seq_reachable_invariant Hv.
    destruct (SequentialSet.seq_Add_total hasher v st Hinv) as [[r st'] Ha].
    destruct (SequentialSet.seq_Add_cases hasher _ _ _ _ Hinv Ha)
      as [(_ & _ & Hin)|(-> & _ & Hp & Hs)]; [done|]. by exists st'.
  - intros st v Hinv%CoarseFacts.coarse_reachable_invariant Hc Hv.
    destruct (CoarseSet.coarse_Add_total hasher v st Hinv Hc) as [[r st'] Ha].
    destruct (CoarseSet.coarse_Add_cases hasher _ _ _ _ Hinv Ha)
      as [(_ & _ & Hin)|(-> & _ & Hp & Hs)]; [done|]. by exists st'.
  - intros st v Hinv%StripedFacts.striped_reachable_invariant Hv.
    destruct (StripedSet.striped_Add_total hasher v st Hinv) as [[r st'] Ha].
    destruct (StripedSet.striped_Add_cases hasher _ _ _ _ Hinv Ha)
      as [(_ & _ & Hin)|(-> & _ & Hp & Hs)]; [done|]. by exists st'.
  - intros st me v Hinv%RefinableFacts.ref_reachable_invariant Hv.
    destruct (RefinableSet.ref_Add_total hasher me v st Hinv) as [[r st'] Ha].
    destruct (RefinableSet.ref_Add_cases hasher _ _ _ _ _ Hinv Ha)
      as [(_ & _ & Hin)|(-> & _ & Hp & Hs)]; [done|]. by exists st'.
  - intros st me v Hinv%RefinableSkeletonFacts.skel_reachable_invariant Hv.
    destruct (RefinableSkeletonSet.skel_Add_total hasher me v st Hinv)
      as [[r st'] Ha].
    destruct (RefinableSkeletonSet.skel_Add_cases hasher _ _ _ _ _ Hinv Ha)
      as [(_ & _ & Hin)|(-> & _ & Hp & Hs)]; [done|]. by exists st'.
Qed.

Lemma Add_of_new_element_witness :
  (∃ st', Sequential.Add Scenario.hasher 9 Scenario.seq_two = Some (true, st')
          ∧ Sequential.size_ st' = 3) ∧
  (∃ st', Coarse.Add Scenario.hasher 9 Scenario.coarse_two = Some (true, st')
          ∧ Coarse.size_ st' = 3) ∧
  (∃ st', Striped.Add Scenario.hasher 18 Scenario.striped_grown
            = Some (true, st') ∧ Striped.size_ st' = 18) ∧
  (∃ st', Refinable.Add Scenario.hasher Scenario.me 9 Scenario.ref_two
            = Some (true, st') ∧ Refinable.size_ st' = 3) ∧
  (∃ st', RefinableSkeleton.Add Scenario.hasher Scenario.me 9 Scenario.skel_two
            = Some (true, st') ∧ RefinableSkeleton.size_ st' = 3).
Proof.
  destruct (Add_of_new_element Scenario.hasher)
    as (Hseq & Hcoarse & Hstriped & Href & Hskel).
  split_and!.
  - destruct (Hseq Scenario.seq_two 9 seq_two_reachable)
      as (st' & Ha & _ & Hs).
    + apply (bool_decide_unpack _). vm_compute. exact I.
    + exists st'. split; [exact Ha|]. rewrite Hs. reflexivity.
  - destruct (Hcoarse Scenario.coarse_two 9 coarse_two_reachable)
      as (st' & Ha & _ & Hs).
    + discriminate.
    + apply (bool_decide_unpack _). vm_compute. exact I.
    + exists st'. split; [exact Ha|]. rewrite Hs. reflexivity.
  - destruct (Hstriped Scenario.striped_grown 18 striped_grown_reachable)
      as (st' & Ha & _ & Hs).
    + apply (bool_decide_unpack _). vm_compute. exact I.
    + exists st'. split; [exact Ha|]. rewrite Hs. reflexivity.
  - destruct (Href Scenario.ref_two Scenario.me 9 ref_two_reachable)
      as (st' & Ha & _ & Hs).
    + apply (bool_decide_unpack _). vm_compute. exact I.
    + exists st'. split; [exact Ha|]. rewrite Hs. reflexivity.
  - destruct (Hskel Scenario.skel_two Scenario.me 9 skel_two_reachable)
      as (st' & Ha & _ & Hs).
    + apply (bool_decide_unpack _). vm_compute. exact I.
    + exists st'. split; [exact Ha|]. rewrite Hs. reflexivity.
Defined.

(** X2. Remove of a stored element returns true, takes exactly that
    element out (it is not stored afterwards, the others stay) and
    decrements the counter; in the coarse-grained set as long as two
    buckets are left. *)
Theorem Remove_of_stored_element {T : Type} `{EqDecision T} (hasher : T → N) :
  (∀ st v, Sequential.reachable hasher st →
     v ∈ concat (Sequential.buckets_ st) →
     ∃ st', Sequential.Remove hasher v st = Some (true, st') ∧
       concat (Sequential.buckets_ st)
         ≡ₚ v :: concat (Sequential.buckets_ st') ∧
       (v ∉ concat (Sequential.buckets_ st')) ∧
       Sequential.size_ st' = size_t_dec (Sequential.size_ st)) ∧
  (∀ st v, Coarse.reachable hasher st → 2 ≤ Coarse.capacity st →
     v ∈ concat (Coarse.buckets_ st) →
     ∃ st', Coarse.Remove hasher v st = Some (true, st') ∧
       concat (Coarse.buckets_ st) ≡ₚ v :: concat (Coarse.buckets_ st') ∧
       (v ∉ concat (Coarse.buckets_ st')) ∧
       Coarse.size_ st' = size_t_dec (Coarse.size_ st)) ∧
  (∀ st v, Striped.reachable hasher st →
     v ∈ concat (Striped.buckets_ st) →
     ∃ st', Striped.Remove hasher v st = Some (true, st') ∧
       concat (Striped.buckets_ st) ≡ₚ v :: concat (Striped.buckets_ st') ∧
       (v ∉ concat (Striped.buckets_ st')) ∧
       Striped.size_ st' = size_t_dec (Striped.size_ st)) ∧
  (∀ st me v, Refinable.reachable hasher st →
     v ∈ concat (Refinable.buckets_ st) →
     ∃ st', Refinable.Remove hasher me v st = Some (true, st') ∧
       concat (Refinable.buckets_ st)
         ≡ₚ v :: concat (Refinable.buckets_ st') ∧
       (v ∉ concat (Refinable.buckets_ st')) ∧
       Refinable.size_ st' = size_t_dec (Refinable.size_ st)) ∧
  (∀ st v, RefinableSkeleton.reachable hasher st →
     v ∈ concat (RefinableSkeleton.buckets_ st) →
     ∃ st', RefinableSkeleton.Remove hasher v st = Some (true, st') ∧
       concat (RefinableSkeleton.buckets_ st)
         ≡ₚ v :: concat (RefinableSkeleton.buckets_ st') ∧
       (v ∉ concat (RefinableSkeleton.buckets_ st')) ∧
       RefinableSkeleton.size_ st'
         = size_t_dec (RefinableSkeleton.size_ st)).
Proof.
  split_and!.
  - intros st v [Hinv Hc]%SequentialSet.seq_reachable_counted Hv.
    destruct (SequentialSet.seq_Remove_total hasher v st Hinv)
      as [[r st'] Ha].
    destruct (SequentialSet.seq_Remove_cases hasher _ _ _ _ Hinv Ha)
      as [(_ & _ & Hno)|(-> & Hp & Hs)]; [done|].
    exists st'. split_and!; [done..| |done].
    by destruct (counted_remove _ _ _ _ Hc Hp).
  - intros st v [Hinv Hc]%CoarseSet.coarse_reachable_counted Hcap Hv.
    destruct (CoarseSet.coarse_Remove_total hasher v st Hinv Hcap)
      as [[r st'] Ha].
    destruct (CoarseSet.coarse_Remove_cases hasher _ _ _ _ Hinv Ha)
      as [(_ & _ & Hno)|(-> & Hp & Hs)]; [done|].
    exists st'. split_and!; [done..| |done].
    by destruct (counted_remove _ _ _ _ Hc Hp).
  - intros st v [Hinv Hc]%StripedSet.striped_reachable_counted Hv.
    destruct (StripedSet.striped_Remove_total hasher v st Hinv)
      as [[r st'] Ha].
    destruct (StripedSet.striped_Remove_cases hasher _ _ _ _ Hinv Ha)
      as [(_ & _ & Hno)|(-> & Hp & Hs)]; [done|].
    exists st'. split_and!; [done..| |done].
    by destruct (counted_remove _ _ _ _ Hc Hp).
  - intros st me v [Hinv Hc]%RefinableSet.ref_reachable_counted Hv.
    destruct (RefinableSet.ref_Remove_total hasher me v st Hinv)
      as [[r st'] Ha].
    destruct (RefinableSet.ref_Remove_cases hasher _ _ _ _ _ Hinv Ha)
      as [(_ & _ & Hno)|(-> & Hp & Hs)]; [done|].
    exists st'. split_and!; [done..| |done].
    by destruct (counted_remove _ _ _ _ Hc Hp).
  - intros st v [Hinv Hc]%RefinableSkeletonSet.skel_reachable_counted Hv.
    destruct (RefinableSkeletonSet.skel_Remove_total hasher v st Hinv)
      as [[r st'] Ha].
    destruct (RefinableSkeletonSet.skel_Remove_cases hasher _ _ _ _ Hinv Ha)
      as [(_ & _ & Hno)|(-> & Hp & Hs)]; [done|].
    exists st'. split_and!; [done..| |done].
    by destruct (counted_remove _ _ _ _ Hc Hp).
Qed.

Lemma Remove_of_stored_element_witness :
  (∃ st', Sequential.Remove Scenario.hasher 6 Scenario.seq_two
            = Some (true, st') ∧ Sequential.size_ st' = 1) ∧
  (∃ st', Coarse.Remove Scenario.hasher 6 Scenario.coarse_two
            = Some (true, st') ∧ Coarse.size_ st' = 1) ∧
  (∃ st', Striped.Remove Scenario.hasher 9 Scenario.striped_grown
            = Some (true, st') ∧ Striped.size_ st' = 16) ∧
  (∃ st', Refinable.Remove Scenario.hasher Scenario.me 6 Scenario.ref_two
            = Some (true, st') ∧ Refinable.size_ st' = 1) ∧
  (∃ st', RefinableSkeleton.Remove Scenario.hasher 6 Scenario.skel_two
            = Some (true, st') ∧ RefinableSkeleton.size_ st' = 1).
Proof.
  destruct (Remove_of_stored_element Scenario.hasher)
    as (Hseq & Hcoarse & Hstriped & Href & Hskel).
  split_and!.
  - destruct (Hseq Scenario.seq_two 6 seq_two_reachable)
      as (st' & Ha & _ & _ & Hs).
    + simpl. right. left.
    + exists st'. split; [exact Ha|]. rewrite Hs. reflexivity.
  - destruct (Hcoarse Scenario.coarse_two 6 coarse_two_reachable)
      as (st' & Ha & _ & _ & Hs).
    + discriminate.
    + simpl. right. left.
    + exists st'. split; [exact Ha|]. rewrite Hs. reflexivity.
  - destruct (Hstriped Scenario.striped_grown 9 striped_grown_reachable)
      as (st' & Ha & _ & _ & Hs).
    + simpl. do 3 right. left.
    + exists st'. split; [exact Ha|]. rewrite Hs. reflexivity.
  - destruct (Href Scenario.ref_two Scenario.me 6 ref_two_reachable)
      as (st' & Ha & _ & _ & Hs).
    + simpl. right. left.
    + exists st'. split; [exact Ha|]. rewrite Hs. reflexivity.
  - destruct (Hskel Scenario.skel_two 6 skel_two_reachable)
      as (st' & Ha & _ & _ & Hs).
    + simpl. right. left.
    + exists st'. split; [exact Ha|]. rewrite Hs. reflexivity.
Defined.

(** X3. Remove of an element that is not stored returns false and leaves
    the state as it was; in the coarse-grained set as long as a bucket is
    left. *)
Theorem Remove_of_absent_element {T : Type} `{EqDecision T} (hasher : T → N) :
  (∀ st v, Sequential.reachable hasher st →
     v ∉ concat (Sequential.buckets_ st) →
     Sequential.Remove hasher v st = Some (false, st)) ∧
  (∀ st v, Coarse.reachable hasher st → Coarse.capacity st ≠ 0 →
     v ∉ concat (Coarse.buckets_ st) →
     Coarse.Remove hasher v st = Some (false, st)) ∧
  (∀ st v, Striped.reachable hasher st →
     v ∉ concat (Striped.buckets_ st) →
     Striped.Remove hasher v st = Some (false, st)) ∧
  (∀ st me v, Refinable.reachable hasher st →
     v ∉ concat (Refinable.buckets_ st) →
     Refinable.Remove hasher me v st = Some (false, st)) ∧
  (∀ st v, RefinableSkeleton.reachable hasher st →
     v ∉ concat (RefinableSkeleton.buckets_ st) →
     RefinableSkeleton.Remove hasher v st = Some (false, st)).
Proof.
  split_and!.
  - intros st v Hinv%SequentialFacts.seq_reachable_invariant Hv.
    destruct (SequentialSet.seq_Remove_total hasher v st Hinv)
      as [[r st'] Ha].
    destruct (SequentialSet.seq_Remove_cases hasher _ _ _ _ Hinv Ha)
      as [(-> & -> & _)|(_ & Hp & _)]; [done|].
    destruct Hv. rewrite Hp. left.
  - intros st v Hinv%CoarseFacts.coarse_reachable_invariant Hc Hv.
    by apply CoarseSet.coarse_Remove_absent.
  - intros st v Hinv%StripedFacts.striped_reachable_invariant Hv.
    destruct (StripedSet.striped_Remove_total hasher v st Hinv)
      as [[r st'] Ha].
    destruct (StripedSet.striped_Remove_cases hasher _ _ _ _ Hinv Ha)
      as [(-> & -> & _)|(_ & Hp & _)]; [done|].
    destruct Hv. rewrite Hp. left.
  - intros st me v Hinv%RefinableFacts.ref_reachable_invariant Hv.
    destruct (RefinableSet.ref_Remove_total hasher me v st Hinv)
      as [[r st'] Ha].
    destruct (RefinableSet.ref_Remove_cases hasher _ _ _ _ _ Hinv Ha)
      as [(-> & -> & _)|(_ & Hp & _)]; [done|].
    destruct Hv. rewrite Hp. left.
  - intros st v Hinv%RefinableSkeletonFacts.skel_reachable_invariant Hv.
    destruct (RefinableSkeletonSet.skel_Remove_total hasher v st Hinv)
      as [[r st'] Ha].
    destruct (RefinableSkeletonSet.skel_Remove_cases hasher _ _ _ _ Hinv Ha)
      as [(-> & -> & _)|(_ & Hp & _)]; [done|].
    destruct Hv. rewrite Hp. left.
Qed.

Lemma Remove_of_absent_element_witness :
  Sequential.Remove Scenario.hasher 9 Scenario.seq_two
    = Some (false, Scenario.seq_two) ∧
  Coarse.Remove Scenario.hasher 9 Scenario.coarse_two
    = Some (false, Scenario.coarse_two) ∧
  Striped.Remove Scenario.hasher 18 Scenario.striped_grown
    = Some (false, Scenario.striped_grown) ∧
  Refinable.Remove Scenario.hasher Scenario.me 9 Scenario.ref_two
    = Some (false, Scenario.ref_two) ∧
  RefinableSkeleton.Remove Scenario.hasher 9 Scenario.skel_two
    = Some (false, Scenario.skel_two).
Proof.
  destruct (Remove_of_absent_element Scenario.hasher)
    as (Hseq & Hcoarse & Hstriped & Href & Hskel).
  split_and!.
  - apply Hseq; [exact seq_two_reachable|].
    apply (bool_decide_unpack _). vm_compute. exact I.
  - apply Hcoarse; [exact coarse_two_reachable|discriminate|].
    apply (bool_decide_unpack _). vm_compute. exact I.
  - apply Hstriped; [exact striped_grown_reachable|].
    apply (bool_decide_unpack _). vm_compute. exact I.
  - apply Href; [exact ref_two_reachable|].
    apply (bool_decide_unpack _). vm_compute. exact I.
  - apply Hskel; [exact skel_two_reachable|].
    apply (bool_decide_unpack _). vm_compute. exact I.
Defined.

(** X4. Contains returns whether the element is stored, and the state it
    was given; in the coarse-grained set as long as a bucket is left. *)
Theorem Contains_is_membership {T : Type} `{EqDecision T} (hasher : T → N) :
  (∀ st v, Sequential.reachable hasher st →
     Sequential.Contains hasher v st
       = Some (bool_decide (v ∈ concat (Sequential.buckets_ st)), st)) ∧
  (∀ st v, Coarse.reachable hasher st → Coarse.capacity st ≠ 0 →
     Coarse.Contains hasher v st
       = Some (bool_decide (v ∈ concat (Coarse.buckets_ st)), st)) ∧
  (∀ st v, Striped.reachable hasher st →
     Striped.Contains hasher v st
       = Some (bool_decide (v ∈ concat (Striped.buckets_ st)), st)) ∧
  (∀ st me v, Refinable.reachable hasher st →
     Refinable.Contains hasher me v st
       = Some (bool_decide (v ∈ concat (Refinable.buckets_ st)), st)) ∧
  (∀ st v, RefinableSkeleton.reachable hasher st →
     RefinableSkeleton.Contains hasher v st
       = Some (bool_decide (v ∈ concat (RefinableSkeleton.buckets_ st)), st)).
Proof.
  split_and!.
  - intros st v Hinv%SequentialFacts.seq_reachable_invariant.
    by apply SequentialSet.seq_Contains_member.
  - intros st v Hinv%CoarseFacts.coarse_reachable_invariant Hc.
    by apply CoarseSet.coarse_Contains_member.
  - intros st v Hinv%StripedFacts.striped_reachable_invariant.
    by apply StripedSet.striped_Contains_member.
  - intros st me v Hinv%RefinableFacts.ref_reachable_invariant.
    by apply RefinableSet.ref_Contains_member.
  - intros st v Hinv%RefinableSkeletonFacts.skel_reachable_invariant.
    by apply RefinableSkeletonSet.skel_Contains_member.
Qed.

Lemma Contains_is_membership_witness :
  Sequential.Contains Scenario.hasher 9 Scenario.seq_two
    = Some (false, Scenario.seq_two) ∧
  Coarse.Contains Scenario.hasher 1 Scenario.coarse_two
    = Some (true, Scenario.coarse_two) ∧
  Striped.Contains Scenario.hasher 17 Scenario.striped_grown
    = Some (true, Scenario.striped_grown) ∧
  Refinable.Contains Scenario.hasher Scenario.me 9 Scenario.ref_two
    = Some (false, Scenario.ref_two) ∧
  RefinableSkeleton.Contains Scenario.hasher 1 Scenario.skel_two
    = Some (true, Scenario.skel_two).
Proof.
  destruct (Contains_is_membership Scenario.hasher)
    as (Hseq & Hcoarse & Hstriped & Href & Hskel).
  split_and!.
  - rewrite (Hseq _ 9 seq_two_reachable). reflexivity.
  - rewrite (Hcoarse _ 1 coarse_two_reachable); [reflexivity|discriminate].
  - rewrite (Hstriped _ 17 striped_grown_reachable). reflexivity.
  - rewrite (Href _ Scenario.me 9 ref_two_reachable). reflexivity.
  - rewrite (Hskel _ 1 skel_two_reachable). reflexivity.
Defined.

(** X5. In every reachable state of every variant no element is stored
    twice (I3) and the size counter is the number of stored elements,
    as a size_t (I4). *)
Theorem no_duplicates_and_size {T : Type} `{EqDecision T} (hasher : T → N) :
  (∀ st, Sequential.reachable hasher st →
     NoDup (concat (Sequential.buckets_ st)) ∧
     Sequential.size_ st
       = N.of_nat (length (concat (Sequential.buckets_ st)))
           mod size_t_modulus) ∧
  (∀ st, Coarse.reachable hasher st →
     NoDup (concat (Coarse.buckets_ st)) ∧
     Coarse.size_ st
       = N.of_nat (length (concat (Coarse.buckets_ st)))
           mod size_t_modulus) ∧
  (∀ st, Striped.reachable hasher st →
     NoDup (concat (Striped.buckets_ st)) ∧
     Striped.size_ st
       = N.of_nat (length (concat (Striped.buckets_ st)))
           mod size_t_modulus) ∧
  (∀ st, Refinable.reachable hasher st →
     NoDup (concat (Refinable.buckets_ st)) ∧
     Refinable.size_ st
       = N.of_nat (length (concat (Refinable.buckets_ st)))
           mod size_t_modulus) ∧
  (∀ st, RefinableSkeleton.reachable hasher st →
     NoDup (concat (RefinableSkeleton.buckets_ st)) ∧
     RefinableSkeleton.size_ st
       = N.of_nat (length (concat (RefinableSkeleton.buckets_ st)))
           mod size_t_modulus).
Proof.
  split_and!.
  - by intros st [_ ?]%SequentialSet.seq_reachable_counted.
  - by intros st [_ ?]%CoarseSet.coarse_reachable_counted.
  - by intros st [_ ?]%StripedSet.striped_reachable_counted.
  - by intros st [_ ?]%RefinableSet.ref_reachable_counted.
  - by intros st [_ ?]%RefinableSkeletonSet.skel_reachable_counted.
Qed.

Lemma no_duplicates_and_size_witness :
  NoDup (concat (Sequential.buckets_ Scenario.seq_two)) ∧
  NoDup (concat (Coarse.buckets_ Scenario.coarse_nothing)) ∧
  NoDup (concat (Striped.buckets_ Scenario.striped_grown)) ∧
  NoDup (concat (Refinable.buckets_ Scenario.ref_two)) ∧
  NoDup (concat (RefinableSkeleton.buckets_ Scenario.skel_two)).
Proof.
  destruct (no_duplicates_and_size Scenario.hasher)
    as (Hseq & Hcoarse & Hstriped & Href & Hskel).
  split_and!.
  - exact (proj1 (Hseq _ seq_two_reachable)).
  - exact (proj1 (Hcoarse _ coarse_nothing_reachable)).
  - exact (proj1 (Hstriped _ striped_grown_reachable)).
  - exact (proj1 (Href _ ref_two_reachable)).
  - exact (proj1 (Hskel _ skel_two_reachable)).
Defined.

(** X6. No call returns with a mutex held: between calls the global mutex
    of the coarse-grained set, every stripe lock and the resize mutex of
    the striped set, and every bucket lock and the resize mutex of the
    Refinable drafts are free, and no resize is flagged as in progress. *)
Theorem no_mutex_left_held {T : Type} `{EqDecision T} (hasher : T → N) :
  (∀ st, Coarse.reachable hasher st → Coarse.mutex_ st = Free) ∧
  (∀ st, Striped.reachable hasher st →
     all_free (Striped.locks_ st) ∧ Striped.resize_mutex_ st = Free) ∧
  (∀ st, Refinable.reachable hasher st →
     all_free (Refinable.locks_ st) ∧ Refinable.resize_mutex_ st = Free ∧
     Refinable.resizing_ st = false) ∧
  (∀ st, RefinableSkeleton.reachable hasher st →
     all_free (RefinableSkeleton.locks_ st) ∧
     RefinableSkeleton.resize_mutex_ st = Free ∧
     RefinableSkeleton.resizing_ st = false).
Proof.
  split_and!.
  - by intros st [? _]%CoarseFacts.coarse_reachable_invariant.
  - by intros st (? & ? & _)%StripedFacts.striped_reachable_invariant.
  - by intros st (? & ? & ? & _)%RefinableFacts.ref_reachable_invariant.
  - by intros st (? & ? & ? & _)%RefinableSkeletonFacts.skel_reachable_invariant.
Qed.

Lemma no_mutex_left_held_witness :
  Coarse.mutex_ Scenario.coarse_two = Free ∧
  all_free (Striped.locks_ Scenario.striped_grown) ∧
  all_free (Refinable.locks_ Scenario.ref_two) ∧
  all_free (RefinableSkeleton.locks_ Scenario.skel_two).
Proof.
  destruct (no_mutex_left_held Scenario.hasher)
    as (Hcoarse & Hstriped & Href & Hskel).
  split_and!.
  - exact (Hcoarse _ coarse_two_reachable).
  - exact (proj1 (Hstriped _ striped_grown_reachable)).
  - exact (proj1 (Href _ ref_two_reachable)).
  - exact (proj1 (Hskel _ skel_two_reachable)).
Defined.

(** X7. The Sequential, Striped and Refinable sets never have fewer than
    kMinBuckets = 4 buckets, and in every reachable state each of Add,
    Remove and Contains returns: no modulo by zero, no index out of
    range, no wait for a mutex. *)
Theorem at_least_four_buckets_and_no_stuck_call {T : Type} `{EqDecision T}
    (hasher : T → N) :
  (∀ st v, Sequential.reachable hasher st →
     4 ≤ Sequential.capacity st ∧
     is_Some (Sequential.Add hasher v st) ∧
     is_Some (Sequential.Remove hasher v st) ∧
     is_Some (Sequential.Contains hasher v st)) ∧
  (∀ st v, Striped.reachable hasher st →
     4 ≤ Striped.capacity st ∧
     is_Some (Striped.Add hasher v st) ∧
     is_Some (Striped.Remove hasher v st) ∧
     is_Some (Striped.Contains hasher v st)) ∧
  (∀ st me v, Refinable.reachable hasher st →
     4 ≤ Refinable.capacity st ∧
     is_Some (Refinable.Add hasher me v st) ∧
     is_Some (Refinable.Remove hasher me v st) ∧
     is_Some (Refinable.Contains hasher me v st)) ∧
  (∀ st me v, RefinableSkeleton.reachable hasher st →
     4 ≤ RefinableSkeleton.capacity st ∧
     is_Some (RefinableSkeleton.Add hasher me v st) ∧
     is_Some (RefinableSkeleton.Remove hasher v st) ∧
     is_Some (RefinableSkeleton.Contains hasher v st)).
Proof.
  split_and!.
  - intros st v Hinv%SequentialFacts.seq_reachable_invariant.
    split_and!.
    + by destruct Hinv.
    + by apply SequentialSet.seq_Add_total.
    + by apply SequentialSet.seq_Remove_total.
    + destruct (SequentialFacts.seq_Contains_total hasher v st Hinv) as [r ->].
      by eexists.
  - intros st v Hinv%StripedFacts.striped_reachable_invariant.
    split_and!.
    + by destruct Hinv as (_ & _ & _ & ? & _).
    + by apply StripedSet.striped_Add_total.
    + by apply StripedSet.striped_Remove_total.
    + destruct (StripedFacts.striped_Contains_total hasher v st Hinv)
        as [r ->]. by eexists.
  - intros st me v Hinv%RefinableFacts.ref_reachable_invariant.
    split_and!.
    + by destruct Hinv as (_ & _ & _ & _ & ? & _).
    + by apply RefinableSet.ref_Add_total.
    + by apply RefinableSet.ref_Remove_total.
    + destruct (RefinableFacts.ref_Contains_total hasher me v st Hinv)
        as [r ->]. by eexists.
  - intros st me v Hinv%RefinableSkeletonFacts.skel_reachable_invariant.
    split_and!.
    + by destruct Hinv as (_ & _ & _ & _ & ? & _).
    + by apply RefinableSkeletonSet.skel_Add_total.
    + by apply RefinableSkeletonSet.skel_Remove_total.
    + destruct (RefinableSkeletonFacts.skel_Contains_total hasher v st Hinv)
        as [r ->]. by eexists.
Qed.

Lemma at_least_four_buckets_and_no_stuck_call_witness :
  4 ≤ Sequential.capacity Scenario.seq_two ∧
  4 ≤ Striped.capacity Scenario.striped_grown ∧
  4 ≤ Refinable.capacity Scenario.ref_two ∧
  4 ≤ RefinableSkeleton.capacity Scenario.skel_two.
Proof.
  destruct (at_least_four_buckets_and_no_stuck_call Scenario.hasher)
    as (Hseq & Hstriped & Href & Hskel).
  split_and!.
  - exact (proj1 (Hseq _ 0 seq_two_reachable)).
  - exact (proj1 (Hstriped _ 0 striped_grown_reachable)).
  - exact (proj1 (Href _ 0 0 ref_two_reachable)).
  - exact (proj1 (Hskel _ 0 0 skel_two_reachable)).
Defined.

(** X8. The Sequential set never shrinks: a call leaves the bucket count
    as it was or exactly doubles it (the size_t multiplication does not
    wrap around). *)
Theorem sequential_capacity_stays_or_doubles {T : Type} `{EqDecision T}
    (hasher : T → N) (st st' : Sequential.state T) :
  Sequential.reachable hasher st → Sequential.step hasher st st' →
  Sequential.capacity st' = Sequential.capacity st ∨
  Sequential.capacity st' = 2 * Sequential.capacity st.
Proof.
  intros Hinv%SequentialFacts.seq_reachable_invariant Hstep.
  by apply (SequentialSet.seq_step_capacity hasher).
Qed.

Lemma sequential_capacity_stays_or_doubles_witness :
  ∃ st', Sequential.Add Scenario.hasher 9 Scenario.seq_two = Some (true, st') ∧
         (Sequential.capacity st' = 4 ∨ Sequential.capacity st' = 2 * 4).
Proof.
  eexists. split; [reflexivity|].
  refine (sequential_capacity_stays_or_doubles Scenario.hasher
            Scenario.seq_two _ seq_two_reachable _).
  apply (Sequential.step_Add Scenario.hasher 9 true). reflexivity.
Defined.

(** X9. Striped Resize(n), called between operations, returns with
    max(n, 4) buckets, the same elements (with multiplicity), the same
    size counter and the same lock array, every element in the bucket its
    hash selects and all mutexes released. *)
Theorem striped_Resize_keeps_the_set {T : Type} `{EqDecision T}
    (hasher : T → N) (n : N) (st : Striped.state T) :
  Striped.invariant hasher st →
  ∃ st',
    Striped.Resize hasher n st = Some st' ∧
    Striped.capacity st' = N.max n 4 ∧
    Striped.size_ st' = Striped.size_ st ∧
    Striped.locks_ st' = Striped.locks_ st ∧
    concat (Striped.buckets_ st') ≡ₚ concat (Striped.buckets_ st) ∧
    Striped.invariant hasher st'.
Proof.
  intros Hinv.
  destruct (StripedFacts.striped_Resize_total hasher n st) as [st' Hr].
  { by destruct Hinv. }
  { by destruct Hinv as (_ & ? & _). }
  exists st'. split; [done|].
  pose proof (StripedFacts.striped_Resize_invariant hasher _ _ _ Hr Hinv).
  apply StripedFacts.striped_Resize_Some in Hr
    as (Hl & _ & Hsz & Hcap & _ & Hp).
  split_and!; try done. rewrite Hcap.
  unfold Striped.kMinBuckets, Striped.NormalizeCapacity.
  destruct (N.eqb_spec n 0); unfold Striped.kMinBuckets; lia.
Qed.

Lemma striped_Resize_keeps_the_set_witness :
  ∃ st', Striped.Resize Scenario.hasher 3 Scenario.striped_grown = Some st' ∧
         Striped.capacity st' = 4 ∧ Striped.size_ st' = 17.
Proof.
  destruct (striped_Resize_keeps_the_set Scenario.hasher 3
              Scenario.striped_grown
              (StripedFacts.striped_reachable_invariant _ _
                 striped_grown_reachable))
    as (st' & Hr & Hcap & Hsz & _).
  exists st'. split_and!; [exact Hr|exact Hcap|exact Hsz].
Defined.

(** X10. Refinable Resize(n), in both drafts and called between
    operations, returns with max(n, 4) buckets and as many locks, the same
    elements (with multiplicity) and the same size counter, every element
    in the bucket its hash selects and all mutexes released. *)
Theorem refinable_Resize_keeps_the_set {T : Type} `{EqDecision T}
    (hasher : T → N) :
  (∀ me n st, Refinable.invariant hasher st →
     ∃ st',
       Refinable.Resize hasher me n st = Some st' ∧
       Refinable.capacity st' = N.max n 4 ∧
       Refinable.size_ st' = Refinable.size_ st ∧
       concat (Refinable.buckets_ st') ≡ₚ concat (Refinable.buckets_ st) ∧
       Refinable.invariant hasher st') ∧
  (∀ me n st, RefinableSkeleton.invariant hasher st →
     ∃ st',
       RefinableSkeleton.Resize hasher me n st = Some st' ∧
       RefinableSkeleton.capacity st' = N.max n 4 ∧
       RefinableSkeleton.size_ st' = RefinableSkeleton.size_ st ∧
       concat (RefinableSkeleton.buckets_ st')
         ≡ₚ concat (RefinableSkeleton.buckets_ st) ∧
       RefinableSkeleton.invariant hasher st').
Proof.
  split.
  - intros me n st Hinv.
    destruct (RefinableFacts.ref_Resize_total hasher me n st) as [st' Hr].
    { by destruct Hinv. }
    { by destruct Hinv as (_ & ? & _). }
    { by destruct Hinv as (_ & _ & _ & ? & _). }
    exists st'. split; [done|].
    pose proof (RefinableFacts.ref_Resize_invariant hasher _ _ _ _ Hr Hinv).
    destruct Hinv as (_ & _ & _ & Hlen & _).
    apply RefinableFacts.ref_Resize_Some in Hr
      as (_ & Hsz & Hcap & _ & _ & _ & Hp).
    destruct (Hcap Hlen) as [Hc _].
    split_and!; try done; [|by apply Hp]. rewrite Hc.
    unfold Refinable.kMinBuckets, Refinable.NormalizeCapacity.
    destruct (N.eqb_spec n 0); unfold Refinable.kMinBuckets; lia.
  - intros me n st Hinv.
    destruct (RefinableSkeletonFacts.skel_Resize_total hasher me n st)
      as [st' Hr].
    { by destruct Hinv. }
    { by destruct Hinv as (_ & ? & _). }
    exists st'. split; [done|].
    pose proof (RefinableSkeletonFacts.skel_Resize_invariant hasher
                  _ _ _ _ Hr Hinv).
    apply RefinableSkeletonFacts.skel_Resize_Some in Hr
      as (_ & Hsz & Hcap & _ & _ & _ & _ & Hp).
    split_and!; try done. rewrite Hcap.
    unfold RefinableSkeleton.kMinBuckets, RefinableSkeleton.NormalizeCapacity.
    destruct (N.eqb_spec n 0); unfold RefinableSkeleton.kMinBuckets; lia.
Qed.

Lemma refinable_Resize_keeps_the_set_witness :
  (∃ st', Refinable.Resize Scenario.hasher Scenario.me 9 Scenario.ref_two
            = Some st' ∧
          Refinable.capacity st' = 9 ∧ Refinable.size_ st' = 2) ∧
  (∃ st', RefinableSkeleton.Resize Scenario.hasher Scenario.me 9
            Scenario.skel_two = Some st' ∧
          RefinableSkeleton.capacity st' = 9 ∧
          RefinableSkeleton.size_ st' = 2).
Proof.
  destruct (refinable_Resize_keeps_the_set Scenario.hasher) as [Href Hskel].
  split.
  - destruct (Href Scenario.me 9 Scenario.ref_two
                (RefinableFacts.ref_reachable_invariant _ _ ref_two_reachable))
      as (st' & Hr & Hcap & Hsz & _).
    exists st'. split_and!; [exact Hr|exact Hcap|exact Hsz].
  - destruct (Hskel Scenario.me 9 Scenario.skel_two
                (RefinableSkeletonFacts.skel_reachable_invariant _ _
                   skel_two_reachable))
      as (st' & Hr & Hcap & Hsz & _).
    exists st'. split_and!; [exact Hr|exact Hcap|exact Hsz].
Defined.

(** X11. A second Resize to the capacity a Resize has just installed
    takes the early return and changes nothing (striped set and both
    Refinable drafts). *)
Theorem Resize_twice_is_Resize_once {T : Type} `{EqDecision T}
    (hasher : T → N) :
  (∀ n st st', Striped.Resize hasher n st = Some st' →
     Striped.Resize hasher n st' = Some st') ∧
  (∀ me me' n st st',
     length (Refinable.locks_ st) = length (Refinable.buckets_ st) →
     Refinable.Resize hasher me n st = Some st' →
     Refinable.Resize hasher me' n st' = Some st') ∧
  (∀ me me' n st st',
     RefinableSkeleton.Resize hasher me n st = Some st' →
     RefinableSkeleton.Resize hasher me' n st' = Some st').
Proof.
  split_and!.
  - apply StripedSet.striped_Resize_again.
  - apply RefinableSet.ref_Resize_again.
  - apply RefinableSkeletonSet.skel_Resize_again.
Qed.

Lemma Resize_twice_is_Resize_once_witness :
  (∃ st', Striped.Resize Scenario.hasher 3 Scenario.striped_grown = Some st' ∧
          Striped.Resize Scenario.hasher 3 st' = Some st') ∧
  (∃ st', Refinable.Resize Scenario.hasher Scenario.me 9 Scenario.ref_two
            = Some st' ∧
          Refinable.Resize Scenario.hasher 0 9 st' = Some st') ∧
  (∃ st', RefinableSkeleton.Resize Scenario.hasher Scenario.me 9
            Scenario.skel_two = Some st' ∧
          RefinableSkeleton.Resize Scenario.hasher 0 9 st' = Some st').
Proof.
  destruct (Resize_twice_is_Resize_once Scenario.hasher)
    as (Hstriped & Href & Hskel).
  split_and!.
  - eexists. split; [reflexivity|].
    apply (Hstriped 3 Scenario.striped_grown). reflexivity.
  - eexists. split; [reflexivity|].
    apply (Href Scenario.me 0 9 Scenario.ref_two); reflexivity.
  - eexists. split; [reflexivity|].
    apply (Hskel Scenario.me 0 9 Scenario.skel_two). reflexivity.
Defined.

(** X12. The version stamp of the Refinable drafts follows the geometry:
    a Resize that returns either took the early return, leaving capacity,
    version, bucket array and lock array alone, or installed a different
    capacity and bumped the version by one; the second draft then also
    retires the old lock array. *)
Theorem version_bumped_iff_capacity_changed {T : Type} `{EqDecision T}
    (hasher : T → N) :
  (∀ me n st st', Refinable.Resize hasher me n st = Some st' →
     (Refinable.capacity st' = Refinable.capacity st ∧
      Refinable.version_ st' = Refinable.version_ st ∧
      Refinable.buckets_ st' = Refinable.buckets_ st ∧
      Refinable.locks_ st' = Refinable.locks_ st) ∨
     (Refinable.capacity st' ≠ Refinable.capacity st ∧
      Refinable.version_ st' = size_t_inc (Refinable.version_ st))) ∧
  (∀ me n st st', RefinableSkeleton.Resize hasher me n st = Some st' →
     (RefinableSkeleton.capacity st' = RefinableSkeleton.capacity st ∧
      RefinableSkeleton.version_ st' = RefinableSkeleton.version_ st ∧
      RefinableSkeleton.buckets_ st' = RefinableSkeleton.buckets_ st ∧
      RefinableSkeleton.locks_ st' = RefinableSkeleton.locks_ st ∧
      RefinableSkeleton.old_lock_arrays_ st'
        = RefinableSkeleton.old_lock_arrays_ st) ∨
     (RefinableSkeleton.capacity st' ≠ RefinableSkeleton.capacity st ∧
      RefinableSkeleton.version_ st'
        = size_t_inc (RefinableSkeleton.version_ st) ∧
      RefinableSkeleton.old_lock_arrays_ st'
        = RefinableSkeleton.old_lock_arrays_ st
            ++ [RefinableSkeleton.locks_ st])).
Proof.
  split.
  - apply RefinableSet.ref_Resize_version.
  - apply RefinableSkeletonSet.skel_Resize_version.
Qed.

Lemma version_bumped_iff_capacity_changed_witness :
  (∃ st', Refinable.Resize Scenario.hasher Scenario.me 9 Scenario.ref_two
            = Some st' ∧ Refinable.version_ st' = 1) ∧
  (∃ st', RefinableSkeleton.Resize Scenario.hasher Scenario.me 3
            Scenario.skel_two = Some st' ∧
          RefinableSkeleton.version_ st' = 0).
Proof.
  destruct (version_bumped_iff_capacity_changed Scenario.hasher)
    as [Href Hskel].
  split.
  - eexists. split; [reflexivity|].
    refine (match Href Scenario.me 9 Scenario.ref_two _ _ with
            | or_introl (conj Hc _) => _
            | or_intror (conj _ Hv) => Hv
            end); [reflexivity|discriminate Hc].
  - eexists. split; [reflexivity|].
    refine (match Hskel Scenario.me 3 Scenario.skel_two _ _ with
            | or_introl (conj _ (conj Hv _)) => Hv
            | or_intror (conj Hc _) => _
            end); [reflexivity|].
    exfalso. apply Hc. reflexivity.
Defined.

Lemma skel_grown_reachable :
  RefinableSkeleton.reachable Scenario.hasher Scenario.skel_grown.
Proof.
  exists 4.
  apply (RefinableSkeletonFacts.skel_run_steps Scenario.hasher
           Scenario.seventeen_skel_adds).
  by vm_compute.
Qed.

(** X13. In the draft that keeps retired lock arrays, every retired array
    has all its mutexes released, and the version stamp counts the retired
    arrays (as a size_t): one array is retired per version bump. *)
Theorem retired_locks_released_and_counted {T : Type} `{EqDecision T}
    (hasher : T → N) (st : RefinableSkeleton.state T) :
  RefinableSkeleton.reachable hasher st →
  Forall all_free (RefinableSkeleton.old_lock_arrays_ st) ∧
  RefinableSkeleton.version_ st
    = N.of_nat (length (RefinableSkeleton.old_lock_arrays_ st))
        mod size_t_modulus.
Proof. apply RefinableSkeletonSet.skel_reachable_retired. Qed.

Lemma retired_locks_released_and_counted_witness :
  RefinableSkeleton.old_lock_arrays_ Scenario.skel_grown
    = [[Free; Free; Free; Free]] ∧
  Forall all_free (RefinableSkeleton.old_lock_arrays_ Scenario.skel_grown) ∧
  RefinableSkeleton.version_ Scenario.skel_grown = 1.
Proof.
  split; [reflexivity|].
  exact (retired_locks_released_and_counted Scenario.hasher
           Scenario.skel_grown skel_grown_reachable).
Defined.

(** X14. Driven by one caller, the Striped set and both Refinable drafts
    return, call after call, what the Sequential set returns: any sequence
    of Add, Remove, Contains and Size calls, made by any threads on sets
    constructed with any capacities and stripe count, runs to its end in
    all four and yields the same list of results. *)
Theorem variants_return_what_Sequential_returns {T : Type} `{EqDecision T}
    (hasher : T → N) (calls : list (N * call T)) (c1 c2 stripes c3 c4 : N) :
  ∃ results,
    trace (seq_perform hasher) (snd <$> calls) (Sequential.make c1)
      = Some results ∧
    trace (striped_perform hasher) (snd <$> calls) (Striped.make c2 stripes)
      = Some results ∧
    trace (ref_perform hasher) calls (Refinable.make c3) = Some results ∧
    trace (skel_perform hasher) calls (RefinableSkeleton.make c4)
      = Some results.
Proof.
  pose proof (seq_meets_contract hasher) as Hseq.
  assert (∀ n, counted (fresh_buckets (T:=T) n) 0) as Hfresh
    by apply counted_fresh.
  destruct (trace_agree _ _ _ _ _ _ _ _ _ _ Hseq
              (striped_meets_contract hasher) (snd <$> calls) (snd <$> calls)
              (Sequential.make c1) (Striped.make c2 stripes))
    as (rs & Hs & Hstriped).
  { done. }
  { split; [apply SequentialFacts.seq_make_invariant|apply Hfresh]. }
  { split; [apply StripedFacts.striped_make_invariant|apply Hfresh]. }
  { intros w. simpl. by rewrite !concat_fresh_buckets. }
  { done. }
  destruct (trace_agree _ _ _ _ _ _ _ _ _ _ Hseq
              (ref_meets_contract hasher) (snd <$> calls) calls
              (Sequential.make c1) (Refinable.make c3))
    as (rs' & Hs' & Href).
  { by rewrite list_fmap_id. }
  { split; [apply SequentialFacts.seq_make_invariant|apply Hfresh]. }
  { split; [apply RefinableFacts.ref_make_invariant|apply Hfresh]. }
  { intros w. simpl. by rewrite !concat_fresh_buckets. }
  { done. }
  destruct (trace_agree _ _ _ _ _ _ _ _ _ _ Hseq
              (skel_meets_contract hasher) (snd <$> calls) calls
              (Sequential.make c1) (RefinableSkeleton.make c4))
    as (rs'' & Hs'' & Hskel).
  { by rewrite list_fmap_id. }
  { split; [apply SequentialFacts.seq_make_invariant|apply Hfresh]. }
  { split; [apply RefinableSkeletonFacts.skel_make_invariant|apply Hfresh]. }
  { intros w. simpl. by rewrite !concat_fresh_buckets. }
  { done. }
  exists rs. split_and!; [done..| |]; congruence.
Qed.

(** X15. Lookup after update: in every variant Contains(v) returns true
    right after an Add(v) that returned, and false right after a Remove(v)
    that returned (for the coarse-grained set, if the Remove left a
    bucket). *)
Theorem Contains_after_Add_and_Remove {T : Type} `{EqDecision T}
    (hasher : T → N) :
  (∀ st v r st1, Sequential.reachable hasher st →
     (Sequential.Add hasher v st = Some (r, st1) →
      Sequential.Contains hasher v st1 = Some (true, st1)) ∧
     (Sequential.Remove hasher v st = Some (r, st1) →
      Sequential.Contains hasher v st1 = Some (false, st1))) ∧
  (∀ st v r st1, Coarse.reachable hasher st →
     (Coarse.Add hasher v st = Some (r, st1) →
      Coarse.Contains hasher v st1 = Some (true, st1)) ∧
     (Coarse.Remove hasher v st = Some (r, st1) →
      Coarse.capacity st1 ≠ 0 →
      Coarse.Contains hasher v st1 = Some (false, st1))) ∧
  (∀ st v r st1, Striped.reachable hasher st →
     (Striped.Add hasher v st = Some (r, st1) →
      Striped.Contains hasher v st1 = Some (true, st1)) ∧
     (Striped.Remove hasher v st = Some (r, st1) →
      Striped.Contains hasher v st1 = Some (false, st1))) ∧
  (∀ st me me' v r st1, Refinable.reachable hasher st →
     (Refinable.Add hasher me v st = Some (r, st1) →
      Refinable.Contains hasher me' v st1 = Some (true, st1)) ∧
     (Refinable.Remove hasher me v st = Some (r, st1) →
      Refinable.Contains hasher me' v st1 = Some (false, st1))) ∧
  (∀ st me v r st1, RefinableSkeleton.reachable hasher st →
     (RefinableSkeleton.Add hasher me v st = Some (r, st1) →
      RefinableSkeleton.Contains hasher v st1 = Some (true, st1)) ∧
     (RefinableSkeleton.Remove hasher v st = Some (r, st1) →
      RefinableSkeleton.Contains hasher v st1 = Some (false, st1))).
Proof.
  split_and!.
  - intros st v r st1 [Hinv Hc]%SequentialSet.seq_reachable_counted.
    split; intros Ha.
    + rewrite SequentialSet.seq_Contains_member
        by (by eapply SequentialFacts.seq_Add_invariant).
      rewrite bool_decide_eq_true_2; [done|].
      by eapply SequentialFacts.seq_Add_elem_of.
    + rewrite SequentialSet.seq_Contains_member
        by (by eapply SequentialFacts.seq_Remove_invariant).
      rewrite bool_decide_eq_false_2; [done|].
      destruct (SequentialSet.seq_Remove_cases hasher _ _ _ _ Hinv Ha)
        as [(_ & -> & Hno)|(_ & Hp & _)]; [done|].
      by destruct (counted_remove _ _ _ _ Hc Hp).
  - intros st v r st1 [Hinv Hc]%CoarseSet.coarse_reachable_counted.
    split; [intros Ha|intros Ha Hcap].
    + pose proof (CoarseFacts.coarse_Add_elem_of hasher _ _ _ _ Ha) as Hin.
      rewrite CoarseSet.coarse_Contains_member.
      * by rewrite bool_decide_eq_true_2.
      * by eapply CoarseFacts.coarse_Add_invariant.
      * apply elem_of_concat_lookup in Hin as (i & b & Hi & _).
        apply lookup_lt_Some in Hi. unfold Coarse.capacity. lia.
    + rewrite CoarseSet.coarse_Contains_member;
        [|by eapply CoarseFacts.coarse_Remove_invariant|done].
      rewrite bool_decide_eq_false_2; [done|].
      destruct (CoarseSet.coarse_Remove_cases hasher _ _ _ _ Hinv Ha)
        as [(_ & -> & Hno)|(_ & Hp & _)]; [done|].
      by destruct (counted_remove _ _ _ _ Hc Hp).
  - intros st v r st1 [Hinv Hc]%StripedSet.striped_reachable_counted.
    split; intros Ha.
    + rewrite StripedSet.striped_Contains_member
        by (by eapply StripedFacts.striped_Add_invariant).
      rewrite bool_decide_eq_true_2; [done|].
      by eapply StripedFacts.striped_Add_elem_of.
    + rewrite StripedSet.striped_Contains_member
        by (by eapply StripedFacts.striped_Remove_invariant).
      rewrite bool_decide_eq_false_2; [done|].
      destruct (StripedSet.striped_Remove_cases hasher _ _ _ _ Hinv Ha)
        as [(_ & -> & Hno)|(_ & Hp & _)]; [done|].
      by destruct (counted_remove _ _ _ _ Hc Hp).
  - intros st me me' v r st1 [Hinv Hc]%RefinableSet.ref_reachable_counted.
    split; intros Ha.
    + rewrite RefinableSet.ref_Contains_member
        by (by eapply RefinableFacts.ref_Add_invariant).
      rewrite bool_decide_eq_true_2; [done|].
      eapply RefinableFacts.ref_Add_elem_of; [done|].
      by destruct Hinv as (_ & _ & _ & ? & _).
    + rewrite RefinableSet.ref_Contains_member
        by (by eapply RefinableFacts.ref_Remove_invariant).
      rewrite bool_decide_eq_false_2; [done|].
      destruct (RefinableSet.ref_Remove_cases hasher _ _ _ _ _ Hinv Ha)
        as [(_ & -> & Hno)|(_ & Hp & _)]; [done|].
      by destruct (counted_remove _ _ _ _ Hc Hp).
  - intros st me v r st1 [Hinv Hc]%RefinableSkeletonSet.skel_reachable_counted.
    split; intros Ha.
    + rewrite RefinableSkeletonSet.skel_Contains_member
        by (by eapply RefinableSkeletonFacts.skel_Add_invariant).
      rewrite bool_decide_eq_true_2; [done|].
      by eapply RefinableSkeletonFacts.skel_Add_elem_of.
    + rewrite RefinableSkeletonSet.skel_Contains_member
        by (by eapply RefinableSkeletonFacts.skel_Remove_invariant).
      rewrite bool_decide_eq_false_2; [done|].
      destruct (RefinableSkeletonSet.skel_Remove_cases hasher _ _ _ _ Hinv Ha)
        as [(_ & -> & Hno)|(_ & Hp & _)]; [done|].
      by destruct (counted_remove _ _ _ _ Hc Hp).
Qed.

Lemma Contains_after_Add_and_Remove_witness :
  (∃ st1, Sequential.Add Scenario.hasher 9 Scenario.seq_two = Some (true, st1)
          ∧ Sequential.Contains Scenario.hasher 9 st1 = Some (true, st1)) ∧
  (∃ st1, Coarse.Remove Scenario.hasher 6 Scenario.coarse_two
            = Some (true, st1)
          ∧ Coarse.Contains Scenario.hasher 6 st1 = Some (false, st1)) ∧
  (∃ st1, Striped.Remove Scenario.hasher 9 Scenario.striped_grown
            = Some (true, st1)
          ∧ Striped.Contains Scenario.hasher 9 st1 = Some (false, st1)) ∧
  (∃ st1, Refinable.Add Scenario.hasher Scenario.me 9 Scenario.ref_two
            = Some (true, st1)
          ∧ Refinable.Contains Scenario.hasher 0 9 st1 = Some (true, st1)) ∧
  (∃ st1, RefinableSkeleton.Remove Scenario.hasher 6 Scenario.skel_two
            = Some (true, st1)
          ∧ RefinableSkeleton.Contains Scenario.hasher 6 st1
              = Some (false, st1)).
Proof.
  destruct (Contains_after_Add_and_Remove Scenario.hasher)
    as (Hseq & Hcoarse & Hstriped & Href & Hskel).
  split_and!.
  - eexists. split; [reflexivity|].
    apply (proj1 (Hseq Scenario.seq_two 9 true _ seq_two_reachable)).
    reflexivity.
  - eexists. split; [reflexivity|].
    apply (proj2 (Hcoarse Scenario.coarse_two 6 true _ coarse_two_reachable));
      [reflexivity|discriminate].
  - eexists. split; [reflexivity|].
    apply (proj2 (Hstriped Scenario.striped_grown 9 true _
                    striped_grown_reachable)).
    reflexivity.
  - eexists. split; [reflexivity|].
    apply (proj1 (Href Scenario.ref_two Scenario.me 0 9 true _
                    ref_two_reachable)).
    reflexivity.
  - eexists. split; [reflexivity|].
    apply (proj2 (Hskel Scenario.skel_two Scenario.me 6 true _
                    skel_two_reachable)).
    reflexivity.
Defined.

(** X16. Resize to no bucket at all, in the two classes whose Resize does
    not clamp: on a table without elements it installs an empty bucket
    array; on a table with an element the first rehash step takes a hash
    modulo zero and there is no result. *)
Theorem Resize_to_zero_buckets {T : Type} `{EqDecision T} (hasher : T → N) :
  (∀ st : Sequential.state T,
     Sequential.Resize hasher 0 st
       = if decide (concat (Sequential.buckets_ st) = [])
         then Some {| Sequential.buckets_ := [];
                      Sequential.size_ := Sequential.size_ st |}
         else None) ∧
  (∀ st : Coarse.state T,
     Coarse.Resize hasher 0 st
       = if decide (concat (Coarse.buckets_ st) = [])
         then Some {| Coarse.mutex_ := Coarse.mutex_ st;
                      Coarse.buckets_ := [];
                      Coarse.size_ := Coarse.size_ st |}
         else None).
Proof.
  split; intros st.
  - unfold Sequential.Resize. rewrite rehash_buckets_zero.
    by destruct (decide _).
  - unfold Coarse.Resize. rewrite rehash_buckets_zero.
    by destruct (decide _).
Qed.

(** X17. A set is empty when constructed, whatever the requested capacity
    and stripe count: Size returns 0 and Contains returns false for every
    element, in every variant. *)
Theorem constructed_set_is_empty {T : Type} `{EqDecision T}
    (hasher : T → N) (c stripes me : N) (v : T) :
  Sequential.Size (T:=T) (Sequential.make c) = Some (0, Sequential.make c) ∧
  Sequential.Contains hasher v (Sequential.make c)
    = Some (false, Sequential.make c) ∧
  Coarse.Size (T:=T) (Coarse.make c) = Some (0, Coarse.make c) ∧
  Coarse.Contains hasher v (Coarse.make c) = Some (false, Coarse.make c) ∧
  Striped.Size (T:=T) (Striped.make c stripes)
    = Some (0, Striped.make c stripes) ∧
  Striped.Contains hasher v (Striped.make c stripes)
    = Some (false, Striped.make c stripes) ∧
  Refinable.Size (T:=T) (Refinable.make c) = Some (0, Refinable.make c) ∧
  Refinable.Contains hasher me v (Refinable.make c)
    = Some (false, Refinable.make c) ∧
  RefinableSkeleton.Size (T:=T) (RefinableSkeleton.make c)
    = Some (0, RefinableSkeleton.make c) ∧
  RefinableSkeleton.Contains hasher v (RefinableSkeleton.make c)
    = Some (false, RefinableSkeleton.make c).
Proof.
  assert (∀ n, bool_decide (v ∈ concat (fresh_buckets (T:=T) n)) = false)
    as Hempty.
  { intros n. rewrite concat_fresh_buckets.
    apply bool_decide_eq_false_2, not_elem_of_nil. }
  split_and!; try done.
  - rewrite SequentialSet.seq_Contains_member
      by apply SequentialFacts.seq_make_invariant.
    simpl. by rewrite Hempty.
  - rewrite CoarseSet.coarse_Contains_member.
    + simpl. by rewrite Hempty.
    + apply CoarseFacts.coarse_make_invariant.
    + unfold Coarse.capacity. simpl.
      rewrite length_fresh_buckets, N2Nat.id. unfold Coarse.kMinBuckets. lia.
  - rewrite StripedSet.striped_Contains_member
      by apply StripedFacts.striped_make_invariant.
    simpl. by rewrite Hempty.
  - rewrite RefinableSet.ref_Contains_member
      by apply RefinableFacts.ref_make_invariant.
    simpl. by rewrite Hempty.
  - rewrite RefinableSkeletonSet.skel_Contains_member
      by apply RefinableSkeletonFacts.skel_make_invariant.
    simpl. by rewrite Hempty.
Qed.

(** X18. In every variant a Contains or Size call that returns, from
    any state, hands back the state it was given: bucket array, lock
    array, mutexes and size counter alike.  In every state a sequence of
    calls reaches, Size returns the size counter, and Contains returns
    (for the coarse-grained set: as long as a bucket is left). *)
Theorem Contains_and_Size_read_only {T : Type} `{EqDecision T}
    (hasher : T → N) :
  (∀ v r st st', Sequential.Contains hasher v st = Some (r, st') → st' = st) ∧
  (∀ r (st st' : Sequential.state T),
     Sequential.Size st = Some (r, st') → st' = st) ∧
  (∀ v r st st', Coarse.Contains hasher v st = Some (r, st') → st' = st) ∧
  (∀ r (st st' : Coarse.state T), Coarse.Size st = Some (r, st') → st' = st) ∧
  (∀ v r st st', Striped.Contains hasher v st = Some (r, st') → st' = st) ∧
  (∀ r (st st' : Striped.state T),
     Striped.Size st = Some (r, st') → st' = st) ∧
  (∀ me v r st st',
     Refinable.Contains hasher me v st = Some (r, st') → st' = st) ∧
  (∀ r (st st' : Refinable.state T),
     Refinable.Size st = Some (r, st') → st' = st) ∧
  (∀ v r st st',
     RefinableSkeleton.Contains hasher v st = Some (r, st') → st' = st) ∧
  (∀ r (st st' : RefinableSkeleton.state T),
     RefinableSkeleton.Size st = Some (r, st') → st' = st) ∧
  (∀ v st, Sequential.reachable hasher st →
     ∃ r, Sequential.Contains hasher v st = Some (r, st)) ∧
  (∀ v st, Coarse.reachable hasher st → Coarse.capacity st ≠ 0 →
     ∃ r, Coarse.Contains hasher v st = Some (r, st)) ∧
  (∀ v st, Striped.reachable hasher st →
     ∃ r, Striped.Contains hasher v st = Some (r, st)) ∧
  (∀ me v st, Refinable.reachable hasher st →
     ∃ r, Refinable.Contains hasher me v st = Some (r, st)) ∧
  (∀ v st, RefinableSkeleton.reachable hasher st →
     ∃ r, RefinableSkeleton.Contains hasher v st = Some (r, st)) ∧
  (∀ st, Sequential.reachable hasher st →
     Sequential.Size st = Some (Sequential.size_ st, st)) ∧
  (∀ st, Coarse.reachable hasher st →
     Coarse.Size st = Some (Coarse.size_ st, st)) ∧
  (∀ st, Striped.reachable hasher st →
     Striped.Size st = Some (Striped.size_ st, st)) ∧
  (∀ st, Refinable.reachable hasher st →
     Refinable.Size st = Some (Refinable.size_ st, st)) ∧
  (∀ st, RefinableSkeleton.reachable hasher st →
     RefinableSkeleton.Size st = Some (RefinableSkeleton.size_ st, st)).
Proof.
  split_and!.
  - apply SequentialFacts.seq_Contains_frame.
  - apply SequentialFacts.seq_Size_frame.
  - apply CoarseFacts.coarse_Contains_frame.
  - apply CoarseFacts.coarse_Size_frame.
  - apply StripedFacts.striped_Contains_frame.
  - apply StripedFacts.striped_Size_frame.
  - apply RefinableFacts.ref_Contains_frame.
  - apply RefinableFacts.ref_Size_frame.
  - apply RefinableSkeletonFacts.skel_Contains_frame.
  - apply RefinableSkeletonFacts.skel_Size_frame.
  - intros v st Hst%SequentialFacts.seq_reachable_invariant.
    by apply SequentialFacts.seq_Contains_total.
  - intros v st Hst%CoarseFacts.coarse_reachable_invariant Hc.
    by apply CoarseFacts.coarse_Contains_total.
  - intros v st Hst%StripedFacts.striped_reachable_invariant.
    by apply StripedFacts.striped_Contains_total.
  - intros me v st Hst%RefinableFacts.ref_reachable_invariant.
    by apply RefinableFacts.ref_Contains_total.
  - intros v st Hst%RefinableSkeletonFacts.skel_reachable_invariant.
    by apply RefinableSkeletonFacts.skel_Contains_total.
  - done.
  - intros st [Hm _]%CoarseFacts.coarse_reachable_invariant.
    unfold Coarse.Size. rewrite (CoarseFacts.coarse_acquire_free st Hm).
    simpl. do 2 f_equal. unfold Coarse.release. simpl.
    destruct st; simpl in *. by rewrite Hm.
  - done.
  - done.
  - done.
Qed.

Lemma Contains_and_Size_read_only_witness :
  Sequential.Contains Scenario.hasher 6 Scenario.seq_two
    = Some (true, Scenario.seq_two) ∧
  Coarse.Contains Scenario.hasher 6 Scenario.coarse_two
    = Some (true, Scenario.coarse_two) ∧
  Coarse.Size Scenario.coarse_two = Some (2, Scenario.coarse_two) ∧
  Coarse.Size Scenario.coarse_nothing = Some (0, Scenario.coarse_nothing) ∧
  Striped.Contains Scenario.hasher 18 Scenario.striped_grown
    = Some (false, Scenario.striped_grown) ∧
  Refinable.Contains Scenario.hasher Scenario.me 6 Scenario.ref_two
    = Some (true, Scenario.ref_two) ∧
  RefinableSkeleton.Contains Scenario.hasher 6 Scenario.skel_two
    = Some (true, Scenario.skel_two).
Proof.
  destruct (Contains_and_Size_read_only Scenario.hasher)
    as (Hseq & _ & Hcoarse & Hsize & Hstriped & _ & Href & _ & Hskel & _
        & _ & _ & _ & _ & _ & _ & Hcsize & _).
  split_and!.
  - destruct (Sequential.Contains Scenario.hasher 6 Scenario.seq_two)
      as [[r st']|] eqn:Hc; [|discriminate Hc].
    rewrite (Hseq _ _ _ _ Hc). injection Hc as <- _. reflexivity.
  - destruct (Coarse.Contains Scenario.hasher 6 Scenario.coarse_two)
      as [[r st']|] eqn:Hc; [|discriminate Hc].
    rewrite (Hcoarse _ _ _ _ Hc). injection Hc as <- _. reflexivity.
  - destruct (Coarse.Size Scenario.coarse_two)
      as [[r st']|] eqn:Hc; [|discriminate Hc].
    rewrite (Hsize _ _ _ Hc). injection Hc as <- _. reflexivity.
  - exact (Hcsize _ coarse_nothing_reachable).
  - destruct (Striped.Contains Scenario.hasher 18 Scenario.striped_grown)
      as [[r st']|] eqn:Hc; [|discriminate Hc].
    rewrite (Hstriped _ _ _ _ Hc). injection Hc as <- _. reflexivity.
  - destruct (Refinable.Contains Scenario.hasher Scenario.me 6 Scenario.ref_two)
      as [[r st']|] eqn:Hc; [|discriminate Hc].
    rewrite (Href _ _ _ _ _ Hc). injection Hc as <- _. reflexivity.
  - destruct (RefinableSkeleton.Contains Scenario.hasher 6 Scenario.skel_two)
      as [[r st']|] eqn:Hc; [|discriminate Hc].
    rewrite (Hskel _ _ _ _ Hc). injection Hc as <- _. reflexivity.
Defined.
